(** * image_browser: a shallow embedding of browser.cpp and of the
      directory scanner declared in dir.hpp

    The development follows the three parts of the program:
    - [Scaler]: the size computation of [display] (browser.cpp, lines 40-87),
      carried out in IEEE-754 single precision as the C++ code does;
    - [Enumerator]: [file_list] and [is_directory], the directory scanner;
    - [Navigation]: the body of [main] (browser.cpp, lines 90-193): the
      pruning [while] loop, the key dispatch and the [for] loop around them.

    Definitions come first, one module for each part; the properties follow
    in [ScalerFacts], [EnumeratorFacts] and [NavigationFacts].

    Calls into OpenCV and the operating system are represented by their
    results: [imread] is a function from paths to matrix headers, the keys
    returned by [cv::waitKey] are an input list, a directory is the list of
    entries [readdir] reports. *)

From Stdlib Require Import ZArith QArith Qround Qpower Qminmax Lqa.
From Stdlib Require Import Ascii String.
From Stdlib Require Import Floats.SpecFloat.
From stdpp Require Import list strings.

Local Open Scope Z_scope.

(** ** Matrix headers *)

(** Of a [cv::Mat] the program reads [rows], [cols] and [empty()] only. *)
Record Mat : Type := mkMat { rows : Z; cols : Z }.

(** [cv::Mat::empty()]: no element. *)
Definition empty (m : Mat) : bool := (rows m * cols m =? 0).

(** ** The scaler: sizes computed by [display] *)

Module Scaler.

(** C++ [float] is IEEE-754 binary32: 24 bits of precision, largest
    exponent 128. *)
Definition prec : Z := 24.
Definition emax : Z := 128.
Definition float : Type := spec_float.

(** [static_cast<float>(n)], also the implicit conversion of an [int]
    operand of a [float] operation: round to nearest, ties to even. *)
Definition float_of_int (n : Z) : float := binary_normalize prec emax n 0 false.

Definition INT_MIN : Z := -2147483648.
Definition INT_MAX : Z := 2147483647.

(** [static_cast<int>(f)]: the fractional part is discarded (truncation
    toward zero); the conversion is undefined when the truncated value is
    not representable as an [int], and for infinities and NaN. *)
Definition int_of_float (f : float) : option Z :=
  match f with
  | S754_zero _ => Some 0
  | S754_finite s m e =>
      let v := cond_Zopp s (Z.shiftl (Zpos m) e) in
      if (INT_MIN <=? v) && (v <=? INT_MAX) then Some v else None
  | S754_infinity _ | S754_nan => None
  end.

Definition fdiv : float -> float -> float := SFdiv prec emax.
Definition fmul : float -> float -> float := SFmul prec emax.

(** Lines 48-50. *)
Definition ratio1 (maxcols : Z) (img : Mat) : float :=
  fdiv (float_of_int maxcols) (float_of_int (cols img)).
Definition ratio2 (maxrows : Z) (img : Mat) : float :=
  fdiv (float_of_int maxrows) (float_of_int (rows img)).
Definition ratio (maxcols maxrows : Z) (img : Mat) : float :=
  if SFltb (ratio1 maxcols img) (ratio2 maxrows img)
  then ratio1 maxcols img else ratio2 maxrows img.

(** Lines 73-75: the two arguments of [cv::Mat::zeros], rows first. *)
Definition image_rows (maxcols maxrows : Z) (img : Mat) : option Z :=
  int_of_float (fmul (ratio maxcols maxrows img) (float_of_int (rows img))).
Definition image_cols (maxcols maxrows : Z) (img : Mat) : option Z :=
  int_of_float (fmul (ratio maxcols maxrows img) (float_of_int (cols img))).

(** The header of [image], the matrix handed to [cv::imshow]. *)
Definition image (maxcols maxrows : Z) (img : Mat) : option Mat :=
  match image_rows maxcols maxrows img, image_cols maxcols maxrows img with
  | Some r, Some c => Some (mkMat r c)
  | _, _ => None
  end.

(** Lines 65-66: the two coordinates of the destination triangle that are
    not zero, [img.cols * ratio] of its second corner and
    [img.rows * ratio] of its third. *)
Definition dstTri_1_x (maxcols maxrows : Z) (img : Mat) : float :=
  fmul (float_of_int (cols img)) (ratio maxcols maxrows img).
Definition dstTri_2_y (maxcols maxrows : Z) (img : Mat) : float :=
  fmul (float_of_int (rows img)) (ratio maxcols maxrows img).

(** The rational number a float stands for. *)
Definition float_value (f : float) : option Q :=
  match f with
  | S754_zero _ => Some 0%Q
  | S754_finite s m e => Some (inject_Z (cond_Zopp s (Zpos m)) * 2 ^ e)%Q
  | S754_infinity _ | S754_nan => None
  end.

(** A finite number as an integer: its value times [2^149], the weight of
    the smallest single precision number being [2^-149]. *)
Definition scaled (m : positive) (e : Z) : Z := Zpos m * 2 ^ (e + 149).

Definition K : Z := 2 ^ 149.

Definition sc (f : float) : Z :=
  match f with
  | S754_finite _ m e => scaled m e
  | _ => 0
  end.

Definition expo (f : float) : Z :=
  match f with
  | S754_finite _ _ e => e
  | _ => 0
  end.

(** Positive, with a mantissa of exactly 24 bits. *)
Definition normal (f : float) : Prop :=
  match f with
  | S754_finite false m e => Zpos (digits2_pos m) = 24 /\ -149 <= e <= 104
  | _ => False
  end.

(** [f] is [V] or [V + U], where [U] is the unit in the last place and [V]
    the multiple of [U] just below the exact result. *)
Definition brackets (f : float) (V U : Z) : Prop :=
  0 < U /\ 2 ^ 23 * U <= V /\ (sc f = V \/ sc f = V + U).

(** [f] is finite and stands for the rational [q]. *)
Definition has_value (f : float) (q : Q) : Prop :=
  match float_value f with
  | Some q' => (q' == q)%Q
  | None => False
  end.

(** Truncation toward zero of a rational. *)
Definition Qtrunc (q : Q) : Z :=
  if Qle_bool 0 q then Qfloor q else Qceiling q.

Definition in_int_range (v : Z) : Prop := INT_MIN <= v <= INT_MAX.

(** [1.0f]. *)
Definition one : float := S754_finite false (2 ^ 23) (-23).

(** *** The size rule as the specification words it

    Quotients and products over the rationals, [round] to the nearest
    integer (halves away from zero; the inputs are not negative). *)
Definition spec_ratio (maxcols maxrows : Z) (img : Mat) : Q :=
  Qmin (inject_Z maxcols / inject_Z (cols img))%Q
       (inject_Z maxrows / inject_Z (rows img))%Q.
Definition spec_round (q : Q) : Z := Qfloor (q + (1 # 2))%Q.
Definition spec_rows (maxcols maxrows : Z) (img : Mat) : Z :=
  spec_round (inject_Z (rows img) * spec_ratio maxcols maxrows img)%Q.
Definition spec_cols (maxcols maxrows : Z) (img : Mat) : Z :=
  spec_round (inject_Z (cols img) * spec_ratio maxcols maxrows img)%Q.

End Scaler.

(** ** The enumerator: [file_list] and [is_directory] *)

Module Enumerator.

(** What [readdir] and [lstat] tell about a tree.  A directory is the list
    of its entries in the order [readdir] reports them (the entries named
    "." and ".." are part of that list); [readable] tells whether
    [opendir] succeeds on it.  [File] is anything [lstat] does not
    classify as a directory. *)
#[warnings="-register-all"]
Inductive node : Type :=
| File
| Dir (readable : bool) (entries : list (string * node)).

(** Lines 33-38. *)
Definition is_directory (n : node) : bool :=
  match n with
  | File => false
  | Dir _ _ => true
  end.

(** [strcmp] is read through its sign only. *)
Definition strcmp (a b : string) : Z :=
  match String.compare a b with
  | Eq => 0
  | Lt => -1
  | Gt => 1
  end.

(** Line 73: [! (strcmp(d_name, ".") && strcmp(d_name, ".."))]. *)
Definition ignored (d_name : string) : bool :=
  negb (negb (strcmp d_name "." =? 0) && negb (strcmp d_name ".." =? 0)).

(** Line 83, the branch taken outside Windows. *)
Definition file_name (dirname d_name : string) : string :=
  dirname +:+ "/" +:+ d_name.

(** Lines 55-104.  [inl msg] is the exception thrown at line 64; it leaves
    every enclosing call.  [files] is the vector passed by reference and
    returned. *)
Fixpoint file_list (dirname : string) (n : node) (files : list string)
  : string + list string :=
  match n with
  | Dir true entries =>
      (fix each (ents : list (string * node)) (files : list string)
         : string + list string :=
         match ents with
         | [] => inr files
         | (d_name, child) :: ents =>
             if ignored d_name then each ents files
             else if is_directory child then
               match file_list (file_name dirname d_name) child files with
               | inl msg => inl msg
               | inr files => each ents files
               end
             else each ents (files ++ [file_name dirname d_name])
         end) entries files
  | Dir false _ | File => inl ("Unknown directory " +:+ dirname)
  end.

(** *** The contract as the specification words it *)

(** The regular files below a directory, depth first, in the order the
    entries are reported. *)
Fixpoint regular_files (dirname : string) (n : node) : list string :=
  match n with
  | File => []
  | Dir _ entries =>
      flat_map (fun e : string * node =>
                  if ignored (fst e) then []
                  else match snd e with
                       | File => [file_name dirname (fst e)]
                       | Dir _ _ => regular_files (file_name dirname (fst e)) (snd e)
                       end) entries
  end.

(** [reaches dirname n p m]: below the directory [n] named [dirname], the
    path [p] names the node [m]. *)
Inductive reaches : string -> node -> string -> node -> Prop :=
| reaches_entry dirname r entries d_name child :
    In (d_name, child) entries -> ignored d_name = false ->
    reaches dirname (Dir r entries) (file_name dirname d_name) child
| reaches_below dirname r entries d_name child p m :
    In (d_name, child) entries -> ignored d_name = false ->
    reaches (file_name dirname d_name) child p m ->
    reaches dirname (Dir r entries) p m.

(** Every directory that the traversal enters can be opened. *)
Fixpoint all_readable (n : node) : bool :=
  match n with
  | File => true
  | Dir r entries =>
      r && forallb (fun e : string * node =>
                      ignored (fst e) || all_readable (snd e)) entries
  end.

Fixpoint has_slash (s : string) : bool :=
  match s with
  | EmptyString => false
  | String c s => Ascii.eqb c "/"%char || has_slash s
  end.

Fixpoint distinct (l : list string) : bool :=
  match l with
  | [] => true
  | x :: l => negb (existsb (String.eqb x) l) && distinct l
  end.

(** Names as a file system has them: no two entries of a directory share
    a name, and no name contains the separator. *)
Fixpoint well_named (n : node) : bool :=
  match n with
  | File => true
  | Dir _ entries =>
      distinct (map fst entries)
      && forallb (fun e : string * node =>
                    negb (has_slash (fst e)) && well_named (snd e)) entries
  end.

(** The loop over the entries (lines 69-101), by itself. *)
Definition each (dirname : string)
  : list (string * node) -> list string -> string + list string :=
  fix each (ents : list (string * node)) (files : list string)
    : string + list string :=
    match ents with
    | [] => inr files
    | (d_name, child) :: ents =>
        if ignored d_name then each ents files
        else if is_directory child then
          match file_list (file_name dirname d_name) child files with
          | inl msg => inl msg
          | inr files => each ents files
          end
        else each ents (files ++ [file_name dirname d_name])
    end.

(** The files of one entry. *)
Definition entry_files (dirname : string) (e : string * node) : list string :=
  if ignored (fst e) then []
  else match snd e with
       | File => [file_name dirname (fst e)]
       | Dir _ _ => regular_files (file_name dirname (fst e)) (snd e)
       end.

(** What may follow a name in a path: nothing, or a separator and more. *)
Definition continues (x : string) : Prop :=
  x = ""%string \/ exists r, x = "/" +:+ r.

(** A tree for examples. *)
Definition photos : node :=
  Dir true
    [("."%string, Dir true []);
     (".."%string, Dir false []);
     ("a.png"%string, File);
     ("trip"%string,
      Dir true [("."%string, Dir true []);
                ("x.jpg"%string, File);
                ("day2"%string, Dir true [("y.jpg"%string, File)]);
                ("notes.txt"%string, File)]);
     ("b.png"%string, File)].

(** A tree with a directory that cannot be read. *)
Definition album : node :=
  Dir true
    [("a.png"%string, File);
     ("private"%string, Dir false [("s.png"%string, File)]);
     ("b.png"%string, File)].

(** Whether [opendir] succeeds on what the path names (line 62): it fails
    on anything that is not a directory and on a directory that cannot be
    read. *)
Definition openable (n : node) : bool :=
  match n with
  | Dir true _ => true
  | Dir false _ | File => false
  end.

(** The entries that line 73 lets through. *)
Definition visible (entries : list (string * node)) : list (string * node) :=
  List.filter (fun e : string * node => negb (ignored (fst e))) entries.

End Enumerator.

(** ** The navigation loop of [main] (browser.cpp) *)

Module Navigation.

(** What a run does to its surroundings, in order. *)
Inductive event : Type :=
| Imread (path : string)              (* cv::imread(path), lines 139 and 148 *)
| Erase (path : string)               (* files.erase(...), line 145 *)
| Frame (i : Z) (path : string) (img : Mat) (image : option Mat).
                                      (* lines 155 and 82-83: index, name,
                                         resolution, scaled frame *)

(** How a run ends. *)
Inductive outcome : Type :=
| Exit (code : Z)        (* main returns *)
| Abort (condition : string)
                         (* an assert fails: the macro hands the text of
                            its argument to the C library, which writes it
                            to the standard error stream and calls abort *)
| Blocked                (* cv::waitKey waits: no key is left in the input *)
| OutOfFuel              (* the bound given to the while loop was too small *)
| Undefined.             (* an index outside the vector *)

(** What lines 139-149 hand to the rest of the loop body. *)
Inductive fetched : Type :=
| Fetched (files : list string) (img : Mat)
| EndOfCatalog (files : list string)   (* return (0), line 147 *)
| NoFuel
| OutOfRange.

(** Where control goes after the key has been looked at. *)
Inductive control : Type :=
| Break
| Continue (i : Z)
| EndOfBody (i : Z).

(** Conversion of an [int] to [uchar] (line 84) and to [size_t] (the
    comparisons of lines 137 and 146). *)
Definition uchar (k : Z) : Z := k mod 256.
Definition to_size_t (i : Z) : Z := i mod 2 ^ 64.

Definition size (files : list string) : Z := Z.of_nat (length files).

(** [files[i]]: defined inside the vector only. *)
Definition at_index (files : list string) (i : Z) : option string :=
  if 0 <=? i then files !! Z.to_nat i else None.

(** [files.erase(files.begin() + i, files.begin() + i + 1)]. *)
Definition erase (files : list string) (i : Z) : option (list string) :=
  if (0 <=? i) && (i <? size files) then Some (delete (Z.to_nat i) files)
  else None.

(** Lines 159-176, [response] being the [uchar] that [display] returned. *)
Definition dispatch (response i : Z) : control :=
  if response =? 113 (* 'q' *) then Break
  else if (response =? 110 (* 'n' *)) || (response =? 32 (* ' ' *)) then
    Continue i
  else if response =? 112 (* 'p' *) then
    if i =? 0 then Continue (i - 1) else Continue (i - 2)
  else EndOfBody i.

Section Run.

(** [cv::imread]: the header of the decoded matrix, empty when the file
    holds no image. *)
Variable imread : string -> Mat.

(** Whether the program was compiled with [NDEBUG] defined, which turns
    [assert] into nothing. *)
Variable NDEBUG : bool.

(** [assert(cond)] stops the program: the condition is false and the
    macro is active.  The C library then reports the failed condition
    and its source line on the standard error stream and calls
    [abort]. *)
Definition assert_fails (cond : bool) : bool :=
  if NDEBUG then false else negb cond.

(** Lines 143-149, entered with [img] read from [files[i]].  [fuel]
    bounds the number of passes. *)
Fixpoint while_empty (fuel : nat) (files : list string) (i : Z) (img : Mat)
    (tr : list event) : list event * fetched :=
  if empty img then
    match fuel with
    | O => (tr, NoFuel)
    | S fuel =>
        match at_index files i, erase files i with
        | Some path, Some files =>
            let tr := tr ++ [Erase path] in
            if to_size_t i =? size files then (tr, EndOfCatalog files)
            else match at_index files i with
                 | Some path =>
                     while_empty fuel files i (imread path)
                                 (tr ++ [Imread path])
                 | None => (tr, OutOfRange)
                 end
        | _, _ => (tr, OutOfRange)
        end
    end
  else (tr, Fetched files img).

(** Lines 139-149. *)
Definition ensure_valid_at (fuel : nat) (files : list string) (i : Z)
    (tr : list event) : list event * fetched :=
  match at_index files i with
  | Some path => while_empty fuel files i (imread path) (tr ++ [Imread path])
  | None => (tr, OutOfRange)
  end.

(** Lines 40-87: the frame shown and the key returned, [key] being what
    [cv::waitKey] returns. *)
Definition display (maxcols maxrows : Z) (img : Mat) (key : Z)
  : option Mat * Z :=
  (Scaler.image maxcols maxrows img, uchar key).

(** Lines 137-177.  Every pass that goes round takes one key. *)
Fixpoint for_loop (maxcols maxrows : Z) (fuel : nat) (keys : list Z)
    (files : list string) (i : Z) (tr : list event)
  : list event * outcome :=
  if to_size_t i <? size files then
    match ensure_valid_at fuel files i tr with
    | (tr, Fetched files img) =>
        if assert_fails (negb (empty img)) then
          (tr, Abort "!img.empty()")                          (* line 151 *)
        else
          match at_index files i with
          | None => (tr, Undefined)
          | Some path =>
              let tr :=
                tr ++ [Frame i path img (Scaler.image maxcols maxrows img)] in
              match keys with
              | [] => (tr, Blocked)
              | key :: keys =>
                  match dispatch (snd (display maxcols maxrows img key)) i with
                  | Break => (tr, Exit 0)        (* lines 179 and 192 *)
                  | Continue i | EndOfBody i =>
                      for_loop maxcols maxrows fuel keys files (i + 1) tr
                  end
              end
          end
    | (tr, EndOfCatalog _) => (tr, Exit 0)
    | (tr, NoFuel) => (tr, OutOfFuel)
    | (tr, OutOfRange) => (tr, Undefined)
    end
  else (tr, Exit 0).

(** The command line as [main] reads it: [opt_rows] and [opt_cols] are
    what [parser.get<uint>] returns for the two options. *)
Record cmdline : Type :=
  { help : bool; dir : string; opt_rows : Z; opt_cols : Z }.

(** Lines 111-112: an [unsigned int] stored into the [int] globals
    [maxrows] and [maxcols].  The value is kept modulo [2^32]; from
    [2^31] on it comes out negative. *)
Definition to_int (u : Z) : Z :=
  let w := u mod 2 ^ 32 in
  if w <? 2 ^ 31 then w else w - 2 ^ 32.

(** Lines 90-193, outside Windows.  [root] is the tree found at [dir]. *)
Definition main (fuel : nat) (args : cmdline) (root : Enumerator.node)
    (keys : list Z) : list event * outcome :=
  if help args || String.eqb (dir args) "" then ([], Exit 1)
  else
    match Enumerator.file_list (dir args) root [] with
    | inl _ => ([], Exit 1)                      (* lines 181-185 *)
    | inr files =>
        if assert_fails (negb (size files =? 0)) then
          ([], Abort "files.size() != 0")        (* line 128 *)
        else
          for_loop (to_int (opt_cols args)) (to_int (opt_rows args))
                   fuel keys files 0 []          (* lines 111-112, 137 *)
    end.

(** The erasures of the while loop that starts at the entry [p]
    followed by [s], and what remains of [p :: s]. *)
Fixpoint erasures (p : string) (s : list string)
  : list event * list string :=
  if empty (imread p) then
    match s with
    | [] => ([Erase p], [])
    | p' :: s' =>
        let (tr, rest) := erasures p' s' in
        (Erase p :: Imread p' :: tr, rest)
    end
  else ([], p :: s).

Definition fetched_of (pre rest : list string) : fetched :=
  match rest with
  | [] => EndOfCatalog pre
  | p :: _ => Fetched (pre ++ rest) (imread p)
  end.

(** No image in the file. *)
Definition undecodable (path : string) : Prop := empty (imread path) = true.

End Run.

(** The indexes printed at line 155, in order. *)
Definition shown (tr : list event) : list Z :=
  flat_map (fun e => match e with Frame i _ _ _ => [i] | _ => [] end) tr.

(** The entries removed, in order, and their number. *)
Definition erased (tr : list event) : list string :=
  flat_map (fun e => match e with Erase path => [path] | _ => [] end) tr.

Definition failures (tr : list event) : nat := length (erased tr).

(** The paths given to [cv::imread], in order, and their number. *)
Definition decoded (tr : list event) : list string :=
  flat_map (fun e => match e with Imread path => [path] | _ => [] end) tr.

Definition attempts (tr : list event) : nat := length (decoded tr).

(** The vector can be indexed by an [int]. *)
Definition indexable (files : list string) : Prop :=
  size files <= Scaler.INT_MAX.

(** The index the loop condition sees after a pass that goes round. *)
Definition next_index (c : control) : option Z :=
  match c with
  | Break => None
  | Continue i | EndOfBody i => Some (i + 1)
  end.

(** The trace of a pass over entries that all fail to decode. *)
Definition failed (paths : list string) : list event :=
  flat_map (fun path => [Imread path; Erase path]) paths.

(** A decoder for examples: names that start with bad hold no image,
    every other file decodes to 640 columns by 480 rows. *)
Definition by_name (path : string) : Mat :=
  if String.prefix "bad" path then mkMat 0 0 else mkMat 480 640.

(** Another decoder for examples: a file decodes when its name holds
    .png. *)
Definition by_extension (path : string) : Mat :=
  match String.index 0 ".png" path with
  | Some _ => mkMat 480 640
  | None => mkMat 0 0
  end.

(** What an event of a run on the catalog [files] may be when nothing goes
    wrong: the decoder is given entries of the catalog only, an entry is
    erased only after it failed to decode, and a frame shows an entry that
    decoded, under an index inside the catalog. *)
Definition event_sound (imread : string -> Mat) (files : list string)
    (e : event) : Prop :=
  match e with
  | Imread path => In path files
  | Erase path => In path files /\ empty (imread path) = true
  | Frame i path img _ =>
      In path files /\ img = imread path /\ empty img = false
      /\ 0 <= i < size files
  end.

(** Each index is at most one step away from the one before it. *)
Fixpoint stepwise (l : list Z) : Prop :=
  match l with
  | a :: (b :: _) as l' => -1 <= b - a <= 1 /\ stepwise l'
  | _ => True
  end.

End Navigation.

(** * Properties *)

(** ** Scaling *)

Module ScalerFacts.
Import Scaler.

(** *** Rounding to 24 bits *)

Lemma digits2_pos_bounds m :
  2 ^ (Zpos (digits2_pos m) - 1) <= Zpos m < 2 ^ Zpos (digits2_pos m).
Proof.
  induction m as [m IH|m IH|]; cbn [digits2_pos].
  - rewrite Pos2Z.inj_succ.
    replace (Z.succ (Z.pos (digits2_pos m)) - 1) with (Z.succ (Z.pos (digits2_pos m) - 1)) by lia.
    rewrite !Z.pow_succ_r by lia. lia.
  - rewrite Pos2Z.inj_succ.
    replace (Z.succ (Z.pos (digits2_pos m)) - 1) with (Z.succ (Z.pos (digits2_pos m) - 1)) by lia.
    rewrite !Z.pow_succ_r by lia. lia.
  - simpl. lia.
Qed.

Lemma digits2_pos_unique m k :
  2 ^ (k - 1) <= Zpos m < 2 ^ k -> Zpos (digits2_pos m) = k.
Proof.
  intros [Hlo Hhi]. pose proof (digits2_pos_bounds m) as [Dlo Dhi].
  set (d := Zpos (digits2_pos m)) in *.
  assert (0 < d) by (unfold d; lia).
  assert (0 < k).
  { destruct (Z.lt_ge_cases 0 k); [assumption|].
    rewrite Z.pow_neg_r in Hhi by lia || (destruct (Z.eq_dec k 0); subst; simpl in *; lia).
    lia. }
  destruct (Z.lt_trichotomy d k) as [L|[E|G]]; [|assumption|].
  - assert (2 ^ d <= 2 ^ (k - 1)) by (apply Z.pow_le_mono_r; lia). lia.
  - assert (2 ^ k <= 2 ^ (d - 1)) by (apply Z.pow_le_mono_r; lia). lia.
Qed.

Lemma shr_1_div mrs :
  0 <= shr_m mrs -> shr_m (shr_1 mrs) = shr_m mrs / 2.
Proof.
  destruct mrs as [m r s]. cbn [shr_m]. intros Hm.
  destruct m as [|[p|p|]|p]; cbn [shr_1 shr_m]; try lia.
  - reflexivity.
  - apply (Z.div_unique _ _ _ 1); lia.
  - apply (Z.div_unique _ _ _ 0); lia.
  - reflexivity.
Qed.

Lemma shr_1_nonneg mrs : 0 <= shr_m mrs -> 0 <= shr_m (shr_1 mrs).
Proof.
  intros H. rewrite shr_1_div by assumption. apply Z.div_pos; lia.
Qed.

Lemma iter_shr_1_div p :
  forall mrs, 0 <= shr_m mrs ->
    shr_m (SpecFloat.iter_pos shr_1 p mrs) = shr_m mrs / 2 ^ Zpos p.
Proof.
  induction p as [p IH|p IH|]; intros mrs Hm; cbn [SpecFloat.iter_pos].
  - assert (H1 : 0 <= shr_m (shr_1 mrs)) by (apply shr_1_nonneg; assumption).
    assert (H2 : 0 <= shr_m (SpecFloat.iter_pos shr_1 p (shr_1 mrs))).
    { rewrite IH by assumption. apply Z.div_pos; [assumption|]. apply Z.pow_pos_nonneg; lia. }
    rewrite IH, IH, shr_1_div by assumption.
    rewrite !Z.div_div by (try apply Z.pow_pos_nonneg; lia).
    f_equal. rewrite (Pos2Z.inj_xI p).
    replace (2 * Z.pos p + 1) with (1 + Z.pos p + Z.pos p) by lia.
    rewrite (Z.pow_add_r 2 (1 + Z.pos p) (Z.pos p)),
      (Z.pow_add_r 2 1 (Z.pos p)) by lia.
    change (2 ^ 1) with 2. lia.
  - assert (H2 : 0 <= shr_m (SpecFloat.iter_pos shr_1 p mrs)).
    { rewrite IH by assumption. apply Z.div_pos; [assumption|]. apply Z.pow_pos_nonneg; lia. }
    rewrite IH, IH by assumption.
    rewrite !Z.div_div by (try apply Z.pow_pos_nonneg; lia).
    f_equal. rewrite (Pos2Z.inj_xO p).
    replace (2 * Z.pos p) with (Z.pos p + Z.pos p) by lia.
    rewrite (Z.pow_add_r 2 (Z.pos p) (Z.pos p)) by lia. reflexivity.
  - rewrite shr_1_div by assumption. reflexivity.
Qed.

Lemma loc_of_shr_record_of_loc m l :
  loc_of_shr_record (shr_record_of_loc m l) = l.
Proof. destruct l as [|[]]; reflexivity. Qed.

Lemma shr_m_of_loc m l : shr_m (shr_record_of_loc m l) = m.
Proof. destruct l as [|[]]; reflexivity. Qed.

Lemma shr_fexp_normal m e l :
  0 < m -> 24 <= Zdigits2 m -> -149 <= e + Zdigits2 m - 24 ->
  exists mrs,
    shr_fexp prec emax m e l = (mrs, e + Zdigits2 m - 24)
    /\ shr_m mrs = m / 2 ^ (Zdigits2 m - 24)
    /\ (Zdigits2 m = 24 -> loc_of_shr_record mrs = l).
Proof.
  intros Hm Hd He. unfold shr_fexp, fexp, emin, prec, emax.
  rewrite Z.max_l by lia.
  replace (Zdigits2 m + e - 24 - e) with (Zdigits2 m - 24) by lia.
  destruct (Zdigits2 m - 24) as [|p|p] eqn:En; try lia.
  - exists (shr_record_of_loc m l). cbn [shr]. split; [f_equal; lia|split].
    + rewrite shr_m_of_loc. simpl. symmetry. apply Z.div_1_r.
    + intros _. apply loc_of_shr_record_of_loc.
  - exists (SpecFloat.iter_pos shr_1 p (shr_record_of_loc m l)). cbn [shr].
    split; [f_equal; lia|split].
    + rewrite iter_shr_1_div; rewrite shr_m_of_loc; [reflexivity|lia].
    + intros E. lia.
Qed.

Lemma round_nearest_even_cases m l :
  round_nearest_even m l = m \/ round_nearest_even m l = m + 1.
Proof.
  unfold round_nearest_even. destruct l as [|[]]; auto.
  destruct (Z.even m); auto.
Qed.

Lemma binary_round_aux_normal s m e l :
  let d := Zpos (digits2_pos m) in
  let T := Zpos m / 2 ^ (d - 24) in
  let E := e + d - 24 in
  24 <= d -> -149 <= E -> E + 1 <= 104 ->
  exists m' e',
    binary_round_aux prec emax s (Zpos m) e l = S754_finite s m' e'
    /\ Zpos (digits2_pos m') = 24
    /\ -149 <= e' <= 104
    /\ E <= e' <= E + 1
    /\ (scaled m' e' = T * 2 ^ (E + 149) \/ scaled m' e' = (T + 1) * 2 ^ (E + 149))
    /\ (d = 24 -> l = loc_Exact -> m' = m /\ e' = e).
Proof.
  intros d T E Hd HE HE'.
  pose proof (digits2_pos_bounds m) as [Dlo Dhi]. fold d in Dlo, Dhi.
  assert (HT : 2 ^ 23 <= T < 2 ^ 24).
  { unfold T. split.
    - apply Z.div_le_lower_bound; [apply Z.pow_pos_nonneg; lia|].
      rewrite <- Z.pow_add_r by lia. replace (d - 24 + 23) with (d - 1) by lia. exact Dlo.
    - apply Z.div_lt_upper_bound; [apply Z.pow_pos_nonneg; lia|].
      rewrite <- Z.pow_add_r by lia. replace (d - 24 + 24) with d by lia. exact Dhi. }
  unfold binary_round_aux.
  destruct (shr_fexp_normal (Zpos m) e l) as (mrs & -> & Hmrs & Hloc);
    try (cbn [Zdigits2]; fold d; lia).
  cbn [Zdigits2] in *. fold d in Hmrs, Hloc |- *. fold T in Hmrs. fold E.
  rewrite Hmrs.
  set (m1 := round_nearest_even T (loc_of_shr_record mrs)).
  assert (Hm1 : m1 = T \/ m1 = T + 1) by apply round_nearest_even_cases.
  assert (Hm1pos : 0 < m1) by lia.
  destruct (Z.lt_ge_cases m1 (2 ^ 24)) as [Hlt|Hge].
  - (* no overflow of the mantissa *)
    destruct m1 as [|p1|p1] eqn:Em1; try lia.
    assert (Hd1 : Zpos (digits2_pos p1) = 24) by (apply digits2_pos_unique; simpl; lia).
    destruct (shr_fexp_normal (Zpos p1) E loc_Exact) as (mrs2 & -> & Hmrs2 & _);
      try (cbn [Zdigits2]; lia).
    cbn [Zdigits2] in *. rewrite Hd1 in *.
    replace (E + 24 - 24) with E by lia.
    rewrite Hmrs2. change (2 ^ (24 - 24)) with 1. rewrite Z.div_1_r.
    unfold emax, prec. destruct (Z.leb_spec E (128 - 24)); [|lia].
    exists p1, E. split; [reflexivity|split; [exact Hd1|split; [lia|split; [lia|split]]]].
    + unfold scaled. destruct Hm1 as [<-|<-]; auto.
    + intros E24 El. subst m1.
      assert (p1 = m); [|subst; split; [reflexivity|lia]].
      rewrite (Hloc E24), El in Em1. cbn [round_nearest_even] in Em1.
      unfold T in Em1. rewrite E24 in Em1. change (2 ^ (24 - 24)) with 1 in Em1.
      rewrite Z.div_1_r in Em1. congruence.
  - (* the mantissa reaches 2^24 *)
    assert (Em1 : m1 = 2 ^ 24) by lia.
    assert (HT1 : T + 1 = 2 ^ 24) by lia.
    rewrite Em1. change (2 ^ 24) with (Zpos (2 ^ 24)%positive) at 1.
    assert (Hd25 : Zdigits2 (Zpos (2 ^ 24)%positive) = 25) by reflexivity.
    destruct (shr_fexp_normal (Zpos (2 ^ 24)%positive) E loc_Exact)
      as (mrs2 & -> & Hmrs2 & _); rewrite ?Hd25; try lia.
    rewrite Hd25 in Hmrs2.
    replace (E + 25 - 24) with (E + 1) by lia.
    rewrite Hmrs2. change (Z.pos (2 ^ 24) / 2 ^ (25 - 24)) with (Zpos (2 ^ 23)%positive).
    unfold emax, prec. destruct (Z.leb_spec (E + 1) (128 - 24)); [|lia].
    exists (2 ^ 23)%positive, (E + 1).
    split; [reflexivity|split; [reflexivity|split; [lia|split; [lia|split]]]].
    + right. unfold scaled. rewrite HT1.
      replace (E + 1 + 149) with (1 + (E + 149)) by lia.
      rewrite Z.pow_add_r by lia. change (2 ^ 1) with 2.
      change (Z.pos (2 ^ 23)) with (2 ^ 23). change (2 ^ 24) with (2 * 2 ^ 23). lia.
    + intros E24 El. exfalso.
      unfold m1 in Em1. rewrite (Hloc E24), El in Em1.
      cbn [round_nearest_even] in Em1. lia.
Qed.

Lemma pow2_pos k : 0 < 2 ^ k \/ k < 0.
Proof.
  destruct (Z.lt_ge_cases k 0); [right; assumption|left].
  apply Z.pow_pos_nonneg; lia.
Qed.

Lemma pow2_split a b : 0 <= a -> 0 <= b -> 2 ^ (a + b) = 2 ^ a * 2 ^ b.
Proof. intros. apply Z.pow_add_r; assumption. Qed.

Lemma shift_pos_value k p : Zpos (Pos.iter xO p k) = Zpos p * 2 ^ Zpos k.
Proof.
  change (Pos.iter xO p k) with (shift_pos k p).
  rewrite shift_pos_correct. change (Z.pow_pos 2 k) with (2 ^ Zpos k). lia.
Qed.

(** [static_cast<float>] of a positive integer below 2^24 is exact. *)
Lemma binary_normalize_exact n :
  0 < n < 2 ^ 24 ->
  exists m e,
    binary_normalize prec emax n 0 false = S754_finite false m e
    /\ Zpos (digits2_pos m) = 24
    /\ -23 <= e <= 0
    /\ scaled m e = n * 2 ^ 149.
Proof.
  intros [Hlo Hhi]. destruct n as [|p|p]; try lia.
  pose proof (digits2_pos_bounds p) as [Dlo Dhi].
  set (d := Zpos (digits2_pos p)) in *.
  assert (Hd : 1 <= d <= 24).
  { split; [unfold d; lia|].
    destruct (Z.le_gt_cases d 24); [assumption|].
    assert (2 ^ 24 <= 2 ^ (d - 1)) by (apply Z.pow_le_mono_r; lia). lia. }
  cbn [binary_normalize]. unfold binary_round, fexp, emin. fold d.
  rewrite Z.max_l by (unfold prec, emax; lia). unfold shl_align.
  replace (d + 0 - prec - 0) with (d - 24) by (unfold prec; lia).
  destruct (d - 24) as [|k|k] eqn:Ek; try lia.
  - (* 24 digits already *)
    destruct (binary_round_aux_normal false p 0 loc_Exact)
      as (m' & e' & -> & Hd' & He' & _ & _ & Hex); fold d; try lia.
    destruct Hex as [-> ->]; [lia|reflexivity|].
    exists p, 0. repeat split; try (fold d; lia).
  - (* fewer digits: the mantissa is shifted left *)
    set (mz := Pos.iter xO p k).
    assert (Hmz : Zpos mz = Zpos p * 2 ^ Zpos k) by apply shift_pos_value.
    assert (Hk : Zpos k = 24 - d) by lia.
    assert (Hdz : Zpos (digits2_pos mz) = 24).
    { apply digits2_pos_unique. rewrite Hmz, Hk. split.
      - replace (24 - 1) with ((d - 1) + (24 - d)) by lia.
        rewrite pow2_split by lia. apply Z.mul_le_mono_nonneg_r; [|exact Dlo].
        apply Z.pow_nonneg; lia.
      - replace 24 with (d + (24 - d)) at 2 by lia.
        rewrite pow2_split by lia. apply Z.mul_lt_mono_pos_r; [|exact Dhi].
        apply Z.pow_pos_nonneg; lia. }
    replace (d + 0 - prec) with (d - 24) by (unfold prec; lia).
    destruct (binary_round_aux_normal false mz (d - 24) loc_Exact)
      as (m' & e' & -> & Hd' & He' & _ & _ & Hex); rewrite ?Hdz; try lia.
    destruct Hex as [-> ->]; [exact Hdz|reflexivity|].
    exists mz, (d - 24). repeat split; try lia.
    unfold scaled. rewrite Hmz, Hk.
    replace 149 with ((24 - d) + (d - 24 + 149)) at 2 by lia.
    rewrite (pow2_split (24 - d)) by lia. lia.
Qed.

Lemma normal_bounds m : Zpos (digits2_pos m) = 24 -> 2 ^ 23 <= Zpos m < 2 ^ 24.
Proof.
  intros H. pose proof (digits2_pos_bounds m) as B. rewrite H in B. exact B.
Qed.

Lemma SFdiv_normal ma ea mb eb :
  Zpos (digits2_pos ma) = 24 -> Zpos (digits2_pos mb) = 24 ->
  -125 <= ea - eb <= 126 -> -149 <= ea -> -149 <= eb ->
  exists m e E T,
    SFdiv prec emax (S754_finite false ma ea) (S754_finite false mb eb)
    = S754_finite false m e
    /\ Zpos (digits2_pos m) = 24
    /\ -149 <= e <= 104
    /\ ea - eb - 24 <= E <= ea - eb - 23
    /\ E <= e <= E + 1
    /\ 2 ^ 23 <= T
    /\ (scaled m e = T * 2 ^ (E + 149) \/ scaled m e = (T + 1) * 2 ^ (E + 149))
    /\ T * 2 ^ (E + 149) * scaled mb eb <= scaled ma ea * 2 ^ 149
       < (T + 1) * 2 ^ (E + 149) * scaled mb eb.
Proof.
  intros Hda Hdb He Hea Heb.
  pose proof (normal_bounds ma Hda) as [Alo Ahi].
  pose proof (normal_bounds mb Hdb) as [Blo Bhi].
  change (2 ^ 23) with 8388608 in *. change (2 ^ 24) with 16777216 in *.
  cbn [SFdiv xorb]. unfold SFdiv_core_binary. cbn [Zdigits2].
  rewrite Hda, Hdb. unfold fexp, emin.
  replace (Z.max (24 + ea - (24 + eb) - prec) (3 - emax - prec))
    with (ea - eb - 24) by (unfold prec, emax; lia).
  rewrite Z.min_l by lia.
  replace (ea - eb - (ea - eb - 24)) with 24 by lia.
  rewrite Z.shiftl_mul_pow2 by lia. change (2 ^ 24) with 16777216.
  destruct (Z.div_eucl (Zpos ma * 16777216) (Zpos mb)) as [q r] eqn:Eqr.
  assert (Hq : q = Zpos ma * 16777216 / Zpos mb)
    by (unfold Z.div; rewrite Eqr; reflexivity).
  pose proof (Z.mul_div_le (Zpos ma * 16777216) (Zpos mb) eq_refl) as Q1.
  pose proof (Z.mul_succ_div_gt (Zpos ma * 16777216) (Zpos mb) eq_refl) as Q2.
  rewrite <- Hq in Q1, Q2.
  assert (Hqlo : 8388608 <= q).
  { rewrite Hq. apply Z.div_le_lower_bound; clear - Alo Ahi Blo Bhi; lia. }
  assert (Hqhi : q < 33554432).
  { rewrite Hq. apply Z.div_lt_upper_bound; clear - Alo Ahi Blo Bhi; lia. }
  destruct q as [|pq|pq]; try lia.
  set (d := Zpos (digits2_pos pq)).
  assert (Hd : (d = 24 /\ Zpos pq < 16777216) \/ (d = 25 /\ 16777216 <= Zpos pq)).
  { destruct (Z.lt_ge_cases (Zpos pq) 16777216).
    - left. split; [|assumption]. apply digits2_pos_unique. simpl. lia.
    - right. split; [|assumption]. apply digits2_pos_unique. simpl. lia. }
  destruct (binary_round_aux_normal false pq (ea - eb - 24) (new_location (Zpos mb) r))
    as (m' & e' & -> & Hd' & He' & HeE & Hsc & _); fold d; try lia.
  fold d in Hsc.
  set (T := Zpos pq / 2 ^ (d - 24)) in *.
  set (E := ea - eb - 24 + d - 24) in *.
  assert (HT : T * 2 ^ (d - 24) <= Zpos pq < (T + 1) * 2 ^ (d - 24)).
  { unfold T. destruct Hd as [[-> ?] | [-> ?]].
    - change (2 ^ (24 - 24)) with 1. rewrite Z.div_1_r. lia.
    - change (2 ^ (25 - 24)) with 2.
      pose proof (Z.mul_div_le (Zpos pq) 2 eq_refl).
      pose proof (Z.mul_succ_div_gt (Zpos pq) 2 eq_refl). lia. }
  exists m', e', E, T.
  split; [reflexivity|split; [exact Hd'|split; [exact He'|split; [unfold E; lia|split; [exact HeE|]]]]].
  split.
  { unfold T. destruct Hd as [[-> ?] | [-> ?]].
    - change (2 ^ (24 - 24)) with 1. rewrite Z.div_1_r. lia.
    - change (2 ^ (25 - 24)) with 2.
      apply Z.div_le_lower_bound; lia. }
  split; [exact Hsc|].
  unfold scaled.
  set (W := 2 ^ (ea + 274)).
  assert (HW : 0 < W) by (apply Z.pow_pos_nonneg; lia).
  assert (E1 : 2 ^ (E + 149) * 2 ^ (eb + 149) = 2 ^ (d - 24) * W).
  { unfold W, E. rewrite <- !Z.pow_add_r by lia. f_equal. lia. }
  assert (E2 : 2 ^ (ea + 149) * 2 ^ 149 = 16777216 * W).
  { unfold W. change 16777216 with (2 ^ 24).
    rewrite <- !Z.pow_add_r by lia. f_equal. lia. }
  replace (T * 2 ^ (E + 149) * (Zpos mb * 2 ^ (eb + 149)))
    with (T * 2 ^ (d - 24) * Zpos mb * W).
  2:{ transitivity (T * Zpos mb * (2 ^ (d - 24) * W)); [ring|].
      rewrite <- E1. ring. }
  replace ((T + 1) * 2 ^ (E + 149) * (Zpos mb * 2 ^ (eb + 149)))
    with ((T + 1) * 2 ^ (d - 24) * Zpos mb * W).
  2:{ transitivity ((T + 1) * Zpos mb * (2 ^ (d - 24) * W)); [ring|].
      rewrite <- E1. ring. }
  replace (Zpos ma * 2 ^ (ea + 149) * 2 ^ 149) with (Zpos ma * 16777216 * W).
  2:{ transitivity (Zpos ma * (16777216 * W)); [ring|]. rewrite <- E2. ring. }
  split.
  - apply Z.mul_le_mono_nonneg_r; [lia|]. nia.
  - apply Z.mul_lt_mono_pos_r; [lia|]. nia.
Qed.

Lemma SFmul_normal ma ea mb eb :
  Zpos (digits2_pos ma) = 24 -> Zpos (digits2_pos mb) = 24 ->
  -172 <= ea + eb <= 79 -> -149 <= ea -> -149 <= eb ->
  exists m e E T,
    SFmul prec emax (S754_finite false ma ea) (S754_finite false mb eb)
    = S754_finite false m e
    /\ Zpos (digits2_pos m) = 24
    /\ -149 <= e <= 104
    /\ ea + eb + 23 <= E <= ea + eb + 24
    /\ E <= e <= E + 1
    /\ 2 ^ 23 <= T
    /\ (scaled m e = T * 2 ^ (E + 149) \/ scaled m e = (T + 1) * 2 ^ (E + 149))
    /\ T * 2 ^ (E + 149) * 2 ^ 149 <= scaled ma ea * scaled mb eb
       < (T + 1) * 2 ^ (E + 149) * 2 ^ 149.
Proof.
  intros Hda Hdb He Hea Heb.
  pose proof (normal_bounds ma Hda) as [Alo Ahi].
  pose proof (normal_bounds mb Hdb) as [Blo Bhi].
  cbn [SFmul xorb].
  set (d := Zpos (digits2_pos (ma * mb))).
  assert (Hprod : 2 ^ 46 <= Zpos (ma * mb) < 2 ^ 48).
  { rewrite Pos2Z.inj_mul.
    change (2 ^ 46) with (2 ^ 23 * 2 ^ 23). change (2 ^ 48) with (2 ^ 24 * 2 ^ 24).
    split.
    - apply Z.mul_le_mono_nonneg; lia.
    - apply Z.mul_lt_mono_nonneg; lia. }
  assert (Hd : d = 47 \/ d = 48).
  { destruct (Z.lt_ge_cases (Zpos (ma * mb)) (2 ^ 47)).
    - left. apply digits2_pos_unique. change (47 - 1) with 46. lia.
    - right. apply digits2_pos_unique. change (48 - 1) with 47. lia. }
  destruct (binary_round_aux_normal false (ma * mb) (ea + eb) loc_Exact)
    as (m' & e' & -> & Hd' & He' & HeE & Hsc & _); fold d; try lia.
  fold d in Hsc.
  set (T := Zpos (ma * mb) / 2 ^ (d - 24)) in *.
  set (E := ea + eb + d - 24) in *.
  assert (Hpow : 0 < 2 ^ (d - 24)) by (apply Z.pow_pos_nonneg; lia).
  assert (HT : T * 2 ^ (d - 24) <= Zpos (ma * mb) < (T + 1) * 2 ^ (d - 24)).
  { unfold T.
    pose proof (Z.mul_div_le (Zpos (ma * mb)) _ Hpow).
    pose proof (Z.mul_succ_div_gt (Zpos (ma * mb)) _ Hpow). lia. }
  exists m', e', E, T.
  split; [reflexivity|split; [exact Hd'|split; [exact He'|split; [unfold E; lia|split; [exact HeE|]]]]].
  split.
  { unfold T. apply Z.div_le_lower_bound; [exact Hpow|].
    rewrite <- Z.pow_add_r by lia.
    replace (d - 24 + 23) with (d - 1) by lia.
    apply (digits2_pos_bounds (ma * mb)). }
  split; [exact Hsc|].
  unfold scaled.
  set (W := 2 ^ (ea + eb + 298)).
  assert (HW : 0 < W) by (apply Z.pow_pos_nonneg; lia).
  assert (E1 : 2 ^ (E + 149) * 2 ^ 149 = 2 ^ (d - 24) * W).
  { unfold W, E. rewrite <- !Z.pow_add_r by lia. f_equal. lia. }
  assert (E2 : 2 ^ (ea + 149) * 2 ^ (eb + 149) = W).
  { unfold W. rewrite <- !Z.pow_add_r by lia. f_equal. lia. }
  replace (T * 2 ^ (E + 149) * 2 ^ 149) with (T * 2 ^ (d - 24) * W).
  2:{ transitivity (T * (2 ^ (d - 24) * W)); [ring|]. rewrite <- E1. ring. }
  replace ((T + 1) * 2 ^ (E + 149) * 2 ^ 149) with ((T + 1) * 2 ^ (d - 24) * W).
  2:{ transitivity ((T + 1) * (2 ^ (d - 24) * W)); [ring|]. rewrite <- E1. ring. }
  replace (Zpos ma * 2 ^ (ea + 149) * (Zpos mb * 2 ^ (eb + 149)))
    with (Zpos (ma * mb) * W).
  2:{ rewrite Pos2Z.inj_mul, <- E2. ring. }
  split.
  - apply Z.mul_le_mono_nonneg_r; lia.
  - apply Z.mul_lt_mono_pos_r; lia.
Qed.

(** Comparison of normal positive numbers follows their values. *)
Lemma SFltb_normal ma ea mb eb :
  Zpos (digits2_pos ma) = 24 -> Zpos (digits2_pos mb) = 24 ->
  -149 <= ea -> -149 <= eb ->
  SFltb (S754_finite false ma ea) (S754_finite false mb eb) = true
  <-> scaled ma ea < scaled mb eb.
Proof.
  intros Hda Hdb Hea Heb.
  pose proof (normal_bounds ma Hda) as [Alo Ahi].
  pose proof (normal_bounds mb Hdb) as [Blo Bhi].
  unfold SFltb, SFcompare, scaled.
  assert (Hstep : forall m1 e1 m2 e2,
             2 ^ 23 <= m1 < 2 ^ 24 -> 2 ^ 23 <= m2 < 2 ^ 24 ->
             -149 <= e1 -> e1 < e2 ->
             m1 * 2 ^ (e1 + 149) < m2 * 2 ^ (e2 + 149)).
  { intros m1 e1 m2 e2 H1 H2 He1 Hlt.
    replace (e2 + 149) with ((e2 - e1 - 1) + 1 + (e1 + 149)) by lia.
    rewrite (Z.pow_add_r 2 (e2 - e1 - 1 + 1) (e1 + 149)),
      (Z.pow_add_r 2 (e2 - e1 - 1) 1) by lia.
    change (2 ^ 1) with 2.
    set (P := 2 ^ (e1 + 149)). set (Q := 2 ^ (e2 - e1 - 1)).
    assert (HP : 0 < P) by (apply Z.pow_pos_nonneg; lia).
    assert (HQ : 1 <= Q) by (apply (Z.pow_le_mono_r 2 0); lia).
    change (2 ^ 23) with 8388608 in *. change (2 ^ 24) with 16777216 in *.
    assert (m1 * P < 16777216 * P) by (apply Z.mul_lt_mono_pos_r; lia).
    assert (8388608 <= m2 * Q) by nia.
    assert (16777216 * P <= m2 * Q * 2 * P)
      by (apply Z.mul_le_mono_nonneg_r; lia).
    replace (m2 * (Q * 2 * P)) with (m2 * Q * 2 * P) by ring. lia. }
  destruct (Z.compare_spec ea eb) as [->|Hlt|Hgt].
  - rewrite Pos.compare_cont_spec. cbn [Pos.switch_Eq].
    assert (0 < 2 ^ (eb + 149)) by (apply Z.pow_pos_nonneg; lia).
    destruct (Pos.compare_spec ma mb) as [->|H1|H1]; split; intros H2;
      try discriminate; try reflexivity; try lia.
    + apply Z.mul_lt_mono_pos_r; [assumption|]. apply Pos2Z.pos_lt_pos, H1.
    + exfalso. apply Pos2Z.pos_lt_pos in H1.
      apply (Z.mul_lt_mono_pos_r (2 ^ (eb + 149))) in H1; [lia|assumption].
  - split; [intros _|reflexivity]. apply Hstep; lia.
  - split; [discriminate|]. intros H. exfalso.
    pose proof (Hstep (Zpos mb) eb (Zpos ma) ea). lia.
Qed.

Lemma shiftl_scaled m e :
  -149 <= e -> Z.shiftl (Zpos m) e = scaled m e / 2 ^ 149.
Proof.
  intros He. unfold scaled. destruct (Z.le_gt_cases 0 e).
  - rewrite Z.shiftl_mul_pow2 by lia. rewrite Z.pow_add_r by lia.
    rewrite Z.mul_assoc, Z.div_mul; [reflexivity|]. apply Z.pow_nonzero; lia.
  - rewrite Z.shiftl_div_pow2 by lia.
    replace 149 with (- e + (e + 149)) at 2 by lia.
    rewrite (Z.pow_add_r 2 (- e) (e + 149)) by lia.
    rewrite Z.div_mul_cancel_r; [reflexivity| |]; apply Z.pow_nonzero; lia.
Qed.

Lemma float_of_int_normal n :
  0 < n < 2 ^ 24 ->
  normal (float_of_int n) /\ sc (float_of_int n) = n * K
  /\ -23 <= expo (float_of_int n) <= 0.
Proof.
  intros Hn. destruct (binary_normalize_exact n Hn) as (m & e & E & Hd & He & Hs).
  unfold float_of_int. rewrite E. cbn [normal sc expo]. repeat split; try lia; assumption.
Qed.

Lemma fdiv_normal a b :
  normal a -> normal b -> -125 <= expo a - expo b <= 126 ->
  normal (fdiv a b)
  /\ exists E T,
       expo a - expo b - 24 <= E <= expo a - expo b - 23
       /\ E <= expo (fdiv a b) <= E + 1
       /\ brackets (fdiv a b) (T * 2 ^ (E + 149)) (2 ^ (E + 149))
       /\ T * 2 ^ (E + 149) * sc b <= sc a * K < (T + 1) * 2 ^ (E + 149) * sc b.
Proof.
  destruct a as [| | |[] ma ea]; try contradiction.
  destruct b as [| | |[] mb eb]; try contradiction.
  cbn [normal expo sc]. intros [Hda Hea] [Hdb Heb] He. unfold fdiv.
  destruct (SFdiv_normal ma ea mb eb) as (m & e & E & T & -> & Hd & Hr & HE & HeE & HT & Hs & Hb);
    try lia.
  cbn [normal expo sc]. split; [auto|]. exists E, T.
  assert (0 < 2 ^ (E + 149)) by (apply Z.pow_pos_nonneg; lia).
  split; [lia|split; [lia|split; [|exact Hb]]].
  unfold brackets. cbn [sc]. split; [assumption|split].
  - apply Z.mul_le_mono_nonneg_r; lia.
  - destruct Hs as [->| ->]; [left|right]; ring.
Qed.

Lemma fmul_normal a b :
  normal a -> normal b -> -172 <= expo a + expo b <= 79 ->
  normal (fmul a b)
  /\ exists E T,
       expo a + expo b + 23 <= E <= expo a + expo b + 24
       /\ E <= expo (fmul a b) <= E + 1
       /\ brackets (fmul a b) (T * 2 ^ (E + 149)) (2 ^ (E + 149))
       /\ T * 2 ^ (E + 149) * K <= sc a * sc b < (T + 1) * 2 ^ (E + 149) * K.
Proof.
  destruct a as [| | |[] ma ea]; try contradiction.
  destruct b as [| | |[] mb eb]; try contradiction.
  cbn [normal expo sc]. intros [Hda Hea] [Hdb Heb] He. unfold fmul.
  destruct (SFmul_normal ma ea mb eb) as (m & e & E & T & -> & Hd & Hr & HE & HeE & HT & Hs & Hb);
    try lia.
  cbn [normal expo sc]. split; [auto|]. exists E, T.
  assert (0 < 2 ^ (E + 149)) by (apply Z.pow_pos_nonneg; lia).
  split; [lia|split; [lia|split; [|exact Hb]]].
  unfold brackets. cbn [sc]. split; [assumption|split].
  - apply Z.mul_le_mono_nonneg_r; lia.
  - destruct Hs as [->| ->]; [left|right]; ring.
Qed.

Lemma SFltb_sc a b :
  normal a -> normal b -> (SFltb a b = true <-> sc a < sc b).
Proof.
  destruct a as [| | |[] ma ea]; try contradiction.
  destruct b as [| | |[] mb eb]; try contradiction.
  cbn [normal sc]. intros [Hda Hea] [Hdb Heb]. apply SFltb_normal; lia.
Qed.

Lemma sc_pos f : normal f -> 0 < sc f.
Proof.
  destruct f as [| | |[] m e]; try contradiction. cbn [normal sc]. intros [_ He].
  unfold scaled. apply Z.mul_pos_pos; [lia|]. apply Z.pow_pos_nonneg; lia.
Qed.

Lemma K_pos : 0 < K.
Proof. reflexivity. Qed.

Lemma brackets_upper f V U : brackets f V U -> 2 ^ 23 * sc f <= (2 ^ 23 + 1) * V.
Proof. intros (HU & HV & [-> | ->]); lia. Qed.

Lemma brackets_lower f V U : brackets f V U -> V <= sc f.
Proof. intros (HU & HV & [-> | ->]); lia. Qed.

(** The product of a ratio that is at most about [R / r] with [r] stays
    below [R + 1]. *)
Lemma fit_arith P V S S2 V2 r R :
  0 < r -> 0 < R < 2 ^ 22 ->
  2 ^ 23 * P <= (2 ^ 23 + 1) * V -> V <= S * r -> S <= S2 ->
  2 ^ 23 * S2 <= (2 ^ 23 + 1) * V2 -> V2 * r <= R * K ->
  P < (R + 1) * K.
Proof.
  intros Hr HR HP HV HS HS2 HV2.
  change (2 ^ 23) with 8388608 in *. change (2 ^ 22) with 4194304 in *.
  pose proof K_pos as HK.
  assert (H1 : S * r <= S2 * r) by (apply Z.mul_le_mono_nonneg_r; lia).
  assert (H2 : 8388608 * (S2 * r) <= 8388609 * (V2 * r)).
  { replace (8388608 * (S2 * r)) with (8388608 * S2 * r) by ring.
    replace (8388609 * (V2 * r)) with (8388609 * V2 * r) by ring.
    apply Z.mul_le_mono_nonneg_r; lia. }
  assert (H3 : R * K <= 4194303 * K) by (apply Z.mul_le_mono_nonneg_r; lia).
  replace ((R + 1) * K) with (R * K + K) by ring.
  lia.
Qed.

(** A quotient of a larger by a smaller integer is above one. *)
Lemma above_one_arith V E c C :
  0 < c < C -> c <= 2 ^ 22 -> -149 <= E ->
  2 ^ 23 * 2 ^ (E + 149) <= V ->
  C * K < (V + 2 ^ (E + 149)) * c ->
  K < V.
Proof.
  intros Hc Hc' HE HV Hq.
  destruct (Z.le_gt_cases (E + 149) 127) as [Hs|Hl].
  - assert (HU : 2 ^ (E + 149) <= 2 ^ 127) by (apply Z.pow_le_mono_r; lia).
    assert (HUc : 2 ^ (E + 149) * c <= 2 ^ 127 * 2 ^ 22)
      by (apply Z.mul_le_mono_nonneg; try lia; apply Z.pow_nonneg; lia).
    change (2 ^ 127 * 2 ^ 22) with K in HUc.
    assert (HC : (c + 1) * K <= C * K) by (apply Z.mul_le_mono_nonneg_r; [apply Z.lt_le_incl, K_pos|lia]).
    assert (Hlt : c * K < V * c) by lia.
    destruct (Z.le_gt_cases V K) as [Hle|]; [|assumption].
    assert (V * c <= K * c) by (apply Z.mul_le_mono_nonneg_r; lia). lia.
  - assert (HU : 2 ^ 128 <= 2 ^ (E + 149)) by (apply Z.pow_le_mono_r; lia).
    assert (2 ^ 23 * 2 ^ 128 <= V) by lia.
    assert (K < 2 ^ 23 * 2 ^ 128) by reflexivity. lia.
Qed.

(** Multiplying a number that is at least one by [r] gives at least [r]. *)
Lemma product_lower_arith V T E mr er S r :
  2 ^ 23 <= Zpos mr < 2 ^ 24 -> -149 <= er -> -149 <= E ->
  r * K = Zpos mr * 2 ^ (er + 149) -> 0 < r ->
  K <= S ->
  V = T * 2 ^ (E + 149) -> 2 ^ 23 <= T ->
  S * r < (T + 1) * 2 ^ (E + 149) ->
  r * K <= V.
Proof.
  intros Hm Her HE Hr Hr0 HS -> HT Hub.
  assert (HU : 0 < 2 ^ (E + 149)) by (apply Z.pow_pos_nonneg; lia).
  destruct (Z.le_gt_cases E er) as [Hle|Hgt].
  - (* the unit of the product divides r * K *)
    assert (Hj : r * K = Zpos mr * 2 ^ (er - E) * 2 ^ (E + 149)).
    { rewrite Hr, <- Z.mul_assoc, <- Z.pow_add_r by lia. do 2 f_equal. lia. }
    set (j := Zpos mr * 2 ^ (er - E)) in *.
    assert (K * r <= S * r) by (apply Z.mul_le_mono_nonneg_r; lia).
    assert (j * 2 ^ (E + 149) < (T + 1) * 2 ^ (E + 149)) by lia.
    assert (j < T + 1) by (apply (Z.mul_lt_mono_pos_r (2 ^ (E + 149))); assumption).
    rewrite Hj. apply Z.mul_le_mono_nonneg_r; lia.
  - rewrite Hr.
    assert (2 ^ (er + 150) <= 2 ^ (E + 149)) by (apply Z.pow_le_mono_r; lia).
    replace (er + 150) with (1 + (er + 149)) in * by lia.
    rewrite Z.pow_add_r in * by lia. change (2 ^ 1) with 2 in *.
    assert (0 < 2 ^ (er + 149)) by (apply Z.pow_pos_nonneg; lia).
    change (2 ^ 23) with 8388608 in *. change (2 ^ 24) with 16777216 in *.
    assert (Zpos mr * 2 ^ (er + 149) <= 16777216 * 2 ^ (er + 149))
      by (apply Z.mul_le_mono_nonneg_r; lia).
    assert (8388608 * 2 ^ (E + 149) <= T * 2 ^ (E + 149))
      by (apply Z.mul_le_mono_nonneg_r; lia).
    lia.
Qed.

(** *** Values as rationals *)

Lemma two_power_Q e : (0 <= e) -> (2 ^ e == inject_Z (2 ^ e))%Q.
Proof. intros He. symmetry. apply (Zpower_Qpower 2 e He). Qed.

(** Shifting a mantissa is taking the integer part of its value. *)
Lemma Qfloor_shift m e :
  Qfloor (inject_Z (Zpos m) * 2 ^ e) = Z.shiftl (Zpos m) e.
Proof.
  destruct (Z.le_gt_cases 0 e) as [He|He].
  - rewrite Z.shiftl_mul_pow2 by assumption.
    rewrite (Qfloor_comp _ (inject_Z (Zpos m * 2 ^ e))); [apply Qfloor_Z|].
    rewrite inject_Z_mult, (two_power_Q e He). reflexivity.
  - rewrite Z.shiftl_div_pow2 by lia. rewrite Zdiv_Qdiv.
    apply Qfloor_comp. unfold Qdiv.
    rewrite <- (two_power_Q (- e)) by lia.
    rewrite Qpower_opp, Qinv_involutive. reflexivity.
Qed.

Lemma mantissa_value_pos m e : (0 < inject_Z (Zpos m) * 2 ^ e)%Q.
Proof.
  apply Qmult_lt_0_compat; [reflexivity|]. apply Qpower_0_lt. reflexivity.
Qed.

(** [static_cast<int>] is truncation toward zero of the value. *)
Lemma int_of_float_trunc f q :
  float_value f = Some q -> in_int_range (Qtrunc q) ->
  int_of_float f = Some (Qtrunc q).
Proof.
  destruct f as [s| |  |s m e]; try discriminate.
  - intros [= <-] _. reflexivity.
  - intros [= <-]. unfold in_int_range, int_of_float.
    assert (E : Qtrunc (inject_Z (cond_Zopp s (Zpos m)) * 2 ^ e)
                = cond_Zopp s (Z.shiftl (Zpos m) e)).
    { pose proof (mantissa_value_pos m e) as Hpos.
      assert (Hneg : (inject_Z (Z.neg m) * 2 ^ e
                      == - (inject_Z (Z.pos m) * 2 ^ e))%Q)
        by (change (inject_Z (Z.neg m)) with (- inject_Z (Z.pos m))%Q; ring).
      unfold Qtrunc.
      destruct s;
        [change (cond_Zopp true (Z.pos m)) with (Z.neg m)
        |change (cond_Zopp false (Z.pos m)) with (Z.pos m)];
        cbn [cond_Zopp].
      - destruct (Qle_bool 0 (inject_Z (Z.neg m) * 2 ^ e)) eqn:Hle.
        + apply Qle_bool_iff in Hle. exfalso. lra.
        + unfold Qceiling. f_equal. rewrite <- Qfloor_shift.
          apply Qfloor_comp. lra.
      - destruct (Qle_bool 0 (inject_Z (Z.pos m) * 2 ^ e)) eqn:Hle.
        + apply Qfloor_shift.
        + exfalso. apply Qlt_le_weak, Qle_bool_iff in Hpos. congruence. }
    rewrite E. intros [Hlo Hhi].
    apply Z.leb_le in Hlo, Hhi. rewrite Hlo, Hhi. reflexivity.
Qed.

Lemma Qtrunc_comp q q' : (q == q')%Q -> Qtrunc q = Qtrunc q'.
Proof.
  intros E. unfold Qtrunc.
  rewrite (Qleb_comp 0%Q 0%Q (Qeq_refl 0%Q) q q' E).
  destruct (Qle_bool 0 q'); [apply Qfloor_comp|apply Qceiling_comp]; exact E.
Qed.

Lemma int_of_float_value f q :
  has_value f q -> in_int_range (Qtrunc q) ->
  int_of_float f = Some (Qtrunc q).
Proof.
  unfold has_value. destruct (float_value f) as [q'|] eqn:E; [|contradiction].
  intros Hq. rewrite <- (Qtrunc_comp _ _ Hq). apply int_of_float_trunc, E.
Qed.

Lemma Qtrunc_finite m e :
  Qtrunc (inject_Z (Zpos m) * 2 ^ e) = Z.shiftl (Zpos m) e.
Proof.
  pose proof (mantissa_value_pos m e) as Hpos. unfold Qtrunc.
  destruct (Qle_bool 0 (inject_Z (Z.pos m) * 2 ^ e)) eqn:Hle.
  - apply Qfloor_shift.
  - exfalso. apply Qlt_le_weak, Qle_bool_iff in Hpos. congruence.
Qed.

(** A normal number converts to the integer part of its value, when that
    fits an [int]. *)
Lemma int_of_float_normal f :
  normal f -> in_int_range (sc f / K) ->
  int_of_float f = Some (sc f / K)
  /\ exists q, has_value f q /\ Qtrunc q = sc f / K.
Proof.
  destruct f as [| | |[] m e]; try contradiction.
  cbn [normal sc]. intros [_ He] Hr.
  assert (E : Z.shiftl (Zpos m) e = scaled m e / K)
    by (apply shiftl_scaled; lia).
  split.
  - unfold int_of_float. cbn [cond_Zopp]. rewrite E.
    destruct Hr as [Hlo Hhi]. apply Z.leb_le in Hlo, Hhi.
    rewrite Hlo, Hhi. reflexivity.
  - exists (inject_Z (Zpos m) * 2 ^ e)%Q. split.
    + unfold has_value. cbn [float_value cond_Zopp]. reflexivity.
    + rewrite Qtrunc_finite. exact E.
Qed.

(** *** The quotient and the product of [display] *)

(** The quotient [X / x] of two integers converted to [float]. *)
Lemma quotient_brackets fX fx X x :
  normal fX -> sc fX = X * K -> -23 <= expo fX <= 0 ->
  normal fx -> sc fx = x * K -> -23 <= expo fx <= 0 ->
  0 < x -> 0 < X ->
  normal (fdiv fX fx) /\ -47 <= expo (fdiv fX fx) <= 1
  /\ exists V U,
       brackets (fdiv fX fx) V U /\ V * x <= X * K
       /\ (x < X -> x <= 2 ^ 22 -> K < V).
Proof.
  intros HnX HsX HeX Hnx Hsx Hex Hx HX.
  destruct (fdiv_normal fX fx HnX Hnx) as (Hn & E & T & HE & HeE & Hb & Hlo & Hhi);
    [lia|].
  pose proof K_pos as HK.
  split; [exact Hn|split; [lia|]].
  exists (T * 2 ^ (E + 149)), (2 ^ (E + 149)).
  rewrite HsX, Hsx in Hlo, Hhi.
  split; [exact Hb|split].
  - apply (Z.mul_le_mono_pos_r _ _ K HK).
    replace (T * 2 ^ (E + 149) * x * K) with (T * 2 ^ (E + 149) * (x * K)) by ring.
    exact Hlo.
  - intros Hlt Hx22. destruct Hb as (_ & HV & _).
    apply (above_one_arith _ E x X); try lia.
    apply (Z.mul_lt_mono_pos_r K _ _ HK).
    replace ((T * 2 ^ (E + 149) + 2 ^ (E + 149)) * x * K)
      with ((T + 1) * 2 ^ (E + 149) * (x * K)) by ring.
    exact Hhi.
Qed.

(** The product of the ratio with one dimension [x] of the raster, when the
    ratio is at most the quotient [q] of the bound [X] by [x]. *)
Lemma product_fits ratio q fx x X V2 U2 :
  normal ratio -> -47 <= expo ratio <= 1 ->
  normal fx -> sc fx = x * K -> -23 <= expo fx <= 0 ->
  0 < x -> 0 < X < 2 ^ 22 ->
  brackets q V2 U2 -> V2 * x <= X * K -> sc ratio <= sc q ->
  normal (fmul ratio fx)
  /\ 0 <= sc (fmul ratio fx) / K <= X
  /\ (K <= sc ratio -> x <= sc (fmul ratio fx) / K).
Proof.
  intros Hnr Her Hnx Hsx Hex Hx HX Hq HV2 Hle.
  destruct (fmul_normal ratio fx Hnr Hnx) as (Hn & E & T & HE & HeE & Hb & Hlo & Hhi);
    [lia|].
  pose proof K_pos as HK. pose proof (sc_pos _ Hn) as Hpos.
  rewrite Hsx in Hlo, Hhi.
  assert (Hlo' : T * 2 ^ (E + 149) <= sc ratio * x).
  { apply (Z.mul_le_mono_pos_r _ _ K HK).
    replace (sc ratio * x * K) with (sc ratio * (x * K)) by ring. exact Hlo. }
  assert (Hhi' : sc ratio * x < (T + 1) * 2 ^ (E + 149)).
  { apply (Z.mul_lt_mono_pos_r K _ _ HK).
    replace (sc ratio * x * K) with (sc ratio * (x * K)) by ring. exact Hhi. }
  assert (Hfit : sc (fmul ratio fx) < (X + 1) * K).
  { apply (fit_arith _ (T * 2 ^ (E + 149)) (sc ratio) (sc q) V2 x X);
      try assumption.
    - eapply brackets_upper; eassumption.
    - eapply brackets_upper; eassumption. }
  split; [exact Hn|split; [split|]].
  - apply Z.div_pos; lia.
  - assert (sc (fmul ratio fx) / K < X + 1); [|lia].
    apply Z.div_lt_upper_bound; [exact HK|]. lia.
  - intros Hone. apply Z.div_le_lower_bound; [exact HK|].
    transitivity (T * 2 ^ (E + 149)); [|eapply brackets_lower; eassumption].
    rewrite Z.mul_comm.
    destruct fx as [| | |[] mx ex]; try contradiction.
    destruct Hnx as [Hdx Hrx]. cbn [sc expo] in *. destruct Hb as (_ & HT & _).
    apply (product_lower_arith _ T E mx ex (sc ratio) x); try lia.
    + apply normal_bounds, Hdx.
    + rewrite <- Hsx. reflexivity.
    + assert (0 < 2 ^ (E + 149)) by (apply Z.pow_pos_nonneg; lia).
      apply (Z.mul_le_mono_pos_r _ _ (2 ^ (E + 149))); assumption.
Qed.

(** The sizes [display] computes, for rasters and bounds in the range where
    single precision holds them exactly. *)
Lemma display_sizes maxcols maxrows img :
  0 < rows img < 2 ^ 24 -> 0 < cols img < 2 ^ 24 ->
  0 < maxrows < 2 ^ 22 -> 0 < maxcols < 2 ^ 22 ->
  let product_rows :=
    fmul (ratio maxcols maxrows img) (float_of_int (rows img)) in
  let product_cols :=
    fmul (ratio maxcols maxrows img) (float_of_int (cols img)) in
  normal (ratio maxcols maxrows img)
  /\ normal product_rows /\ normal product_cols
  /\ 0 <= sc product_rows / K <= maxrows
  /\ 0 <= sc product_cols / K <= maxcols
  /\ (rows img < maxrows -> cols img < maxcols ->
      K < sc (ratio maxcols maxrows img)
      /\ rows img <= sc product_rows / K
      /\ cols img <= sc product_cols / K).
Proof.
  intros Hr Hc HR HC. cbv zeta.
  assert (H22 : 2 ^ 22 < 2 ^ 24) by reflexivity.
  destruct (float_of_int_normal (rows img) Hr) as (Nr & Sr & Er).
  destruct (float_of_int_normal (cols img) Hc) as (Nc & Sc & Ec).
  destruct (float_of_int_normal maxrows) as (NR & SR & ER); [lia|].
  destruct (float_of_int_normal maxcols) as (NC & SC & EC); [lia|].
  destruct (quotient_brackets _ _ maxcols (cols img) NC SC EC Nc Sc Ec)
    as (N1 & E1 & V1 & U1 & B1 & L1 & A1); [lia|lia|].
  destruct (quotient_brackets _ _ maxrows (rows img) NR SR ER Nr Sr Er)
    as (N2 & E2 & V2 & U2 & B2 & L2 & A2); [lia|lia|].
  fold (ratio1 maxcols img) in N1, E1, B1.
  fold (ratio2 maxrows img) in N2, E2, B2.
  pose proof (SFltb_sc _ _ N1 N2) as Hlt.
  pose proof (brackets_lower _ _ _ B1) as G1.
  pose proof (brackets_lower _ _ _ B2) as G2.
  assert (Hratio : normal (ratio maxcols maxrows img)
                   /\ -47 <= expo (ratio maxcols maxrows img) <= 1
                   /\ sc (ratio maxcols maxrows img) <= sc (ratio1 maxcols img)
                   /\ sc (ratio maxcols maxrows img) <= sc (ratio2 maxrows img)
                   /\ (K < V1 -> K < V2 -> K < sc (ratio maxcols maxrows img))).
  { unfold ratio.
    destruct (SFltb (ratio1 maxcols img) (ratio2 maxrows img)).
    - assert (sc (ratio1 maxcols img) < sc (ratio2 maxrows img))
        by (apply Hlt; reflexivity).
      repeat split; try assumption; lia.
    - assert (~ sc (ratio1 maxcols img) < sc (ratio2 maxrows img))
        by (intros H; apply Hlt in H; discriminate).
      repeat split; try assumption; lia. }
  destruct Hratio as (Nq & Eq & Le1 & Le2 & Above).
  destruct (product_fits (ratio maxcols maxrows img) (ratio2 maxrows img)
              (float_of_int (rows img)) (rows img) maxrows V2 U2 Nq Eq Nr Sr Er)
    as (Npr & Bpr & Lpr); try assumption; try lia.
  destruct (product_fits (ratio maxcols maxrows img) (ratio1 maxcols img)
              (float_of_int (cols img)) (cols img) maxcols V1 U1 Nq Eq Nc Sc Ec)
    as (Npc & Bpc & Lpc); try assumption; try lia.
  repeat split; try assumption; lia.
Qed.

Lemma small_in_int_range v X : 0 <= v <= X -> X < 2 ^ 22 -> in_int_range v.
Proof.
  intros Hv HX. unfold in_int_range, INT_MIN, INT_MAX.
  change (2 ^ 22) with 4194304 in HX. lia.
Qed.

(** C2, as the code has it.  The quotients and the products are single
    precision numbers, and the two sizes are the products with their
    fractional part cut off, not the products rounded.  For a raster of
    fewer than 2^24 rows and columns and a bound below 2^22 both ways, the
    two products are finite, the frame is defined, it has their integer
    parts as rows and columns, and these are within the bound. *)
Theorem image_size_truncates maxcols maxrows img :
  0 < rows img < 2 ^ 24 -> 0 < cols img < 2 ^ 24 ->
  0 < maxrows < 2 ^ 22 -> 0 < maxcols < 2 ^ 22 ->
  exists qr qc,
    has_value (fmul (ratio maxcols maxrows img) (float_of_int (rows img))) qr
    /\ has_value (fmul (ratio maxcols maxrows img) (float_of_int (cols img))) qc
    /\ image maxcols maxrows img = Some (mkMat (Qtrunc qr) (Qtrunc qc))
    /\ 0 <= Qtrunc qr <= maxrows
    /\ 0 <= Qtrunc qc <= maxcols.
Proof.
  intros Hr Hc HR HC.
  destruct (display_sizes maxcols maxrows img Hr Hc HR HC)
    as (_ & Npr & Npc & Bpr & Bpc & _).
  destruct (int_of_float_normal _ Npr) as (Ir & qr & Vr & Tr);
    [apply (small_in_int_range _ maxrows); lia|].
  destruct (int_of_float_normal _ Npc) as (Ic & qc & Vc & Tc);
    [apply (small_in_int_range _ maxcols); lia|].
  exists qr, qc. rewrite Tr, Tc.
  split; [exact Vr|split; [exact Vc|split; [|split; assumption]]].
  unfold image, image_rows, image_cols. rewrite Ir, Ic. reflexivity.
Qed.

Lemma image_size_truncates_witness :
  exists qr qc,
    has_value (fmul (ratio 7 100 (mkMat 1 4)) (float_of_int (rows (mkMat 1 4)))) qr
    /\ has_value (fmul (ratio 7 100 (mkMat 1 4)) (float_of_int (cols (mkMat 1 4)))) qc
    /\ image 7 100 (mkMat 1 4) = Some (mkMat (Qtrunc qr) (Qtrunc qc))
    /\ 0 <= Qtrunc qr <= 100
    /\ 0 <= Qtrunc qc <= 7.
Proof.
  apply (image_size_truncates 7 100 (mkMat 1 4)); split; reflexivity.
Defined.

Example image_one_by_four :
  has_value (fmul (ratio 7 100 (mkMat 1 4)) (float_of_int 1)) (7 # 4)
  /\ image 7 100 (mkMat 1 4) = Some (mkMat 1 7).
Proof. split; vm_compute; reflexivity. Qed.

(** A raster of 200 columns by 100 rows in a bound of 100 by 100 is shown
    as 100 columns by 50 rows. *)
Example image_halved : image 100 100 (mkMat 100 200) = Some (mkMat 50 100).
Proof. vm_compute. reflexivity. Qed.

(** C2, as the specification has it, fails: a raster of 1 row and 4
    columns in a bound of 100 rows and 7 columns has ratio 7/4; the
    product for the rows, 1.75, rounds to 2 and is cut to 1. *)
Lemma image_size_round_counterexample :
  ~ (forall maxcols maxrows img,
       0 < rows img -> 0 < cols img ->
       image maxcols maxrows img
       = Some (mkMat (spec_rows maxcols maxrows img)
                     (spec_cols maxcols maxrows img))).
Proof.
  intros H. specialize (H 7 100 (mkMat 1 4) eq_refl eq_refl).
  vm_compute in H. discriminate.
Qed.

(** Rounding a quotient and then its product with the divisor loses less
    than one unit of a bound below [2^22]. *)
Lemma fills_arith P Vp Up S V2 U2 r R :
  0 < r -> 0 < R < 2 ^ 22 ->
  0 < U2 -> 2 ^ 23 * U2 <= V2 -> R * K < (V2 + U2) * r -> V2 <= S ->
  2 ^ 23 * Up <= Vp -> S * r < Vp + Up -> Vp <= P ->
  (R - 1) * K < P.
Proof.
  intros Hr HR HU2 HV2 Hq HS HVp Hp HP.
  change (2 ^ 23) with 8388608 in *. change (2 ^ 22) with 4194304 in *.
  pose proof K_pos as HK.
  assert (H1 : 8388608 * (U2 * r) <= V2 * r).
  { replace (8388608 * (U2 * r)) with (8388608 * U2 * r) by ring.
    apply Z.mul_le_mono_nonneg_r; lia. }
  assert (H2 : V2 * r <= S * r) by (apply Z.mul_le_mono_nonneg_r; lia).
  assert (H3 : R * K <= 4194303 * K) by (apply Z.mul_le_mono_nonneg_r; lia).
  replace ((V2 + U2) * r) with (V2 * r + U2 * r) in Hq by ring.
  replace ((R - 1) * K) with (R * K - K) by ring.
  lia.
Qed.

(** The product of the quotient [X / x] with [x] reaches [X - 1]. *)
Lemma product_fills fX fx X x :
  normal fX -> sc fX = X * K -> -23 <= expo fX <= 0 ->
  normal fx -> sc fx = x * K -> -23 <= expo fx <= 0 ->
  0 < x -> 0 < X < 2 ^ 22 ->
  X - 1 <= sc (fmul (fdiv fX fx) fx) / K.
Proof.
  intros HnX HsX HeX Hnx Hsx Hex Hx HX.
  destruct (fdiv_normal fX fx HnX Hnx)
    as (Hn & E & T & HE & HeE & Hb & _ & Hhi); [lia|].
  destruct (fmul_normal (fdiv fX fx) fx Hn Hnx)
    as (Hn' & E' & T' & HE' & HeE' & Hb' & _ & Hhi'); [lia|].
  pose proof K_pos as HK.
  rewrite HsX, Hsx in Hhi. rewrite Hsx in Hhi'.
  destruct Hb as (HU & HV & Hsc). destruct Hb' as (HU' & HV' & Hsc').
  assert (Hq : X * K < (T * 2 ^ (E + 149) + 2 ^ (E + 149)) * x).
  { apply (Z.mul_lt_mono_pos_r K _ _ HK).
    replace ((T * 2 ^ (E + 149) + 2 ^ (E + 149)) * x * K)
      with ((T + 1) * 2 ^ (E + 149) * (x * K)) by ring.
    exact Hhi. }
  assert (Hp : sc (fdiv fX fx) * x
               < T' * 2 ^ (E' + 149) + 2 ^ (E' + 149)).
  { apply (Z.mul_lt_mono_pos_r K _ _ HK).
    replace (sc (fdiv fX fx) * x * K) with (sc (fdiv fX fx) * (x * K)) by ring.
    replace ((T' * 2 ^ (E' + 149) + 2 ^ (E' + 149)) * K)
      with ((T' + 1) * 2 ^ (E' + 149) * K) by ring.
    exact Hhi'. }
  apply Z.div_le_lower_bound; [exact HK|].
  apply Z.lt_le_incl. rewrite Z.mul_comm.
  apply (fills_arith _ (T' * 2 ^ (E' + 149)) (2 ^ (E' + 149))
           (sc (fdiv fX fx)) (T * 2 ^ (E + 149)) (2 ^ (E + 149)) x X);
    try assumption.
  - destruct Hsc as [->| ->]; lia.
  - destruct Hsc' as [->| ->]; lia.
Qed.

(** C6, as the code has it.  The ratio is never replaced by 1.  For a
    raster smaller than the bound in both dimensions (the bound below 2^22
    both ways) the ratio is greater than 1 as a [float], and the frame is
    defined, at least as large as the raster and at most as large as the
    bound in each dimension.  It fills the bound up to one pixel: in the
    dimension whose quotient is the ratio, the columns when [ratio1] is
    the smaller of the two and the rows otherwise, the frame has the
    bound or one less.  A raster of 50 by 50 in a bound of 200 columns
    by 100 rows has ratio 2 and a frame of exactly 100 by 100. *)
Theorem ratio_not_clamped maxcols maxrows img :
  0 < rows img < maxrows -> 0 < cols img < maxcols ->
  maxrows < 2 ^ 22 -> maxcols < 2 ^ 22 ->
  SFltb (float_of_int 1) (ratio maxcols maxrows img) = true
  /\ (exists out,
        image maxcols maxrows img = Some out
        /\ rows img <= rows out <= maxrows
        /\ cols img <= cols out <= maxcols
        /\ (if SFltb (ratio1 maxcols img) (ratio2 maxrows img)
            then maxcols - 1 <= cols out
            else maxrows - 1 <= rows out)
        /\ (maxrows - 1 <= rows out \/ maxcols - 1 <= cols out))
  /\ has_value (ratio 200 100 (mkMat 50 50)) 2
  /\ image 200 100 (mkMat 50 50) = Some (mkMat 100 100).
Proof.
  intros Hr Hc HR HC.
  assert (H22 : 2 ^ 22 < 2 ^ 24) by reflexivity.
  destruct (display_sizes maxcols maxrows img)
    as (Nq & Npr & Npc & Bpr & Bpc & Up); try lia.
  destruct Up as (Above & Lr & Lc); try lia.
  split; [|split; [|split; vm_compute; reflexivity]].
  - destruct (float_of_int_normal 1) as (N1 & S1 & _); [split; reflexivity|].
    apply SFltb_sc; [exact N1|exact Nq|]. rewrite S1. lia.
  - destruct (int_of_float_normal _ Npr) as (Ir & _);
      [apply (small_in_int_range _ maxrows); lia|].
    destruct (int_of_float_normal _ Npc) as (Ic & _);
      [apply (small_in_int_range _ maxcols); lia|].
    destruct (float_of_int_normal (rows img)) as (Nr & Sr & Er); [lia|].
    destruct (float_of_int_normal (cols img)) as (Nc & Sc & Ec); [lia|].
    destruct (float_of_int_normal maxrows) as (NR & SR & ER); [lia|].
    destruct (float_of_int_normal maxcols) as (NC & SC & EC); [lia|].
    pose proof (product_fills _ _ maxcols (cols img) NC SC EC Nc Sc Ec
                  ltac:(lia) ltac:(lia)) as Fc.
    pose proof (product_fills _ _ maxrows (rows img) NR SR ER Nr Sr Er
                  ltac:(lia) ltac:(lia)) as Fr.
    fold (ratio1 maxcols img) in Fc. fold (ratio2 maxrows img) in Fr.
    assert (Hbind : if SFltb (ratio1 maxcols img) (ratio2 maxrows img)
                    then maxcols - 1
                         <= sc (fmul (ratio maxcols maxrows img)
                                     (float_of_int (cols img))) / K
                    else maxrows - 1
                         <= sc (fmul (ratio maxcols maxrows img)
                                     (float_of_int (rows img))) / K).
    { unfold ratio.
      destruct (SFltb (ratio1 maxcols img) (ratio2 maxrows img));
        assumption. }
    eexists. unfold image, image_rows, image_cols. rewrite Ir, Ic.
    split; [reflexivity|]. cbn [rows cols].
    split; [lia|split; [lia|split; [exact Hbind|]]].
    destruct (SFltb (ratio1 maxcols img) (ratio2 maxrows img)); auto.
Qed.

Lemma ratio_not_clamped_witness :
  SFltb (float_of_int 1) (ratio 200 100 (mkMat 50 50)) = true
  /\ (exists out,
        image 200 100 (mkMat 50 50) = Some out
        /\ rows (mkMat 50 50) <= rows out <= 100
        /\ cols (mkMat 50 50) <= cols out <= 200
        /\ (if SFltb (ratio1 200 (mkMat 50 50)) (ratio2 100 (mkMat 50 50))
            then 200 - 1 <= cols out
            else 100 - 1 <= rows out)
        /\ (100 - 1 <= rows out \/ 200 - 1 <= cols out))
  /\ has_value (ratio 200 100 (mkMat 50 50)) 2
  /\ image 200 100 (mkMat 50 50) = Some (mkMat 100 100).
Proof.
  apply (ratio_not_clamped 200 100 (mkMat 50 50));
    try (split; reflexivity); reflexivity.
Defined.

(** C6, as the specification has it, fails: a raster of 29 by 29 in a
    bound of 30 by 30 is smaller than the bound in both dimensions, and
    its frame is 29 by 29: the quotient 30/29 is rounded down to single
    precision, its product with 29 is just below 30 and is cut to 29.  The
    frame is not larger than the raster and does not reach the bound. *)
Lemma upscale_fill_counterexample :
  ~ (forall maxcols maxrows img,
       0 < rows img < maxrows -> 0 < cols img < maxcols ->
       exists out,
         image maxcols maxrows img = Some out
         /\ (rows img < rows out \/ cols img < cols out
             \/ rows out = maxrows \/ cols out = maxcols)).
Proof.
  intros H.
  destruct (H 30 30 (mkMat 29 29)) as (out & E & C);
    [split; reflexivity|split; reflexivity|].
  vm_compute in E. injection E as <-. simpl in C. lia.
Qed.

(** *** Results that need no rounding *)

Lemma shr_1_exact k :
  0 <= k ->
  shr_1 (Build_shr_record (k * 2) false false) = Build_shr_record k false false.
Proof.
  intros Hk. destruct k as [|p|p]; try lia; [reflexivity|].
  replace (Z.pos p * 2) with (Z.pos p~0) by lia. reflexivity.
Qed.

Lemma iter_shr_1_exact p :
  forall k, 0 <= k ->
    SpecFloat.iter_pos shr_1 p (Build_shr_record (k * 2 ^ Zpos p) false false)
    = Build_shr_record k false false.
Proof.
  induction p as [p IH|p IH|]; intros k Hk; cbn [SpecFloat.iter_pos].
  - assert (Hp : 0 < 2 ^ Zpos p) by (apply Z.pow_pos_nonneg; lia).
    replace (k * 2 ^ Z.pos p~1) with (k * 2 ^ Zpos p * 2 ^ Zpos p * 2).
    2:{ rewrite (Pos2Z.inj_xI p).
        replace (2 * Z.pos p + 1) with (Z.pos p + Z.pos p + 1) by lia.
        rewrite !Z.pow_add_r by lia. change (2 ^ 1) with 2. ring. }
    rewrite shr_1_exact, IH, IH; [reflexivity|lia|nia|nia].
  - assert (Hp : 0 < 2 ^ Zpos p) by (apply Z.pow_pos_nonneg; lia).
    replace (k * 2 ^ Z.pos p~0) with (k * 2 ^ Zpos p * 2 ^ Zpos p).
    2:{ rewrite (Pos2Z.inj_xO p).
        replace (2 * Z.pos p) with (Z.pos p + Z.pos p) by lia.
        rewrite !Z.pow_add_r by lia. ring. }
    rewrite IH, IH; [reflexivity|lia|nia].
  - apply shr_1_exact, Hk.
Qed.

(** A mantissa that ends in [n] zeros is shifted without loss. *)
Lemma shr_fexp_exact k n e m :
  Zpos (digits2_pos k) = 24 -> 0 <= n -> -149 <= e + n ->
  Zpos m = Zpos k * 2 ^ n ->
  shr_fexp prec emax (Zpos m) e loc_Exact
  = (Build_shr_record (Zpos k) false false, e + n).
Proof.
  intros Hk Hn He Hm.
  pose proof (normal_bounds k Hk) as [Klo Khi].
  assert (Hp : 0 < 2 ^ n) by (apply Z.pow_pos_nonneg; lia).
  assert (Hd : Zpos (digits2_pos m) = 24 + n).
  { apply digits2_pos_unique. rewrite Hm. split.
    - replace (24 + n - 1) with (23 + n) by lia. rewrite Z.pow_add_r by lia.
      apply Z.mul_le_mono_nonneg_r; lia.
    - rewrite Z.pow_add_r by lia. apply Z.mul_lt_mono_pos_r; lia. }
  unfold shr_fexp, fexp, emin, prec, emax. cbn [Zdigits2]. rewrite Hd.
  rewrite Z.max_l by lia.
  replace (24 + n + e - 24 - e) with n by lia.
  cbn [shr_record_of_loc]. rewrite Hm.
  destruct n as [|p|p]; try lia; cbn [shr].
  - rewrite Z.mul_1_r, Z.add_0_r. reflexivity.
  - rewrite iter_shr_1_exact by lia. reflexivity.
Qed.

Lemma binary_round_aux_exact s k n e m :
  Zpos (digits2_pos k) = 24 -> 0 <= n -> -149 <= e + n <= 104 ->
  Zpos m = Zpos k * 2 ^ n ->
  binary_round_aux prec emax s (Zpos m) e loc_Exact = S754_finite s k (e + n).
Proof.
  intros Hk Hn He Hm. unfold binary_round_aux.
  rewrite (shr_fexp_exact k n e m Hk Hn) by (try assumption; lia).
  cbn [shr_m loc_of_shr_record round_nearest_even].
  rewrite (shr_fexp_exact k 0 (e + n) k Hk) by (try lia; rewrite Z.mul_1_r; reflexivity).
  cbn [shr_m]. rewrite Z.add_0_r. unfold emax, prec.
  destruct (Z.leb_spec (e + n) (128 - 24)); [reflexivity|lia].
Qed.

Lemma one_float_of_int : float_of_int 1 = one.
Proof. reflexivity. Qed.

Lemma sc_one : sc one = K.
Proof. reflexivity. Qed.

Lemma normal_one : normal one.
Proof. split; [reflexivity|lia]. Qed.

(** [1.0f * x] is [x]. *)
Lemma fmul_one f : normal f -> fmul one f = f.
Proof.
  destruct f as [| | |[] m e]; try contradiction.
  cbn [normal]. intros [Hd He]. unfold fmul, one. cbn [SFmul xorb].
  rewrite (binary_round_aux_exact false m 23 (-23 + e) (2 ^ 23 * m));
    try assumption; try lia.
  f_equal. lia.
Qed.

(** [x / x] is [1.0f]. *)
Lemma fdiv_self f : normal f -> fdiv f f = one.
Proof.
  destruct f as [| | |[] m e]; try contradiction.
  cbn [normal]. intros [Hd He]. unfold fdiv, one.
  cbn [SFdiv xorb]. unfold SFdiv_core_binary. cbn [Zdigits2].
  rewrite Hd. unfold fexp, emin.
  replace (Z.max (24 + e - (24 + e) - prec) (3 - emax - prec))
    with (-24) by (unfold prec, emax; lia).
  rewrite Z.min_l by lia.
  replace (e - e - -24) with 24 by lia.
  rewrite Z.shiftl_mul_pow2 by lia.
  assert (Hq : Z.div_eucl (Zpos m * 2 ^ 24) (Zpos m) = (2 ^ 24, 0)).
  { pose proof (Z.div_eucl_eq (Zpos m * 2 ^ 24) (Zpos m)) as Heq.
    pose proof (Z.mod_pos_bound (Zpos m * 2 ^ 24) (Zpos m)) as Hb.
    unfold Z.modulo in Hb.
    destruct (Z.div_eucl (Zpos m * 2 ^ 24) (Zpos m)) as [q r].
    specialize (Heq ltac:(lia)). specialize (Hb ltac:(lia)).
    assert (q = 2 ^ 24) by nia. subst q. f_equal. lia. }
  rewrite Hq. cbv beta iota.
  assert (Hloc : new_location (Zpos m) 0 = loc_Exact).
  { unfold new_location, new_location_even, new_location_odd.
    destruct (Z.even (Zpos m)); reflexivity. }
  rewrite Hloc.
  change (2 ^ 24) with (Zpos (2 ^ 24)).
  rewrite (binary_round_aux_exact false (2 ^ 23) 1 (-24) (2 ^ 24));
    try reflexivity; lia.
Qed.

(** *** Rasters that exceed, match or dwarf the bound *)

(** The quotient of a smaller by a larger integer is below one. *)
Lemma quotient_below_one fX fx X x :
  normal fX -> sc fX = X * K -> -23 <= expo fX <= 0 ->
  normal fx -> sc fx = x * K -> -23 <= expo fx <= 0 ->
  0 < X < x -> x < 2 ^ 24 ->
  sc (fdiv fX fx) < K.
Proof.
  intros HnX HsX HeX Hnx Hsx Hex HX Hx.
  destruct (fdiv_normal fX fx HnX Hnx) as (Hn & E & T & HE & HeE & Hb & Hlo & _);
    [lia|].
  pose proof K_pos as HK.
  rewrite HsX, Hsx in Hlo.
  destruct Hb as (HU & HT & Hsc).
  set (U := 2 ^ (E + 149)) in *.
  assert (Hlo' : T * U * x <= X * K).
  { apply (Z.mul_le_mono_pos_r _ _ K HK).
    replace (T * U * x * K) with (T * U * (x * K)) by ring. exact Hlo. }
  assert (HXK : X * K <= (x - 1) * K) by (apply Z.mul_le_mono_nonneg_r; lia).
  assert (HEneg : E <= -24).
  { destruct (Z.le_gt_cases E (-24)) as [|Hgt]; [assumption|exfalso].
    assert (2 ^ 126 <= U) by (apply Z.pow_le_mono_r; lia).
    assert (HKU : K <= 2 ^ 23 * U).
    { change K with (2 ^ 23 * 2 ^ 126). apply Z.mul_le_mono_nonneg_l; lia. }
    assert (K * x <= T * U * x) by (apply Z.mul_le_mono_nonneg_r; lia).
    lia. }
  set (n := 2 ^ (- E)).
  assert (Hn24 : 2 ^ 24 <= n) by (apply Z.pow_le_mono_r; lia).
  assert (HKn : K = n * U).
  { unfold n, U, K. rewrite <- Z.pow_add_r by lia. f_equal. lia. }
  assert (HTx : T * x <= (x - 1) * n).
  { apply (Z.mul_le_mono_pos_r _ _ U HU).
    replace (T * x * U) with (T * U * x) by ring.
    replace ((x - 1) * n * U) with ((x - 1) * (n * U)) by ring.
    rewrite <- HKn. lia. }
  assert (HT1 : T + 1 < n).
  { destruct (Z.lt_ge_cases (T + 1) n) as [|Hge]; [assumption|exfalso].
    assert ((n - 1) * x <= T * x) by (apply Z.mul_le_mono_nonneg_r; lia).
    nia. }
  assert ((T + 1) * U < n * U) by (apply Z.mul_lt_mono_pos_r; assumption).
  rewrite HKn. destruct Hsc as [->| ->]; lia.
Qed.

(** The product of a ratio below one with [x] is at most [x]. *)
Lemma product_at_most ratio fx x :
  normal ratio -> -47 <= expo ratio <= 1 ->
  normal fx -> sc fx = x * K -> -23 <= expo fx <= 0 ->
  0 < x -> sc ratio < K ->
  sc (fmul ratio fx) <= x * K.
Proof.
  intros Hnr Her Hnx Hsx Hex Hx Hlt.
  destruct (fmul_normal ratio fx Hnr Hnx) as (Hn & E & T & HE & HeE & Hb & Hlo & _);
    [lia|].
  pose proof K_pos as HK. pose proof (sc_pos _ Hnr) as Hpos.
  rewrite Hsx in Hlo.
  destruct Hb as (HU & HT & Hsc).
  set (U := 2 ^ (E + 149)) in *.
  assert (Hlo' : T * U <= sc ratio * x).
  { apply (Z.mul_le_mono_pos_r _ _ K HK).
    replace (sc ratio * x * K) with (sc ratio * (x * K)) by ring. exact Hlo. }
  assert (HSx : sc ratio * x < K * x) by (apply Z.mul_lt_mono_pos_r; lia).
  destruct fx as [| | |[] mx ex]; try contradiction.
  destruct Hnx as [Hdx Hrx]. cbn [sc expo] in *.
  pose proof (normal_bounds mx Hdx) as [Mlo Mhi].
  unfold scaled in Hsx.
  destruct (Z.le_gt_cases E ex) as [Hle|Hgt].
  - assert (Hj : x * K = Zpos mx * 2 ^ (ex - E) * U).
    { rewrite <- Hsx, <- Z.mul_assoc. unfold U.
      rewrite <- Z.pow_add_r by lia. do 2 f_equal. lia. }
    set (j := Zpos mx * 2 ^ (ex - E)) in *.
    assert (T * U < j * U) by lia.
    assert (T < j) by (apply (Z.mul_lt_mono_pos_r U); assumption).
    assert ((T + 1) * U <= j * U) by (apply Z.mul_le_mono_nonneg_r; lia).
    destruct Hsc as [->| ->]; lia.
  - exfalso.
    assert (HU2 : 2 ^ (ex + 150) <= U) by (apply Z.pow_le_mono_r; lia).
    replace (ex + 150) with (1 + (ex + 149)) in HU2 by lia.
    rewrite Z.pow_add_r in HU2 by lia. change (2 ^ 1) with 2 in HU2.
    assert (0 < 2 ^ (ex + 149)) by (apply Z.pow_pos_nonneg; lia).
    change (2 ^ 23) with 8388608 in *. change (2 ^ 24) with 16777216 in *.
    assert (Zpos mx * 2 ^ (ex + 149) < 16777216 * 2 ^ (ex + 149))
      by (apply Z.mul_lt_mono_pos_r; lia).
    lia.
Qed.

(** The two quotients and their minimum. *)
Lemma ratio_cases maxcols maxrows img :
  0 < rows img < 2 ^ 24 -> 0 < cols img < 2 ^ 24 ->
  0 < maxrows < 2 ^ 24 -> 0 < maxcols < 2 ^ 24 ->
  normal (ratio1 maxcols img) /\ normal (ratio2 maxrows img)
  /\ normal (ratio maxcols maxrows img)
  /\ -47 <= expo (ratio maxcols maxrows img) <= 1
  /\ (ratio maxcols maxrows img = ratio1 maxcols img
      /\ sc (ratio1 maxcols img) < sc (ratio2 maxrows img)
      \/ ratio maxcols maxrows img = ratio2 maxrows img
         /\ sc (ratio2 maxrows img) <= sc (ratio1 maxcols img)).
Proof.
  intros Hr Hc HR HC.
  destruct (float_of_int_normal (rows img) Hr) as (Nr & Sr & Er).
  destruct (float_of_int_normal (cols img) Hc) as (Nc & Sc & Ec).
  destruct (float_of_int_normal maxrows HR) as (NR & SR & ER).
  destruct (float_of_int_normal maxcols HC) as (NC & SC & EC).
  destruct (quotient_brackets _ _ maxcols (cols img) NC SC EC Nc Sc Ec)
    as (N1 & E1 & _); [lia|lia|].
  destruct (quotient_brackets _ _ maxrows (rows img) NR SR ER Nr Sr Er)
    as (N2 & E2 & _); [lia|lia|].
  fold (ratio1 maxcols img) in N1, E1.
  fold (ratio2 maxrows img) in N2, E2.
  pose proof (SFltb_sc _ _ N1 N2) as Hlt.
  split; [exact N1|split; [exact N2|]].
  unfold ratio. destruct (SFltb (ratio1 maxcols img) (ratio2 maxrows img)).
  - assert (sc (ratio1 maxcols img) < sc (ratio2 maxrows img))
      by (apply Hlt; reflexivity).
    split; [exact N1|split; [exact E1|left; split; [reflexivity|assumption]]].
  - assert (~ sc (ratio1 maxcols img) < sc (ratio2 maxrows img))
      by (intros H; apply Hlt in H; discriminate).
    split; [exact N2|split; [exact E2|right; split; [reflexivity|lia]]].
Qed.

(** The frame, from the two products. *)
Lemma image_of_products maxcols maxrows img :
  0 < rows img < 2 ^ 24 -> 0 < cols img < 2 ^ 24 ->
  0 < maxrows < 2 ^ 22 -> 0 < maxcols < 2 ^ 22 ->
  let product_rows :=
    fmul (ratio maxcols maxrows img) (float_of_int (rows img)) in
  let product_cols :=
    fmul (ratio maxcols maxrows img) (float_of_int (cols img)) in
  image maxcols maxrows img
  = Some (mkMat (sc product_rows / K) (sc product_cols / K))
  /\ 0 <= sc product_rows / K <= maxrows
  /\ 0 <= sc product_cols / K <= maxcols.
Proof.
  intros Hr Hc HR HC. cbv zeta.
  destruct (display_sizes maxcols maxrows img Hr Hc HR HC)
    as (_ & Npr & Npc & Bpr & Bpc & _).
  destruct (int_of_float_normal _ Npr) as (Ir & _);
    [apply (small_in_int_range _ maxrows); lia|].
  destruct (int_of_float_normal _ Npc) as (Ic & _);
    [apply (small_in_int_range _ maxcols); lia|].
  unfold image, image_rows, image_cols. rewrite Ir, Ic.
  split; [reflexivity|split; assumption].
Qed.

(** X1.  A raster that exceeds the bound in some dimension gets a ratio
    below [1.0f], and its frame is no larger than the raster and no larger
    than the bound in either dimension: [display] never enlarges such an
    image, not even by one pixel of rounding. *)
Theorem oversized_raster_shrinks maxcols maxrows img :
  0 < rows img < 2 ^ 24 -> 0 < cols img < 2 ^ 24 ->
  0 < maxrows < 2 ^ 22 -> 0 < maxcols < 2 ^ 22 ->
  maxrows < rows img \/ maxcols < cols img ->
  SFltb (ratio maxcols maxrows img) one = true
  /\ exists out,
       image maxcols maxrows img = Some out
       /\ 0 <= rows out <= Z.min maxrows (rows img)
       /\ 0 <= cols out <= Z.min maxcols (cols img).
Proof.
  intros Hr Hc HR HC Hover.
  assert (H22 : 2 ^ 22 < 2 ^ 24) by reflexivity.
  destruct (float_of_int_normal (rows img) Hr) as (Nr & Sr & Er).
  destruct (float_of_int_normal (cols img) Hc) as (Nc & Sc & Ec).
  destruct (float_of_int_normal maxrows) as (NR & SR & ER); [lia|].
  destruct (float_of_int_normal maxcols) as (NC & SC & EC); [lia|].
  destruct (ratio_cases maxcols maxrows img)
    as (N1 & N2 & Nq & Eq & Hmin); try lia.
  pose proof K_pos as HK.
  assert (Hbelow : sc (ratio maxcols maxrows img) < K).
  { destruct Hover as [Hrows|Hcols].
    - assert (sc (ratio2 maxrows img) < K)
        by (apply (quotient_below_one _ _ maxrows (rows img)); auto; lia).
      destruct Hmin as [[-> ?]|[-> ?]]; lia.
    - assert (sc (ratio1 maxcols img) < K)
        by (apply (quotient_below_one _ _ maxcols (cols img)); auto; lia).
      destruct Hmin as [[-> ?]|[-> ?]]; lia. }
  split.
  - apply SFltb_sc; [exact Nq|exact normal_one|]. rewrite sc_one. exact Hbelow.
  - destruct (image_of_products maxcols maxrows img Hr Hc HR HC)
      as (Himg & Bpr & Bpc).
    pose proof (product_at_most _ _ (rows img) Nq Eq Nr Sr Er
                  ltac:(lia) Hbelow) as Pr.
    pose proof (product_at_most _ _ (cols img) Nq Eq Nc Sc Ec
                  ltac:(lia) Hbelow) as Pc.
    eexists. split; [exact Himg|]. cbn [rows cols].
    assert (sc (fmul (ratio maxcols maxrows img) (float_of_int (rows img))) / K
            <= rows img)
      by (apply Z.div_le_upper_bound; [exact HK|lia]).
    assert (sc (fmul (ratio maxcols maxrows img) (float_of_int (cols img))) / K
            <= cols img)
      by (apply Z.div_le_upper_bound; [exact HK|lia]).
    lia.
Qed.

(** X2.  A raster within the bound that matches it in one dimension, rows
    or columns, has the ratio [1.0f] exactly, and its frame has exactly
    the size of the raster: no pixel is lost to the truncation. *)
Theorem fitting_raster_keeps_size maxcols maxrows img :
  0 < rows img <= maxrows -> 0 < cols img <= maxcols ->
  maxrows < 2 ^ 22 -> maxcols < 2 ^ 22 ->
  rows img = maxrows \/ cols img = maxcols ->
  ratio maxcols maxrows img = one
  /\ image maxcols maxrows img = Some (mkMat (rows img) (cols img)).
Proof.
  intros Hr Hc HR HC Hfit.
  assert (H22 : 2 ^ 22 < 2 ^ 24) by reflexivity.
  destruct (float_of_int_normal (rows img)) as (Nr & Sr & Er); [lia|].
  destruct (float_of_int_normal (cols img)) as (Nc & Sc & Ec); [lia|].
  destruct (float_of_int_normal maxrows) as (NR & SR & ER); [lia|].
  destruct (float_of_int_normal maxcols) as (NC & SC & EC); [lia|].
  destruct (ratio_cases maxcols maxrows img)
    as (N1 & N2 & Nq & Eq & Hmin); try lia.
  pose proof K_pos as HK.
  assert (H1 : ratio1 maxcols img = one
               \/ cols img < maxcols /\ K < sc (ratio1 maxcols img)).
  { destruct (Z.eq_dec (cols img) maxcols) as [E|Hne].
    - left. unfold ratio1. rewrite <- E. apply fdiv_self, Nc.
    - right. split; [lia|].
      destruct (quotient_brackets _ _ maxcols (cols img) NC SC EC Nc Sc Ec)
        as (_ & _ & V & U & B & _ & A); [lia|lia|].
      fold (ratio1 maxcols img) in B.
      pose proof (brackets_lower _ _ _ B). assert (K < V) by (apply A; lia).
      lia. }
  assert (H2 : ratio2 maxrows img = one
               \/ rows img < maxrows /\ K < sc (ratio2 maxrows img)).
  { destruct (Z.eq_dec (rows img) maxrows) as [E|Hne].
    - left. unfold ratio2. rewrite <- E. apply fdiv_self, Nr.
    - right. split; [lia|].
      destruct (quotient_brackets _ _ maxrows (rows img) NR SR ER Nr Sr Er)
        as (_ & _ & V & U & B & _ & A); [lia|lia|].
      fold (ratio2 maxrows img) in B.
      pose proof (brackets_lower _ _ _ B). assert (K < V) by (apply A; lia).
      lia. }
  assert (Hone : ratio maxcols maxrows img = one).
  { destruct Hmin as [[E Hlt]|[E Hle]]; rewrite E.
    - destruct H1 as [E1|[? G1]]; [exact E1|exfalso].
      destruct H2 as [E2|[? G2]]; [|lia].
      rewrite E2, sc_one in Hlt. lia.
    - destruct H2 as [E2|[? G2]]; [exact E2|exfalso].
      destruct H1 as [E1|[? G1]]; [|lia].
      rewrite E1, sc_one in Hle. lia. }
  split; [exact Hone|].
  unfold image, image_rows, image_cols. rewrite Hone, !fmul_one by assumption.
  destruct (int_of_float_normal _ Nr) as (Ir & _).
  { rewrite Sr, Z.div_mul by lia. apply (small_in_int_range _ maxrows); lia. }
  destruct (int_of_float_normal _ Nc) as (Ic & _).
  { rewrite Sc, Z.div_mul by lia. apply (small_in_int_range _ maxcols); lia. }
  rewrite Ir, Ic, Sr, Sc, !Z.div_mul by lia. reflexivity.
Qed.

(** A product that stays below one. *)
Lemma strip_arith P V S S1 V1 r c C :
  0 < r -> 0 < c -> 0 <= C -> 0 <= V1 ->
  2 ^ 23 * P <= (2 ^ 23 + 1) * V -> V <= S * r -> S <= S1 ->
  2 ^ 23 * S1 <= (2 ^ 23 + 1) * V1 -> V1 * c <= C * K ->
  2 * C * r <= c ->
  P < K.
Proof.
  intros Hr Hc HC HV1 HP HV HS HS1 HVc Hthin.
  change (2 ^ 23) with 8388608 in *.
  pose proof K_pos as HK.
  assert (H1 : S * r <= S1 * r) by (apply Z.mul_le_mono_nonneg_r; lia).
  assert (H2 : 8388608 * (S1 * r) <= 8388609 * (V1 * r)).
  { replace (8388608 * (S1 * r)) with (8388608 * S1 * r) by ring.
    replace (8388609 * (V1 * r)) with (8388609 * V1 * r) by ring.
    apply Z.mul_le_mono_nonneg_r; lia. }
  assert (H3 : 2 * (V1 * r) <= K).
  { destruct (Z.le_gt_cases (2 * (V1 * r)) K) as [|Hgt]; [assumption|exfalso].
    assert (K * c < 2 * (V1 * r) * c) by (apply Z.mul_lt_mono_pos_r; lia).
    assert (V1 * c * (2 * r) <= C * K * (2 * r))
      by (apply Z.mul_le_mono_nonneg_r; lia).
    assert (2 * C * r * K <= c * K) by (apply Z.mul_le_mono_nonneg_r; lia).
    lia. }
  lia.
Qed.

(** The product of the ratio with the dimension [r], when the two
    quotients are [X / x] and [C / c] and [r] is small against [c]. *)
Lemma product_vanishes ratio q fr r c C V1 U1 :
  normal ratio -> -47 <= expo ratio <= 1 ->
  normal fr -> sc fr = r * K -> -23 <= expo fr <= 0 ->
  0 < r -> 0 < c -> 0 <= C ->
  brackets q V1 U1 -> V1 * c <= C * K -> sc ratio <= sc q ->
  2 * C * r <= c ->
  sc (fmul ratio fr) / K = 0.
Proof.
  intros Hnr Her Hnf Hsf Hef Hr Hc HC Hq HV1 Hle Hthin.
  destruct (fmul_normal ratio fr Hnr Hnf) as (Hn & E & T & HE & HeE & Hb & Hlo & _);
    [lia|].
  pose proof K_pos as HK. pose proof (sc_pos _ Hn) as Hpos.
  rewrite Hsf in Hlo.
  assert (Hlo' : T * 2 ^ (E + 149) <= sc ratio * r).
  { apply (Z.mul_le_mono_pos_r _ _ K HK).
    replace (sc ratio * r * K) with (sc ratio * (r * K)) by ring. exact Hlo. }
  apply Z.div_small. split; [lia|].
  apply (strip_arith _ (T * 2 ^ (E + 149)) (sc ratio) (sc q) V1 r c C);
    try assumption.
  - destruct Hq as (HU & HV & _). change (2 ^ 23) with 8388608 in HV. lia.
  - eapply brackets_upper; eassumption.
  - eapply brackets_upper; eassumption.
Qed.

(** X3.  A raster so flat that twice the bound on the columns times its
    rows does not reach its columns is given a frame of no rows at all,
    and a raster that narrow the other way a frame of no columns: the
    truncation takes the dimension to zero, and the matrix handed on is
    empty. *)
Theorem thin_raster_vanishes maxcols maxrows img :
  0 < rows img < 2 ^ 24 -> 0 < cols img < 2 ^ 24 ->
  0 < maxrows < 2 ^ 22 -> 0 < maxcols < 2 ^ 22 ->
  2 * maxcols * rows img <= cols img \/ 2 * maxrows * cols img <= rows img ->
  exists out,
    image maxcols maxrows img = Some out /\ empty out = true
    /\ (2 * maxcols * rows img <= cols img -> rows out = 0)
    /\ (2 * maxrows * cols img <= rows img -> cols out = 0).
Proof.
  intros Hr Hc HR HC Hthin.
  assert (H22 : 2 ^ 22 < 2 ^ 24) by reflexivity.
  destruct (float_of_int_normal (rows img) Hr) as (Nr & Sr & Er).
  destruct (float_of_int_normal (cols img) Hc) as (Nc & Sc & Ec).
  destruct (float_of_int_normal maxrows) as (NR & SR & ER); [lia|].
  destruct (float_of_int_normal maxcols) as (NC & SC & EC); [lia|].
  destruct (quotient_brackets _ _ maxcols (cols img) NC SC EC Nc Sc Ec)
    as (_ & _ & V1 & U1 & B1 & L1 & _); [lia|lia|].
  destruct (quotient_brackets _ _ maxrows (rows img) NR SR ER Nr Sr Er)
    as (_ & _ & V2 & U2 & B2 & L2 & _); [lia|lia|].
  fold (ratio1 maxcols img) in B1. fold (ratio2 maxrows img) in B2.
  destruct (ratio_cases maxcols maxrows img)
    as (N1 & N2 & Nq & Eq & Hmin); try lia.
  assert (Le1 : sc (ratio maxcols maxrows img) <= sc (ratio1 maxcols img))
    by (destruct Hmin as [[-> ?]|[-> ?]]; lia).
  assert (Le2 : sc (ratio maxcols maxrows img) <= sc (ratio2 maxrows img))
    by (destruct Hmin as [[-> ?]|[-> ?]]; lia).
  destruct (image_of_products maxcols maxrows img Hr Hc HR HC)
    as (Himg & Bpr & Bpc).
  assert (Zr : 2 * maxcols * rows img <= cols img ->
               sc (fmul (ratio maxcols maxrows img) (float_of_int (rows img))) / K
               = 0).
  { intros H. apply (product_vanishes _ (ratio1 maxcols img) _ (rows img)
                       (cols img) maxcols V1 U1); auto; lia. }
  assert (Zc : 2 * maxrows * cols img <= rows img ->
               sc (fmul (ratio maxcols maxrows img) (float_of_int (cols img))) / K
               = 0).
  { intros H. apply (product_vanishes _ (ratio2 maxrows img) _ (cols img)
                       (rows img) maxrows V2 U2); auto; lia. }
  eexists. split; [exact Himg|]. cbn [rows cols]. unfold empty. cbn [rows cols].
  split; [|split; assumption].
  destruct Hthin as [H|H]; [rewrite (Zr H)|rewrite (Zc H)];
    [reflexivity|rewrite Z.mul_0_r; reflexivity].
Qed.


(** Single precision multiplication commutes. *)
Lemma fmul_comm a b : fmul a b = fmul b a.
Proof.
  unfold fmul.
  destruct a as [sa|sa| |sa ma ea], b as [sb|sb| |sb mb eb]; cbn [SFmul];
    try reflexivity; try (rewrite xorb_comm; reflexivity).
  rewrite xorb_comm, Pos.mul_comm, Z.add_comm. reflexivity.
Qed.

(** X22.  The frame and the destination triangle of the warp agree: the
    numbers of columns and rows given to [cv::Mat::zeros] are the
    coordinates [img.cols * ratio] and [img.rows * ratio] of the triangle
    cut to integers, for every raster and bound; and in the range where
    the frame is defined the far corners of the raster are sent onto the
    edge of the frame or beyond it by less than one pixel. *)
Theorem frame_matches_destination_triangle maxcols maxrows img :
  image_cols maxcols maxrows img = int_of_float (dstTri_1_x maxcols maxrows img)
  /\ image_rows maxcols maxrows img
     = int_of_float (dstTri_2_y maxcols maxrows img)
  /\ (0 < rows img < 2 ^ 24 -> 0 < cols img < 2 ^ 24 ->
      0 < maxrows < 2 ^ 22 -> 0 < maxcols < 2 ^ 22 ->
      exists out,
        image maxcols maxrows img = Some out
        /\ cols out * K <= sc (dstTri_1_x maxcols maxrows img)
           < (cols out + 1) * K
        /\ rows out * K <= sc (dstTri_2_y maxcols maxrows img)
           < (rows out + 1) * K).
Proof.
  unfold image_cols, image_rows, dstTri_1_x, dstTri_2_y.
  rewrite (fmul_comm (float_of_int (cols img))),
    (fmul_comm (float_of_int (rows img))).
  split; [reflexivity|split; [reflexivity|]].
  intros Hr Hc HR HC.
  destruct (image_of_products maxcols maxrows img Hr Hc HR HC) as (Himg & _).
  pose proof K_pos as HK.
  eexists. split; [exact Himg|]. cbn [rows cols].
  split.
  - pose proof (Z.mul_div_le
                  (sc (fmul (ratio maxcols maxrows img) (float_of_int (cols img))))
                  K HK).
    pose proof (Z.mul_succ_div_gt
                  (sc (fmul (ratio maxcols maxrows img) (float_of_int (cols img))))
                  K HK).
    lia.
  - pose proof (Z.mul_div_le
                  (sc (fmul (ratio maxcols maxrows img) (float_of_int (rows img))))
                  K HK).
    pose proof (Z.mul_succ_div_gt
                  (sc (fmul (ratio maxcols maxrows img) (float_of_int (rows img))))
                  K HK).
    lia.
Qed.

(** *** Concrete rasters *)

Lemma oversized_raster_shrinks_witness :
  SFltb (ratio 100 100 (mkMat 300 200)) one = true
  /\ exists out,
       image 100 100 (mkMat 300 200) = Some out
       /\ 0 <= rows out <= Z.min 100 (rows (mkMat 300 200))
       /\ 0 <= cols out <= Z.min 100 (cols (mkMat 300 200)).
Proof.
  apply (oversized_raster_shrinks 100 100 (mkMat 300 200));
    try (split; reflexivity).
  left. reflexivity.
Defined.

Lemma fitting_raster_keeps_size_witness :
  ratio 640 480 (mkMat 480 320) = one
  /\ image 640 480 (mkMat 480 320)
     = Some (mkMat (rows (mkMat 480 320)) (cols (mkMat 480 320))).
Proof.
  apply (fitting_raster_keeps_size 640 480 (mkMat 480 320)).
  - simpl. lia.
  - simpl. lia.
  - reflexivity.
  - reflexivity.
  - left. reflexivity.
Defined.

Lemma thin_raster_vanishes_witness :
  exists out,
    image 100 100 (mkMat 1 200) = Some out /\ empty out = true
    /\ (2 * 100 * rows (mkMat 1 200) <= cols (mkMat 1 200) -> rows out = 0)
    /\ (2 * 100 * cols (mkMat 1 200) <= rows (mkMat 1 200) -> cols out = 0).
Proof.
  apply (thin_raster_vanishes 100 100 (mkMat 1 200));
    try (split; reflexivity).
  left. simpl. lia.
Defined.


(** A raster of one row and 200 columns in a bound of 100 by 100: the
    frame has 100 columns and no row. *)
Example image_strip : image 100 100 (mkMat 1 200) = Some (mkMat 0 100).
Proof. vm_compute. reflexivity. Qed.

End ScalerFacts.

(** ** Enumeration *)

Module EnumeratorFacts.
Import Enumerator.

(** Induction on trees, with the hypothesis for every child. *)
Lemma node_induction (P : node -> Prop) :
  P File ->
  (forall r entries,
      Forall (fun e : string * node => P (snd e)) entries ->
      P (Dir r entries)) ->
  forall n, P n.
Proof.
  intros HF HD. fix IH 1. intros [|r entries]; [exact HF|].
  apply HD. induction entries as [|[d_name child] entries IHe];
    constructor; [apply IH|exact IHe].
Qed.

Lemma strcmp_zero a b : (strcmp a b =? 0) = String.eqb a b.
Proof.
  unfold strcmp. destruct (String.eqb_spec a b) as [->|Hne].
  - pose proof (String.compare_antisym b b) as H.
    destruct (String.compare b b); simpl in H; try discriminate; reflexivity.
  - destruct (String.compare a b) eqn:E; try reflexivity.
    apply String.compare_eq_iff in E. contradiction.
Qed.

(** The entries passed over are those named "." and "..". *)
Lemma ignored_dot d_name :
  ignored d_name = true <-> d_name = "."%string \/ d_name = ".."%string.
Proof.
  unfold ignored.
  rewrite !strcmp_zero, negb_andb, !negb_involutive, orb_true_iff,
    !String.eqb_eq.
  reflexivity.
Qed.

Lemma each_nil dirname files : each dirname [] files = inr files.
Proof. reflexivity. Qed.

Lemma each_cons dirname d_name child ents files :
  each dirname ((d_name, child) :: ents) files
  = if ignored d_name then each dirname ents files
    else if is_directory child then
      match file_list (file_name dirname d_name) child files with
      | inl msg => inl msg
      | inr files => each dirname ents files
      end
    else each dirname ents (files ++ [file_name dirname d_name]).
Proof. reflexivity. Qed.

Lemma file_list_eq dirname n files :
  file_list dirname n files
  = match n with
    | Dir true entries => each dirname entries files
    | Dir false _ | File => inl ("Unknown directory " +:+ dirname)
    end.
Proof. destruct n as [|[] ?]; reflexivity. Qed.

Lemma regular_files_eq dirname n :
  regular_files dirname n
  = match n with
    | File => []
    | Dir _ entries => flat_map (entry_files dirname) entries
    end.
Proof. destruct n; reflexivity. Qed.

(** Whenever [file_list] returns, it has appended the regular files in
    depth-first order. *)
Lemma file_list_returns n :
  forall dirname files l,
    file_list dirname n files = inr l ->
    l = files ++ regular_files dirname n.
Proof.
  induction n as [|r entries IH] using node_induction;
    intros dirname files l; rewrite file_list_eq, regular_files_eq.
  - discriminate.
  - destruct r; [|discriminate].
    revert files. induction IH as [|[d_name child] entries Hc _ IHe];
      intros files.
    + rewrite each_nil. intros [= <-]. symmetry. apply app_nil_r.
    + rewrite each_cons. cbn [flat_map]. unfold entry_files at 1. cbn [fst snd].
      destruct (ignored d_name); [apply IHe|].
      destruct child as [|r' entries']; cbn [is_directory].
      * intros H. apply IHe in H. rewrite <- app_assoc in H. exact H.
      * destruct (file_list (file_name dirname d_name) (Dir r' entries') files)
          as [msg|files'] eqn:E; [discriminate|].
        apply Hc in E. subst files'. intros H. apply IHe in H.
        rewrite <- app_assoc in H. exact H.
Qed.

(** It returns when every directory it enters can be opened. *)
Lemma file_list_total n :
  forall dirname files,
    is_directory n = true -> all_readable n = true ->
    exists l, file_list dirname n files = inr l.
Proof.
  induction n as [|r entries IH] using node_induction;
    intros dirname files Hd Hr; [discriminate|].
  rewrite file_list_eq. cbn [all_readable] in Hr.
  apply andb_prop in Hr as [-> Hr].
  revert files. induction IH as [|[d_name child] entries Hc _ IHe];
    intros files.
  - rewrite each_nil. eauto.
  - rewrite each_cons. cbn [forallb fst snd] in Hr.
    apply andb_prop in Hr as [Hr1 Hr2].
    destruct (ignored d_name); [apply (IHe eq_refl Hr2)|]. cbn [orb] in Hr1.
    destruct child as [|r' entries']; cbn [is_directory];
      [apply (IHe eq_refl Hr2)|].
    cbn [snd] in Hc.
    destruct (Hc (file_name dirname d_name) files eq_refl Hr1) as [l ->].
    apply (IHe eq_refl Hr2).
Qed.

(** *** Paths as strings *)

Lemma app_cons c a b : String c a +:+ b = String c (a +:+ b).
Proof. reflexivity. Qed.

Lemma app_empty_r a : a +:+ "" = a.
Proof. induction a as [|c a IH]; [reflexivity|]. rewrite app_cons, IH. reflexivity. Qed.

Lemma app_assoc a b c : (a +:+ b) +:+ c = a +:+ (b +:+ c).
Proof.
  induction a as [|x a IH]; [reflexivity|]. rewrite !app_cons, IH. reflexivity.
Qed.

Lemma app_length a b :
  String.length (a +:+ b) = (String.length a + String.length b)%nat.
Proof.
  induction a as [|x a IH]; [reflexivity|].
  rewrite app_cons. simpl. rewrite IH. reflexivity.
Qed.

Lemma app_cancel a b c : a +:+ b = a +:+ c -> b = c.
Proof.
  induction a as [|x a IH]; [auto|]. rewrite !app_cons. intros [= H]. auto.
Qed.

Lemma name_split n1 :
  forall n2 x y,
    has_slash n1 = false -> has_slash n2 = false ->
    continues x -> continues y ->
    n1 +:+ x = n2 +:+ y -> n1 = n2 /\ x = y.
Proof.
  induction n1 as [|c n1 IH]; intros [|c' n2] x y H1 H2 Hx Hy E.
  - auto.
  - exfalso. change ("" +:+ x) with x in E. rewrite app_cons in E.
    destruct Hx as [->|[r ->]]; [discriminate|].
    change ("/" +:+ r) with (String "/" r) in E. injection E as <- _.
    discriminate.
  - exfalso. change ("" +:+ y) with y in E. rewrite app_cons in E.
    destruct Hy as [->|[r ->]]; [discriminate|].
    change ("/" +:+ r) with (String "/" r) in E. injection E as -> _.
    discriminate.
  - rewrite !app_cons in E. injection E as <- E.
    simpl in H1, H2. apply orb_false_elim in H1 as [_ H1].
    apply orb_false_elim in H2 as [_ H2].
    destruct (IH n2 x y H1 H2 Hx Hy E) as [-> ->]. auto.
Qed.

Lemma file_name_split dirname n1 n2 x y :
  has_slash n1 = false -> has_slash n2 = false ->
  continues x -> continues y ->
  file_name dirname n1 +:+ x = file_name dirname n2 +:+ y ->
  n1 = n2 /\ x = y.
Proof.
  intros H1 H2 Hx Hy E. unfold file_name in E.
  rewrite !app_assoc in E. do 2 apply app_cancel in E.
  eapply name_split; eassumption.
Qed.

(** *** Reaching a node *)

Lemma reaches_prefix dirname n p m :
  reaches dirname n p m -> exists r, p = dirname +:+ "/" +:+ r.
Proof.
  induction 1 as [dirname r entries d_name child Hin Hig
                 |dirname r entries d_name child p m Hin Hig _ [r' ->]].
  - exists d_name. reflexivity.
  - exists (d_name +:+ "/" +:+ r'). unfold file_name.
    rewrite !app_assoc. reflexivity.
Qed.

Lemma reaches_first dirname r entries p m :
  reaches dirname (Dir r entries) p m ->
  exists d_name child rest,
    In (d_name, child) entries /\ ignored d_name = false
    /\ p = file_name dirname d_name +:+ rest
    /\ ((rest = ""%string /\ m = child)
        \/ ((exists r', rest = "/" +:+ r')
            /\ reaches (file_name dirname d_name) child p m)).
Proof.
  intros H. inversion H as [? ? ? d_name child Hin Hig
                           |? ? ? d_name child ? ? Hin Hig Hbelow]; subst.
  - exists d_name, m, ""%string. rewrite app_empty_r. auto 6.
  - destruct (reaches_prefix _ _ _ _ Hbelow) as [r' E].
    exists d_name, child, ("/" +:+ r'). eauto 8.
Qed.

Lemma distinct_cons x l :
  distinct (x :: l) = true -> ~ In x l /\ distinct l = true.
Proof.
  simpl. intros H. apply andb_prop in H as [H1 H2]. split; [|exact H2].
  intros Hin. apply negb_true_iff in H1.
  assert (existsb (String.eqb x) l = true); [|congruence].
  apply existsb_exists. exists x. split; [exact Hin|apply String.eqb_refl].
Qed.

Lemma distinct_functional (entries : list (string * node)) d_name c1 c2 :
  distinct (map fst entries) = true ->
  In (d_name, c1) entries -> In (d_name, c2) entries -> c1 = c2.
Proof.
  induction entries as [|[n c] entries IH]; [contradiction|].
  cbn [map fst]. intros Hd. apply distinct_cons in Hd as [Hn Hd].
  intros [E1|H1] [E2|H2].
  - congruence.
  - injection E1 as -> ->. contradiction Hn.
    apply (in_map fst) in H2. exact H2.
  - injection E2 as -> ->. contradiction Hn.
    apply (in_map fst) in H1. exact H1.
  - auto.
Qed.

Lemma well_named_dir r entries :
  well_named (Dir r entries) = true ->
  distinct (map fst entries) = true
  /\ forall d_name child, In (d_name, child) entries ->
       has_slash d_name = false /\ well_named child = true.
Proof.
  cbn [well_named]. intros H. apply andb_prop in H as [Hd Hall].
  split; [exact Hd|]. intros d_name child Hin.
  rewrite forallb_forall in Hall. specialize (Hall _ Hin). cbn [fst snd] in Hall.
  apply andb_prop in Hall as [Hs Hw]. apply negb_true_iff in Hs. auto.
Qed.

(** *** Membership *)

Lemma regular_files_reaches n :
  forall dirname p, In p (regular_files dirname n) -> reaches dirname n p File.
Proof.
  induction n as [|r entries IH] using node_induction; intros dirname p;
    rewrite regular_files_eq; [contradiction|].
  intros Hin. apply in_flat_map in Hin as ([d_name child] & He & Hp).
  rewrite List.Forall_forall in IH. specialize (IH _ He). cbn [snd] in IH.
  unfold entry_files in Hp. cbn [fst snd] in Hp.
  destruct (ignored d_name) eqn:Hig; [contradiction|].
  destruct child as [|r' entries'].
  - destruct Hp as [<-|[]]. apply reaches_entry; assumption.
  - eapply reaches_below; eauto.
Qed.

Lemma reaches_regular_files dirname n p m :
  reaches dirname n p m -> m = File -> In p (regular_files dirname n).
Proof.
  induction 1 as [dirname r entries d_name child Hin Hig
                 |dirname r entries d_name child p m Hin Hig Hbelow IH];
    intros Hm; rewrite regular_files_eq; apply in_flat_map;
    exists (d_name, child); (split; [exact Hin|]);
    unfold entry_files; cbn [fst snd]; rewrite Hig.
  - rewrite Hm. left. reflexivity.
  - specialize (IH Hm). destruct child; [contradiction|exact IH].
Qed.

(** *** One path, one node *)

Lemma reaches_functional n :
  well_named n = true ->
  forall dirname p m1 m2,
    reaches dirname n p m1 -> reaches dirname n p m2 -> m1 = m2.
Proof.
  induction n as [|r entries IH] using node_induction; intros Hw dirname p m1 m2 H1 H2.
  - inversion H1.
  - apply well_named_dir in Hw as [Hd Hw].
    apply reaches_first in H1 as (n1 & c1 & x & Hin1 & _ & E1 & C1).
    apply reaches_first in H2 as (n2 & c2 & y & Hin2 & _ & E2 & C2).
    destruct (Hw _ _ Hin1) as [Hs1 Hw1]. destruct (Hw _ _ Hin2) as [Hs2 _].
    assert (Hxy : n1 = n2 /\ x = y).
    { apply (file_name_split dirname); try assumption; try congruence.
      - destruct C1 as [[-> _]|[[r' ->] _]]; [left|right]; eauto.
      - destruct C2 as [[-> _]|[[r' ->] _]]; [left|right]; eauto. }
    destruct Hxy as [<- <-].
    assert (c1 = c2) as <- by (eapply distinct_functional; eassumption).
    destruct C1 as [[-> ->]|[[r1 ->] B1]], C2 as [[E ->]|[[r2 E] B2]];
      try discriminate; [reflexivity|].
    rewrite List.Forall_forall in IH. eapply (IH _ Hin1); eauto.
Qed.

(** *** No path twice *)

Lemma entry_files_shape dirname d_name child p :
  In p (entry_files dirname (d_name, child)) ->
  ignored d_name = false
  /\ exists rest, p = file_name dirname d_name +:+ rest /\ continues rest.
Proof.
  unfold entry_files. cbn [fst snd].
  destruct (ignored d_name); [contradiction|]. intros Hin. split; [reflexivity|].
  destruct child as [|r entries].
  - destruct Hin as [<-|[]]. exists ""%string. rewrite app_empty_r.
    split; [reflexivity|left; reflexivity].
  - apply regular_files_reaches, reaches_prefix in Hin as [r' ->].
    exists ("/" +:+ r'). split; [reflexivity|right; eauto].
Qed.

Lemma regular_files_NoDup n :
  well_named n = true -> forall dirname, NoDup (regular_files dirname n).
Proof.
  induction n as [|r entries IH] using node_induction; intros Hw dirname;
    rewrite regular_files_eq; [constructor|].
  apply well_named_dir in Hw as [Hd Hw].
  induction IH as [|[d_name child] entries Hc _ IHe]; [constructor|].
  cbn [flat_map]. cbn [map fst] in Hd. apply distinct_cons in Hd as [Hn Hd].
  apply NoDup_app. split; [|split].
  - unfold entry_files. cbn [fst snd]. destruct (ignored d_name); [constructor|].
    destruct child as [|r' entries'].
    + apply NoDup_singleton.
    + apply Hc. apply (Hw d_name). left. reflexivity.
  - intros p Hp Hp'. apply list_elem_of_In in Hp, Hp'.
    apply in_flat_map in Hp' as ([d_name' child'] & He' & Hp').
    apply entry_files_shape in Hp as (_ & x & -> & Hx).
    apply entry_files_shape in Hp' as (_ & y & E & Hy).
    destruct (Hw d_name child (or_introl eq_refl)) as [Hs _].
    destruct (Hw d_name' child' (or_intror He')) as [Hs' _].
    destruct (file_name_split dirname d_name d_name' x y Hs Hs' Hx Hy E)
      as [-> _].
    apply Hn. apply (in_map fst) in He'. exact He'.
  - apply IHe; [exact Hd|]. intros n' c' Hin. apply Hw. right. exact Hin.
Qed.

(** C7.  In a tree named as file systems name their entries, [file_list]
    returns, whenever it returns, the vector it was given followed by the
    regular files below the root in depth-first order, and it does return
    when the root and every directory entered can be opened.  That list
    holds a path exactly when the path reaches a node that is not a
    directory through entries other than "." and "..", holds no path
    twice, and holds neither the path of a directory below the root nor
    the root itself. *)
Theorem file_list_enumerates dirname root files :
  well_named root = true ->
  (forall l, file_list dirname root files = inr l ->
             l = files ++ regular_files dirname root)
  /\ (is_directory root = true -> all_readable root = true ->
      file_list dirname root files = inr (files ++ regular_files dirname root))
  /\ (forall p, In p (regular_files dirname root)
                <-> reaches dirname root p File)
  /\ NoDup (regular_files dirname root)
  /\ (forall p m, reaches dirname root p m -> is_directory m = true ->
                  ~ In p (regular_files dirname root))
  /\ ~ In dirname (regular_files dirname root).
Proof.
  intros Hw. repeat split.
  - apply file_list_returns.
  - intros Hd Hr. destruct (file_list_total root dirname files Hd Hr) as [l E].
    rewrite E. f_equal. apply file_list_returns in E. exact E.
  - apply regular_files_reaches.
  - intros H. eapply reaches_regular_files; eauto.
  - apply regular_files_NoDup, Hw.
  - intros p m Hm Hd Hin. apply regular_files_reaches in Hin.
    rewrite (reaches_functional root Hw _ _ _ _ Hm Hin) in Hd. discriminate.
  - intros Hin. apply regular_files_reaches, reaches_prefix in Hin as [r E].
    apply (f_equal String.length) in E. rewrite app_length in E.
    rewrite app_cons in E. simpl in E. lia.
Qed.

Lemma file_list_enumerates_witness :
  (forall l, file_list "photos" photos [] = inr l ->
             l = [] ++ regular_files "photos" photos)
  /\ (is_directory photos = true -> all_readable photos = true ->
      file_list "photos" photos [] = inr ([] ++ regular_files "photos" photos))
  /\ (forall p, In p (regular_files "photos" photos)
                <-> reaches "photos" photos p File)
  /\ NoDup (regular_files "photos" photos)
  /\ (forall p m, reaches "photos" photos p m -> is_directory m = true ->
                  ~ In p (regular_files "photos" photos))
  /\ ~ In "photos"%string (regular_files "photos" photos).
Proof. apply (file_list_enumerates "photos" photos []). reflexivity. Defined.

Example file_list_photos :
  file_list "photos" photos []
  = inr ["photos/a.png"; "photos/trip/x.jpg"; "photos/trip/day2/y.jpg";
         "photos/trip/notes.txt"; "photos/b.png"]%string.
Proof. reflexivity. Qed.

(** *** Failure of the enumeration *)

(** Whenever [file_list] returns, the root is a directory and every
    directory entered could be opened. *)
Lemma file_list_returns_readable n :
  forall dirname files l,
    file_list dirname n files = inr l ->
    is_directory n = true /\ all_readable n = true.
Proof.
  induction n as [|r entries IH] using node_induction;
    intros dirname files l; rewrite file_list_eq.
  - discriminate.
  - destruct r; [|discriminate]. intros H. split; [reflexivity|].
    cbn [all_readable andb].
    revert files H. induction IH as [|[d_name child] entries Hc _ IHe];
      intros files; [reflexivity|].
    rewrite each_cons. cbn [forallb fst snd].
    destruct (ignored d_name); [apply IHe|]. cbn [orb].
    destruct child as [|r' entries']; cbn [is_directory].
    + apply IHe.
    + destruct (file_list (file_name dirname d_name) (Dir r' entries') files)
        as [msg|files'] eqn:E; [discriminate|].
      cbn [snd] in Hc. apply Hc in E as [_ ->]. apply IHe.
Qed.

(** X5.  The string thrown is "Unknown directory " followed by the path
    of something [opendir] fails on: the path given to the outermost call
    when that is no directory or cannot be read, otherwise the path of an
    unreadable directory reached below the root. *)
Theorem file_list_message n :
  forall dirname files msg,
    file_list dirname n files = inl msg ->
    exists path m,
      msg = "Unknown directory " +:+ path
      /\ openable m = false
      /\ (path = dirname /\ m = n
          \/ reaches dirname n path m /\ is_directory m = true).
Proof.
  induction n as [|r entries IH] using node_induction;
    intros dirname files msg; rewrite file_list_eq.
  - intros [= <-]. exists dirname, File. auto.
  - destruct r.
    2:{ intros [= <-]. exists dirname, (Dir false entries). auto. }
    intros H.
    assert (Hin : exists path m d_name child,
               msg = "Unknown directory " +:+ path
               /\ openable m = false
               /\ In (d_name, child) entries /\ ignored d_name = false
               /\ is_directory child = true
               /\ (path = file_name dirname d_name /\ m = child
                   \/ reaches (file_name dirname d_name) child path m
                      /\ is_directory m = true)).
    { revert files H. induction IH as [|[d_name child] entries Hc _ IHe];
        intros files; [discriminate|].
      rewrite each_cons.
      assert (Hlift : (exists path m d_name child,
                 msg = "Unknown directory " +:+ path
                 /\ openable m = false
                 /\ In (d_name, child) entries /\ ignored d_name = false
                 /\ is_directory child = true
                 /\ (path = file_name dirname d_name /\ m = child
                     \/ reaches (file_name dirname d_name) child path m
                        /\ is_directory m = true)) ->
              exists path m d_name' child',
                 msg = "Unknown directory " +:+ path
                 /\ openable m = false
                 /\ In (d_name', child') ((d_name, child) :: entries)
                 /\ ignored d_name' = false
                 /\ is_directory child' = true
                 /\ (path = file_name dirname d_name' /\ m = child'
                     \/ reaches (file_name dirname d_name') child' path m
                        /\ is_directory m = true)).
      { intros (path & m & d' & c' & H1 & H2 & H3 & H4).
        exists path, m, d', c'. repeat split; try tauto. right. exact H3. }
      destruct (ignored d_name) eqn:Hig; [intros H; apply Hlift; eauto|].
      destruct (is_directory child) eqn:Hd; [|intros H; apply Hlift; eauto].
      destruct (file_list (file_name dirname d_name) child files)
        as [msg'|files'] eqn:E; [|intros H; apply Hlift; eauto].
      intros [= ->]. cbn [snd] in Hc.
      destruct (Hc _ _ _ E) as (path & m & H1 & H2 & H3).
      exists path, m, d_name, child. repeat split; auto. left. reflexivity. }
    destruct Hin as (path & m & d_name & child & H1 & H2 & H3 & H4 & H5 & H6).
    exists path, m. repeat split; auto. right.
    destruct H6 as [[-> ->]|[H6 H7]].
    + split; [|exact H5]. apply reaches_entry; assumption.
    + split; [|exact H7]. eapply reaches_below; eassumption.
Qed.

(** X6.  [file_list] throws exactly when the root is not a directory or
    some directory of the traversal, the root included, cannot be opened;
    one such directory anywhere below the root is enough for no list to
    be returned at all.  Directories behind entries named "." and ".."
    do not count: they are not entered. *)
Theorem file_list_throws_iff dirname root files :
  (exists msg, file_list dirname root files = inl msg)
  <-> is_directory root && all_readable root = false.
Proof.
  split.
  - intros [msg H].
    destruct (is_directory root && all_readable root) eqn:E; [|reflexivity].
    apply andb_prop in E as [Hd Hr].
    destruct (file_list_total root dirname files Hd Hr) as [l Hl].
    congruence.
  - intros H. destruct (file_list dirname root files) as [msg|l] eqn:E; [eauto|].
    apply file_list_returns_readable in E as [Hd Hr].
    rewrite Hd, Hr in H. discriminate.
Qed.

Lemma each_visible dirname entries :
  forall files,
    each dirname (visible entries) files = each dirname entries files.
Proof.
  induction entries as [|[d_name child] entries IH]; intros files;
    [reflexivity|].
  unfold visible in *. cbn [List.filter fst]. rewrite (each_cons _ _ _ entries).
  destruct (ignored d_name) eqn:Hig; cbn [negb]; [apply IH|].
  rewrite each_cons, Hig.
  destruct (is_directory child); [|apply IH].
  destruct (file_list (file_name dirname d_name) child files); [reflexivity|].
  apply IH.
Qed.

(** X7.  Entries named "." and ".." have no effect at all: with them
    taken out of the listing of a directory, [file_list] returns the same
    vector or throws the same string, whatever those entries are, a file,
    a directory or a directory that cannot be read. *)
Theorem file_list_ignores_dots dirname readable entries files :
  file_list dirname (Dir readable (visible entries)) files
  = file_list dirname (Dir readable entries) files.
Proof.
  rewrite !file_list_eq. destruct readable; [|reflexivity].
  apply each_visible.
Qed.

(** X8.  Every path returned is the directory name given, the separator
    and a relative part, and the vector passed in comes back as the front
    of the result, unchanged. *)
Theorem file_list_paths dirname root files l :
  file_list dirname root files = inr l ->
  exists found,
    l = files ++ found
    /\ Forall (fun p => exists rel, p = dirname +:+ "/" +:+ rel) found.
Proof.
  intros H. apply file_list_returns in H.
  exists (regular_files dirname root). split; [exact H|].
  apply List.Forall_forall. intros p Hp.
  apply regular_files_reaches in Hp. eapply reaches_prefix. exact Hp.
Qed.

Lemma each_accumulates dirname entries :
  Forall (fun e : string * node =>
            forall dirname files,
              file_list dirname (snd e) files
              = match file_list dirname (snd e) [] with
                | inl msg => inl msg
                | inr found => inr (files ++ found)
                end) entries ->
  forall files,
    each dirname entries files
    = match each dirname entries [] with
      | inl msg => inl msg
      | inr found => inr (files ++ found)
      end.
Proof.
  induction 1 as [|[d_name child] entries Hc _ IHe]; intros files.
  - rewrite !each_nil, app_nil_r. reflexivity.
  - rewrite !each_cons. cbn [snd] in Hc.
    destruct (ignored d_name); [apply IHe|].
    destruct (is_directory child).
    + rewrite (Hc _ files).
      destruct (file_list (file_name dirname d_name) child []) as [msg|l1];
        [reflexivity|].
      rewrite (IHe (files ++ l1)), (IHe l1).
      destruct (each dirname entries []) as [msg|l2]; [reflexivity|].
      rewrite <- List.app_assoc. reflexivity.
    + rewrite (IHe (files ++ _)), (IHe ([] ++ _)).
      destruct (each dirname entries []) as [msg|l2]; [reflexivity|].
      rewrite <- List.app_assoc. reflexivity.
Qed.

(** X9.  The vector passed in only serves as the front of the result:
    [file_list] on a vector [files] throws what it throws on the empty
    vector, and otherwise returns [files] followed by what it returns on
    the empty vector. *)
Theorem file_list_accumulates root :
  forall dirname files,
    file_list dirname root files
    = match file_list dirname root [] with
      | inl msg => inl msg
      | inr found => inr (files ++ found)
      end.
Proof.
  induction root as [|r entries IH] using node_induction;
    intros dirname files; rewrite !file_list_eq; [reflexivity|].
  destruct r; [|reflexivity]. apply each_accumulates. exact IH.
Qed.

(** *** Concrete trees *)

Lemma file_list_message_witness :
  exists path m,
    "Unknown directory album/private"%string = "Unknown directory " +:+ path
    /\ openable m = false
    /\ (path = "album"%string /\ m = album
        \/ reaches "album" album path m /\ is_directory m = true).
Proof.
  apply (file_list_message album "album" [] "Unknown directory album/private").
  reflexivity.
Defined.

Lemma file_list_paths_witness :
  exists found,
    ["seen"; "photos/a.png"; "photos/trip/x.jpg"; "photos/trip/day2/y.jpg";
     "photos/trip/notes.txt"; "photos/b.png"]%string
    = (["seen"%string] ++ found)%list
    /\ Forall (fun p => exists rel, p = "photos" +:+ "/" +:+ rel) found.
Proof.
  apply (file_list_paths "photos" photos ["seen"%string]). reflexivity.
Defined.

(** The file found before the unreadable directory is lost with the
    exception. *)
Example file_list_album :
  file_list "album" album [] = inl "Unknown directory album/private"%string.
Proof. reflexivity. Qed.

End EnumeratorFacts.

(** ** Navigation: pruning *)

Module NavigationFacts.
Import Navigation.

Lemma to_size_t_small i : 0 <= i <= Scaler.INT_MAX -> to_size_t i = i.
Proof.
  intros Hi. unfold to_size_t. apply Z.mod_small.
  unfold Scaler.INT_MAX in Hi. split; [lia|].
  assert (2 ^ 31 < 2 ^ 64) by (apply Z.pow_lt_mono_r; lia).
  assert (2 ^ 31 = 2147483648) by reflexivity. lia.
Qed.

Lemma size_app (l k : list string) : size (l ++ k) = size l + size k.
Proof. unfold size. rewrite length_app. lia. Qed.

Lemma size_cons p (l : list string) : size (p :: l) = size l + 1.
Proof. unfold size. simpl. lia. Qed.

Lemma at_index_middle (pre : list string) p s :
  at_index (pre ++ p :: s) (size pre) = Some p.
Proof.
  unfold at_index, size.
  destruct (Z.leb_spec 0 (Z.of_nat (length pre))) as [_|]; [|lia].
  rewrite Nat2Z.id. apply list_lookup_middle. reflexivity.
Qed.

Lemma at_index_Some files i p :
  at_index files i = Some p ->
  exists pre s, files = pre ++ p :: s /\ i = size pre.
Proof.
  unfold at_index. destruct (Z.leb_spec 0 i) as [Hi|]; [|discriminate].
  intros Hp. apply list_elem_of_split_length in Hp.
  destruct Hp as (pre & s & -> & Hlen).
  exists pre, s. split; [reflexivity|]. unfold size. lia.
Qed.

Lemma erase_middle (pre : list string) p s :
  erase (pre ++ p :: s) (size pre) = Some (pre ++ s).
Proof.
  unfold erase. rewrite size_app, size_cons.
  assert (0 <= size pre) by (unfold size; lia).
  assert (0 <= size s) by (unfold size; lia).
  destruct (Z.leb_spec 0 (size pre)); [|lia].
  destruct (Z.ltb_spec (size pre) (size pre + (size s + 1))); [|lia].
  simpl. unfold size. rewrite Nat2Z.id. f_equal. apply delete_middle.
Qed.

Section Pruning.
Variable imread : string -> Mat.
Variable NDEBUG : bool.

Local Abbreviation erasures := (Navigation.erasures imread).
Local Abbreviation fetched_of := (Navigation.fetched_of imread).
Local Abbreviation undecodable := (Navigation.undecodable imread).

Lemma while_empty_nonempty fuel files i img tr :
  empty img = false ->
  while_empty imread fuel files i img tr = (tr, Fetched files img).
Proof. intros H. destruct fuel; simpl; rewrite H; reflexivity. Qed.

Lemma while_empty_empty fuel files i img tr :
  empty img = true ->
  while_empty imread (S fuel) files i img tr
  = match at_index files i, erase files i with
    | Some path, Some files =>
        let tr := tr ++ [Erase path] in
        if to_size_t i =? size files then (tr, EndOfCatalog files)
        else match at_index files i with
             | Some path =>
                 while_empty imread fuel files i (imread path)
                             (tr ++ [Imread path])
             | None => (tr, OutOfRange)
             end
    | _, _ => (tr, OutOfRange)
    end.
Proof. intros H. simpl. rewrite H. reflexivity. Qed.

Lemma while_empty_erasures pre :
  forall s p fuel tr,
    indexable (pre ++ p :: s) ->
    (length s < fuel)%nat ->
    while_empty imread fuel (pre ++ p :: s) (size pre) (imread p) tr
    = (tr ++ fst (erasures p s), fetched_of pre (snd (erasures p s))).
Proof.
  induction s as [|p' s IH]; intros p fuel tr Hidx Hfuel;
    (destruct fuel as [|fuel]; [simpl in Hfuel; lia|]);
    cbn [erasures]; destruct (empty (imread p)) eqn:Hp;
    try (rewrite while_empty_nonempty by assumption;
         simpl; rewrite app_nil_r; reflexivity);
    rewrite while_empty_empty by assumption;
    rewrite at_index_middle, erase_middle; cbv zeta.
  - rewrite app_nil_r, to_size_t_small, Z.eqb_refl; [reflexivity|].
    unfold indexable in Hidx. rewrite size_app in Hidx.
    unfold size in *. lia.
  - assert (Hidx' : indexable (pre ++ p' :: s)).
    { unfold indexable in *. rewrite size_app, size_cons in *.
      rewrite size_cons in Hidx. lia. }
    rewrite to_size_t_small.
    2:{ unfold indexable in Hidx'. rewrite size_app in Hidx'.
        unfold size in *. lia. }
    destruct (Z.eqb_spec (size pre) (size (pre ++ p' :: s))) as [E|_].
    { rewrite size_app, size_cons in E. unfold size in E. lia. }
    rewrite at_index_middle.
    rewrite IH by (auto; simpl in Hfuel; lia).
    destruct (erasures p' s) as [tr' rest]. simpl.
    rewrite <- !app_assoc. reflexivity.
Qed.

Lemma ensure_valid_at_erasures pre p s fuel tr :
  indexable (pre ++ p :: s) ->
  (length s < fuel)%nat ->
  ensure_valid_at imread fuel (pre ++ p :: s) (size pre) tr
  = (tr ++ Imread p :: fst (erasures p s),
     fetched_of pre (snd (erasures p s))).
Proof.
  intros Hidx Hfuel. unfold ensure_valid_at.
  rewrite at_index_middle, while_empty_erasures by assumption.
  rewrite <- app_assoc. reflexivity.
Qed.

Lemma erasures_skip bad good rest :
  Forall undecodable bad -> empty (imread good) = false ->
  forall p s, p :: s = bad ++ good :: rest ->
    Imread p :: fst (erasures p s) = failed bad ++ [Imread good]
    /\ snd (erasures p s) = good :: rest.
Proof.
  intros Hbad Hgood. induction Hbad as [|b bad Hb _ IH]; intros p s E.
  - simpl in E. injection E as -> ->.
    destruct rest; simpl; rewrite Hgood; auto.
  - simpl in E. injection E as -> ->. unfold undecodable in Hb.
    destruct (bad ++ good :: rest) as [|p' s'] eqn:E'.
    { destruct bad; discriminate. }
    destruct (IH p' s' eq_refl) as [IH1 IH2].
    cbn [erasures]. rewrite Hb.
    destruct (erasures p' s') as [tr r]. simpl in *.
    rewrite <- IH1. auto.
Qed.

Lemma erasures_all p s :
  Forall undecodable (p :: s) ->
  Imread p :: fst (erasures p s) = failed (p :: s)
  /\ snd (erasures p s) = [].
Proof.
  revert p. induction s as [|p' s IH]; intros p H;
    inversion H as [|? ? Hp Hs]; subst; unfold undecodable in Hp;
    cbn [erasures]; rewrite Hp.
  - auto.
  - destruct (IH p' Hs) as [IH1 IH2].
    destruct (erasures p' s) as [tr r]. simpl in *.
    rewrite <- IH1. auto.
Qed.

Lemma erasures_count p s :
  (failures (fst (erasures p s)) + length (snd (erasures p s))
   = S (length s))%nat.
Proof.
  revert p. induction s as [|p' s IH]; intros p; cbn [erasures];
    destruct (empty (imread p)); try reflexivity.
  specialize (IH p'). destruct (erasures p' s) as [tr r].
  unfold failures in *. simpl in *. lia.
Qed.

Lemma erasures_suffix p s :
  snd (erasures p s) = drop (failures (fst (erasures p s))) (p :: s).
Proof.
  revert p. induction s as [|p' s IH]; intros p; cbn [erasures];
    destruct (empty (imread p)); try reflexivity.
  specialize (IH p'). destruct (erasures p' s) as [tr r].
  unfold failures in *. simpl in *. exact IH.
Qed.

Lemma erasures_head p s q rest :
  snd (erasures p s) = q :: rest -> empty (imread q) = false.
Proof.
  revert p. induction s as [|p' s IH]; intros p; cbn [erasures];
    destruct (empty (imread p)) eqn:Hp; simpl;
    try discriminate; try (intros [= <- _]; exact Hp).
  specialize (IH p'). destruct (erasures p' s) as [tr r]. exact IH.
Qed.

Lemma erasures_shown p s : shown (fst (erasures p s)) = [].
Proof.
  revert p. induction s as [|p' s IH]; intros p; cbn [erasures];
    destruct (empty (imread p)); try reflexivity.
  specialize (IH p'). destruct (erasures p' s) as [tr r]. exact IH.
Qed.

Lemma erasures_attempts p s :
  attempts (Imread p :: fst (erasures p s))
  = (failures (fst (erasures p s))
     + match snd (erasures p s) with [] => 0 | _ :: _ => 1 end)%nat.
Proof.
  revert p. induction s as [|p' s IH]; intros p; cbn [erasures];
    destruct (empty (imread p)) eqn:Hp; try reflexivity.
  specialize (IH p'). destruct (erasures p' s) as [tr r].
  unfold attempts, failures in *. simpl in *. lia.
Qed.

Lemma erasures_filter p s :
  List.filter (fun x => empty (imread x))
              (decoded (Imread p :: fst (erasures p s)))
  = erased (fst (erasures p s)).
Proof.
  revert p. induction s as [|p' s IH]; intros p; cbn [erasures];
    destruct (empty (imread p)) eqn:Hp; cbn [fst];
    try (simpl; rewrite Hp; reflexivity).
  specialize (IH p'). destruct (erasures p' s) as [tr r]. cbn [fst] in *.
  change (decoded (Imread p :: Erase p :: Imread p' :: tr))
    with (p :: decoded (Imread p' :: tr)).
  change (erased (Erase p :: Imread p' :: tr)) with (p :: erased tr).
  cbn [List.filter]. rewrite Hp, IH. reflexivity.
Qed.

Lemma erasures_prefix p s :
  erased (fst (erasures p s)) = take (failures (fst (erasures p s))) (p :: s)
  /\ Forall undecodable (erased (fst (erasures p s))).
Proof.
  revert p. induction s as [|p' s IH]; intros p; cbn [erasures];
    destruct (empty (imread p)) eqn:Hp; cbn [fst].
  - split; [reflexivity|repeat constructor; exact Hp].
  - split; [reflexivity|constructor].
  - specialize (IH p'). destruct (erasures p' s) as [tr r]. cbn [fst] in *.
    destruct IH as [IH1 IH2]. unfold failures in *.
    change (erased (Erase p :: Imread p' :: tr)) with (p :: erased tr).
    cbn [length take]. split; [f_equal; exact IH1|].
    constructor; [exact Hp|exact IH2].
  - split; [reflexivity|constructor].
Qed.

(** *** One pass of the for loop *)

Lemma for_loop_eq maxcols maxrows fuel keys files i tr :
  for_loop imread NDEBUG maxcols maxrows fuel keys files i tr
  = if to_size_t i <? size files then
      match ensure_valid_at imread fuel files i tr with
      | (tr, Fetched files img) =>
          if assert_fails NDEBUG (negb (empty img)) then
            (tr, Abort "!img.empty()")
          else
            match at_index files i with
            | None => (tr, Undefined)
            | Some path =>
                let tr :=
                  tr ++ [Frame i path img (Scaler.image maxcols maxrows img)] in
                match keys with
                | [] => (tr, Blocked)
                | key :: keys =>
                    match dispatch (snd (display maxcols maxrows img key)) i with
                    | Break => (tr, Exit 0)
                    | Continue i | EndOfBody i =>
                        for_loop imread NDEBUG maxcols maxrows fuel keys files (i + 1) tr
                    end
                end
            end
      | (tr, EndOfCatalog _) => (tr, Exit 0)
      | (tr, NoFuel) => (tr, OutOfFuel)
      | (tr, OutOfRange) => (tr, Undefined)
      end
    else (tr, Exit 0).
Proof. destruct keys; reflexivity. Qed.

Lemma assert_holds : assert_fails NDEBUG true = false.
Proof. unfold assert_fails. destruct NDEBUG; reflexivity. Qed.

(** A pass that starts at the entry [p], with [pre] before it and [s]
    after it. *)
Lemma for_loop_pass maxcols maxrows fuel keys pre p s tr :
  indexable (pre ++ p :: s) ->
  (length s < fuel)%nat ->
  for_loop imread NDEBUG maxcols maxrows fuel keys (pre ++ p :: s) (size pre) tr
  = let tr1 := tr ++ Imread p :: fst (erasures p s) in
    match snd (erasures p s) with
    | [] => (tr1, Exit 0)
    | q :: rest =>
        let tr2 :=
          tr1 ++ [Frame (size pre) q (imread q)
                       (Scaler.image maxcols maxrows (imread q))] in
        match keys with
        | [] => (tr2, Blocked)
        | key :: keys =>
            match next_index (dispatch (uchar key) (size pre)) with
            | None => (tr2, Exit 0)
            | Some j =>
                for_loop imread NDEBUG maxcols maxrows fuel keys
                         (pre ++ q :: rest) j tr2
            end
        end
    end.
Proof.
  intros Hidx Hfuel. rewrite for_loop_eq.
  assert (Hpre : 0 <= size pre) by (unfold size; lia).
  assert (Hlt : size pre < size (pre ++ p :: s)).
  { rewrite size_app, size_cons. unfold size. lia. }
  rewrite to_size_t_small by (unfold indexable in Hidx; lia).
  destruct (Z.ltb_spec (size pre) (size (pre ++ p :: s))); [|lia].
  rewrite ensure_valid_at_erasures by assumption.
  pose proof (erasures_head p s) as Hhead.
  destruct (snd (erasures p s)) as [|q rest]; [reflexivity|].
  cbn [fetched_of]. rewrite (Hhead q rest eq_refl). cbn [negb].
  rewrite assert_holds, at_index_middle.
  cbv zeta. destruct keys as [|key keys]; [reflexivity|].
  cbn [display snd]. destruct (dispatch (uchar key) (size pre)); reflexivity.
Qed.

(** A pass at an entry that decodes. *)
Lemma for_loop_viewing maxcols maxrows fuel keys files i p tr :
  indexable files ->
  at_index files i = Some p -> empty (imread p) = false ->
  for_loop imread NDEBUG maxcols maxrows fuel keys files i tr
  = let tr2 :=
      tr ++ [Imread p;
             Frame i p (imread p) (Scaler.image maxcols maxrows (imread p))] in
    match keys with
    | [] => (tr2, Blocked)
    | key :: keys =>
        match next_index (dispatch (uchar key) i) with
        | None => (tr2, Exit 0)
        | Some j => for_loop imread NDEBUG maxcols maxrows fuel keys files j tr2
        end
    end.
Proof.
  intros Hidx Hat Hp. rewrite for_loop_eq.
  destruct (at_index_Some _ _ _ Hat) as (pre & s & -> & ->).
  assert (Hpre : 0 <= size pre) by (unfold size; lia).
  assert (Hlt : size pre < size (pre ++ p :: s)).
  { rewrite size_app, size_cons. unfold size. lia. }
  rewrite to_size_t_small by (unfold indexable in Hidx; lia).
  destruct (Z.ltb_spec (size pre) (size (pre ++ p :: s))); [|lia].
  unfold ensure_valid_at. rewrite Hat, while_empty_nonempty by assumption.
  rewrite Hp. cbn [negb]. rewrite assert_holds, Hat.
  cbv zeta. rewrite <- app_assoc. simpl.
  destruct keys as [|key keys]; [reflexivity|].
  destruct (dispatch (uchar key) (size pre)); reflexivity.
Qed.

Lemma shown_app tr1 tr2 : shown (tr1 ++ tr2) = shown tr1 ++ shown tr2.
Proof. apply flat_map_app. Qed.

Lemma erased_failed paths : erased (failed paths) = paths.
Proof. induction paths as [|p l IH]; simpl; [|rewrite IH]; reflexivity. Qed.

Lemma decoded_failed paths : decoded (failed paths) = paths.
Proof. induction paths as [|p l IH]; simpl; [|rewrite IH]; reflexivity. Qed.

Lemma erased_app tr1 tr2 : erased (tr1 ++ tr2) = erased tr1 ++ erased tr2.
Proof. apply flat_map_app. Qed.

(** *** The claims on pruning *)

(** C3.  When [bad] holds the N entries in front of the first entry
    that decodes, [ensure_valid_at] at cursor 0 erases exactly the
    entries of [bad], in order, and hands over the matrix read from
    [good]; the catalog left is [good :: rest], N entries shorter, every
    later entry having moved down by N while the cursor stayed 0. *)
Theorem ensure_valid_at_skips_undecodable fuel bad good rest :
  Forall undecodable bad -> empty (imread good) = false ->
  indexable (bad ++ good :: rest) ->
  (length (bad ++ good :: rest) <= fuel)%nat ->
  exists tr,
    ensure_valid_at imread fuel (bad ++ good :: rest) 0 []
    = (tr, Fetched (good :: rest) (imread good))
    /\ erased tr = bad
    /\ failures tr = length bad
    /\ length (good :: rest)
       = (length (bad ++ good :: rest) - length bad)%nat
    /\ at_index (good :: rest) 0 = Some good
    /\ forall j : nat,
         (good :: rest) !! j = (bad ++ good :: rest) !! (length bad + j)%nat.
Proof.
  intros Hbad Hgood Hidx Hfuel.
  destruct (bad ++ good :: rest) as [|p s] eqn:E; [destruct bad; discriminate|].
  destruct (erasures_skip bad good rest Hbad Hgood p s (eq_sym E)) as [Htr Hrest].
  exists (failed bad ++ [Imread good]).
  change 0 with (size []). change (p :: s) with ([] ++ p :: s).
  rewrite ensure_valid_at_erasures by (simpl in *; auto; lia).
  rewrite Hrest. simpl. rewrite Htr.
  assert (Her : erased (failed bad ++ [Imread good]) = bad).
  { rewrite erased_app, erased_failed. simpl. apply app_nil_r. }
  repeat split.
  - exact Her.
  - unfold failures. rewrite Her. reflexivity.
  - apply (f_equal length) in E. rewrite length_app in E. simpl in *. lia.
  - intros j. rewrite <- E, lookup_app_r by lia. f_equal. lia.
Qed.

(** C9.  The loop of [ensure_valid_at] ends whatever the catalog: as
    soon as the bound on the passes is at least the number of entries
    from the cursor on, the result no longer depends on it.  Each failed
    decode attempt removes one entry: the paths on which [cv::imread]
    failed are the paths erased, in the same order, the catalog left is
    shorter by their number, and there are never more failures than
    entries from the cursor on.  The loop ends either with everything
    from the cursor on erased, every attempt having failed, or with a
    matrix that is not empty, read from the entry now at the cursor by
    the one attempt that did not fail.  The entries erased are
    consecutive, from the cursor on, and what is handed on is the catalog
    without them. *)
Theorem pruning_terminates files i :
  0 <= i < size files -> indexable files ->
  exists tr r,
    (forall fuel, (length files - Z.to_nat i <= fuel)%nat ->
       ensure_valid_at imread fuel files i [] = (tr, r))
    /\ (failures tr <= length files - Z.to_nat i)%nat
    /\ List.filter (fun path => empty (imread path)) (decoded tr) = erased tr
    /\ erased tr = take (failures tr) (drop (Z.to_nat i) files)
    /\ exists files',
         length files' = (length files - failures tr)%nat
         /\ files' = take (Z.to_nat i) files
                     ++ drop (Z.to_nat i + failures tr) files
         /\ (r = EndOfCatalog files' /\ attempts tr = failures tr
             \/ exists img q,
                  r = Fetched files' img
                  /\ at_index files' i = Some q /\ img = imread q
                  /\ empty img = false
                  /\ attempts tr = S (failures tr)).
Proof.
  intros Hi Hidx.
  assert (Hat : exists p, at_index files i = Some p).
  { unfold at_index. destruct (Z.leb_spec 0 i); [|lia].
    apply lookup_lt_is_Some. unfold size in Hi. lia. }
  destruct Hat as [p Hat].
  destruct (at_index_Some _ _ _ Hat) as (pre & s & -> & ->).
  pose proof (erasures_count p s) as Hcount.
  pose proof (erasures_attempts p s) as Hatt.
  pose proof (erasures_head p s) as Hhead.
  pose proof (erasures_suffix p s) as Hsuf.
  destruct (erasures_prefix p s) as [Hpre _].
  exists (Imread p :: fst (erasures p s)), (fetched_of pre (snd (erasures p s))).
  assert (Hf : failures (Imread p :: fst (erasures p s))
               = failures (fst (erasures p s))) by reflexivity.
  assert (Hn : Z.to_nat (size pre) = length pre) by apply Nat2Z.id.
  rewrite Hf, Hn, length_app. simpl length.
  rewrite drop_app_length, take_app_length.
  rewrite drop_app_add' by reflexivity. rewrite <- Hsuf.
  split; [|split; [|split; [|split]]].
  - intros fuel Hfuel.
    rewrite (ensure_valid_at_erasures pre p s fuel []) by (auto; lia).
    reflexivity.
  - lia.
  - apply erasures_filter.
  - exact Hpre.
  - destruct (snd (erasures p s)) as [|q rest] eqn:E; simpl in Hcount.
    + exists pre. split; [lia|]. split; [symmetry; apply app_nil_r|].
      left. split; [reflexivity|]. lia.
    + exists (pre ++ q :: rest). split; [|split; [reflexivity|]].
      * rewrite length_app. simpl. lia.
      * right. exists (imread q), q. cbn [Navigation.fetched_of].
        split; [reflexivity|split; [apply at_index_middle|]].
        split; [reflexivity|split; [apply (Hhead q rest eq_refl)|lia]].
Qed.

(** C5.  In a catalog that is not empty and of which no entry decodes,
    [ensure_valid_at] at cursor 0 erases every entry and signals the end
    of an empty catalog; the for loop and [main] then return 0 with the
    same trace: one decoding attempt per entry and none after the last
    erasure, no frame shown. *)
Theorem all_undecodable_ends maxcols maxrows fuel keys files :
  files <> [] -> Forall undecodable files -> indexable files ->
  (length files <= fuel)%nat ->
  ensure_valid_at imread fuel files 0 [] = (failed files, EndOfCatalog [])
  /\ for_loop imread NDEBUG maxcols maxrows fuel keys files 0 []
     = (failed files, Exit 0)
  /\ erased (failed files) = files
  /\ attempts (failed files) = length files
  /\ shown (failed files) = []
  /\ forall args root,
       help args = false -> dir args <> ""%string ->
       opt_cols args = maxcols -> opt_rows args = maxrows ->
       Enumerator.file_list (dir args) root [] = inr files ->
       main imread NDEBUG fuel args root keys = (failed files, Exit 0).
Proof.
  intros Hne Hall Hidx Hfuel.
  destruct files as [|p s]; [congruence|].
  destruct (erasures_all p s Hall) as [Htr Hrest].
  assert (Hloop : forall maxcols maxrows,
             for_loop imread NDEBUG maxcols maxrows fuel keys (p :: s) 0 []
             = (failed (p :: s), Exit 0)).
  { intros mc mr. change 0 with (size []). change (p :: s) with ([] ++ p :: s).
    rewrite for_loop_pass by (simpl in *; auto; lia).
    rewrite Hrest. cbv zeta. rewrite app_nil_l, Htr. reflexivity. }
  split; [|split; [apply Hloop|repeat split]].
  - change 0 with (size []). change (p :: s) with ([] ++ p :: s).
    rewrite ensure_valid_at_erasures by (simpl in *; auto; lia).
    rewrite Hrest, app_nil_l, Htr. reflexivity.
  - apply erased_failed.
  - unfold attempts. rewrite decoded_failed. reflexivity.
  - clear. induction (p :: s) as [|? ? IH]; [reflexivity|exact IH].
  - intros args root Hhelp Hdir <- <- Hlist. unfold main.
    rewrite Hhelp. apply String.eqb_neq in Hdir. rewrite Hdir, Hlist.
    cbn [orb]. unfold assert_fails.
    replace (size (p :: s) =? 0) with false
      by (symmetry; apply Z.eqb_neq; rewrite size_cons; unfold size; lia).
    destruct NDEBUG; apply Hloop.
Qed.

(** *** The claims on keys *)

Lemma dispatch_other response i :
  response <> 113 -> response <> 110 -> response <> 32 -> response <> 112 ->
  dispatch response i = EndOfBody i.
Proof.
  intros Hq Hn Hs Hp. unfold dispatch.
  apply Z.eqb_neq in Hq, Hn, Hs, Hp. rewrite Hq, Hn, Hs, Hp. reflexivity.
Qed.

(** C1, as the code has it.  A key other than 'q', 'n', 'p' and space
    takes no branch of the dispatch, reaches the end of the loop body,
    and the increment of the for loop applies: in every state the run goes
    on exactly as after 'n', and where the entries at [k] and [k + 1]
    decode the index displayed next is [k + 1]. *)
Theorem other_key_advances maxcols maxrows fuel keys files k key tr :
  uchar key <> 113 -> uchar key <> 110 -> uchar key <> 32 ->
  uchar key <> 112 ->
  dispatch (uchar key) k = EndOfBody k
  /\ next_index (dispatch (uchar key) k) = Some (k + 1)
  /\ for_loop imread NDEBUG maxcols maxrows fuel (key :: keys) files k tr
     = for_loop imread NDEBUG maxcols maxrows fuel (110 :: keys) files k tr
  /\ forall p p',
       indexable files ->
       at_index files k = Some p -> empty (imread p) = false ->
       at_index files (k + 1) = Some p' -> empty (imread p') = false ->
       shown (fst (for_loop imread NDEBUG maxcols maxrows fuel [key] files k []))
       = [k; k + 1].
Proof.
  intros Hq Hn Hs Hpp.
  pose proof (dispatch_other (uchar key) k Hq Hn Hs Hpp) as Hd.
  split; [exact Hd|split; [rewrite Hd; reflexivity|split]].
  - rewrite (for_loop_eq _ _ _ (key :: keys)), (for_loop_eq _ _ _ (110 :: keys)).
    cbn [display snd]. rewrite Hd.
    replace (dispatch (uchar 110) k) with (Continue k) by reflexivity.
    reflexivity.
  - intros p p' Hidx Hat Hp Hat' Hp'.
    rewrite (for_loop_viewing _ _ _ _ _ _ _ _ Hidx Hat Hp).
    cbv zeta. rewrite Hd. cbn [next_index].
    rewrite (for_loop_viewing _ _ _ _ _ _ _ _ Hidx Hat' Hp').
    reflexivity.
Qed.

Lemma erasures_found p s :
  Exists (fun path => empty (imread path) = false) (p :: s) ->
  exists q rest, snd (erasures p s) = q :: rest.
Proof.
  revert p. induction s as [|p' s IH]; intros p H; cbn [erasures];
    destruct (empty (imread p)) eqn:Hp; simpl; eauto.
  - exfalso. apply Exists_cons in H as [H|H]; [congruence|].
    apply Exists_nil in H. exact H.
  - apply Exists_cons in H as [H|H]; [congruence|].
    destruct (IH p' H) as (q & rest & E).
    destruct (erasures p' s) as [tr r]. simpl in *. eauto.
Qed.

Lemma erasures_decodable p s :
  empty (imread p) = false -> erasures p s = ([], p :: s).
Proof. intros Hp. destruct s; simpl; rewrite Hp; reflexivity. Qed.

Lemma erasures_indexable pre p s q rest :
  indexable (pre ++ p :: s) -> snd (erasures p s) = q :: rest ->
  indexable (pre ++ q :: rest).
Proof.
  unfold indexable. intros H E. pose proof (erasures_count p s) as Hc.
  rewrite E in Hc. rewrite size_app in *. unfold size in *. simpl in *. lia.
Qed.

Lemma shown_imread path tr : shown (Imread path :: tr) = shown tr.
Proof. reflexivity. Qed.

Lemma shown_erase path tr : shown (Erase path :: tr) = shown tr.
Proof. reflexivity. Qed.

Lemma shown_show i path img image tr :
  shown (Frame i path img image :: tr) = i :: shown tr.
Proof. reflexivity. Qed.

Lemma shown_nil : shown [] = [].
Proof. reflexivity. Qed.

Create Rewrite HintDb shown_db.
#[local] Hint Rewrite shown_app shown_imread shown_erase shown_show shown_nil
  erasures_shown : shown_db.

(** C4.  In every state of the loop in which something is displayed (some
    entry from the cursor [k] on decodes), the index displayed is [k], and
    after the key 'p' the index displayed next is 0 when [k = 0] and
    [k - 1] otherwise. *)
Theorem previous_key maxcols maxrows fuel files k key :
  indexable files -> 0 <= k < size files ->
  Exists (fun path => empty (imread path) = false) (drop (Z.to_nat k) files) ->
  (length files <= fuel)%nat ->
  uchar key = 112 ->
  shown (fst (for_loop imread NDEBUG maxcols maxrows fuel [key] files k []))
  = [k; if k =? 0 then 0 else k - 1].
Proof.
  intros Hidx Hk Hex Hfuel Hkey.
  assert (Hat : exists p, at_index files k = Some p).
  { unfold at_index. destruct (Z.leb_spec 0 k); [|lia].
    apply lookup_lt_is_Some. unfold size in Hk. lia. }
  destruct Hat as [p Hat].
  destruct (at_index_Some _ _ _ Hat) as (pre & s & -> & ->).
  unfold size in Hex. rewrite Nat2Z.id, drop_app_length in Hex.
  destruct (erasures_found p s Hex) as (q & rest & E).
  pose proof (erasures_head p s q rest E) as Hq.
  pose proof (erasures_indexable pre p s q rest Hidx E) as Hidx'.
  assert (Hlen : (length rest <= length s)%nat).
  { pose proof (erasures_count p s) as Hc. rewrite E in Hc. simpl in Hc. lia. }
  rewrite length_app in Hfuel. simpl in Hfuel.
  rewrite for_loop_pass by (auto; lia).
  cbv zeta. rewrite E, Hkey. unfold dispatch.
  change (112 =? 113) with false. change (112 =? 110) with false.
  change (112 =? 32) with false. change (112 =? 112) with true.
  cbn [orb]. destruct (Z.eqb_spec (size pre) 0) as [E0|Hne]; cbn [next_index].
  - assert (pre = []) as -> by (destruct pre; [reflexivity|discriminate]).
    change (size []) with 0. change (0 - 1 + 1) with 0. cbn [app] in *.
    rewrite (for_loop_viewing _ _ _ _ (q :: rest) 0 q) by auto.
    cbv zeta. cbn [fst]. autorewrite with shown_db. reflexivity.
  - replace (size pre - 2 + 1) with (size pre - 1) by lia.
    destruct pre as [|x pre _] using rev_ind; [contradiction Hne; reflexivity|].
    rewrite <- app_assoc in *. cbn [app] in *.
    assert (Hsz : size (pre ++ [x]) - 1 = size pre)
      by (rewrite size_app, size_cons; unfold size; simpl; lia).
    rewrite Hsz.
    rewrite for_loop_pass.
    2: assumption.
    2:{ rewrite length_app in Hfuel. simpl in *. lia. }
    cbv zeta. cbn [erasures]. rewrite (erasures_decodable q rest Hq).
    destruct (empty (imread x)); cbn [fst snd];
      autorewrite with shown_db; cbn [app]; rewrite <- Hsz;
      f_equal; f_equal; lia.
Qed.

(** C10.  [display] returns the key code modulo 256, a value from 0 to
    255, and two key codes that are congruent modulo 256 lead to the
    same run. *)
Theorem key_modulo_256 maxcols maxrows fuel keys files i tr img c1 c2 :
  c1 mod 256 = c2 mod 256 ->
  snd (display maxcols maxrows img c1) = c1 mod 256
  /\ 0 <= snd (display maxcols maxrows img c1) < 256
  /\ snd (display maxcols maxrows img c1) = snd (display maxcols maxrows img c2)
  /\ dispatch (snd (display maxcols maxrows img c1)) i
     = dispatch (snd (display maxcols maxrows img c2)) i
  /\ for_loop imread NDEBUG maxcols maxrows fuel (c1 :: keys) files i tr
     = for_loop imread NDEBUG maxcols maxrows fuel (c2 :: keys) files i tr.
Proof.
  intros H. cbn [display snd]. unfold uchar.
  repeat split; try (rewrite H; reflexivity);
    try (apply Z.mod_pos_bound; lia).
  rewrite !for_loop_eq. cbn [display snd]. unfold uchar. rewrite H.
  reflexivity.
Qed.

(** Without the assertion of line 128 a run on an empty catalog would skip
    the for loop and return 0. *)
Remark empty_catalog_without_assert fuel args root keys :
  NDEBUG = true ->
  help args = false -> dir args <> ""%string ->
  Enumerator.file_list (dir args) root [] = inr [] ->
  main imread NDEBUG fuel args root keys = ([], Exit 0).
Proof.
  intros -> Hhelp Hdir Hlist. apply String.eqb_neq in Hdir.
  unfold main. rewrite Hhelp, Hdir, Hlist. destruct keys; reflexivity.
Qed.


End Pruning.

(** *** Invariants of a run *)

Section Runs.
Variable imread : string -> Mat.
Variable NDEBUG : bool.

Local Abbreviation erasures := (Navigation.erasures imread).
Local Abbreviation event_sound := (Navigation.event_sound imread).

Lemma decoded_app tr1 tr2 : decoded (tr1 ++ tr2) = decoded tr1 ++ decoded tr2.
Proof. apply flat_map_app. Qed.

Lemma attempts_app tr1 tr2 :
  attempts (tr1 ++ tr2) = (attempts tr1 + attempts tr2)%nat.
Proof. unfold attempts. rewrite decoded_app. apply length_app. Qed.

Lemma failures_app tr1 tr2 :
  failures (tr1 ++ tr2) = (failures tr1 + failures tr2)%nat.
Proof. unfold failures. rewrite erased_app. apply length_app. Qed.

Lemma event_sound_mono files files' e :
  (forall x, In x files -> In x files') -> size files <= size files' ->
  event_sound files e -> event_sound files' e.
Proof.
  intros Hin Hsz. destruct e as [path|path|i path img image]; simpl.
  - apply Hin.
  - intros [H1 H2]. auto.
  - intros (H1 & H2 & H3 & H4). repeat split; auto; lia.
Qed.

Lemma erasures_sound p s :
  Forall (event_sound (p :: s)) (Imread p :: fst (erasures p s)).
Proof.
  revert p. induction s as [|p' s IH]; intros p; cbn [erasures];
    destruct (empty (imread p)) eqn:Hp; cbn [fst].
  - repeat constructor; simpl; auto.
  - repeat constructor; simpl; auto.
  - specialize (IH p'). destruct (erasures p' s) as [tr r]. cbn [fst] in *.
    constructor; [simpl; auto|]. constructor; [simpl; auto|].
    eapply Forall_impl; [exact IH|].
    intros e. apply event_sound_mono.
    + intros x Hx. right. exact Hx.
    + rewrite (size_cons p). lia.
  - repeat constructor; simpl; auto.
Qed.

Lemma erasures_incl p s x : In x (snd (erasures p s)) -> In x (p :: s).
Proof.
  revert p. induction s as [|p' s IH]; intros p; cbn [erasures];
    destruct (empty (imread p)) eqn:Hp; cbn [snd]; auto.
  - intros [].
  - specialize (IH p'). destruct (erasures p' s) as [tr r]. cbn [snd] in *.
    intros H. right. auto.
Qed.

Lemma next_index_bounds response i j :
  0 <= i -> next_index (dispatch response i) = Some j ->
  0 <= j /\ i - 1 <= j <= i + 1.
Proof.
  intros Hi. unfold dispatch.
  destruct (response =? 113); [discriminate|].
  destruct ((response =? 110) || (response =? 32)); [intros [= <-]; lia|].
  destruct (response =? 112); [|intros [= <-]; lia].
  destruct (Z.eqb_spec i 0); intros [= <-]; lia.
Qed.

Lemma in_middle (pre : list string) p s q rest x :
  (forall y, In y (q :: rest) -> In y (p :: s)) ->
  In x (pre ++ q :: rest) -> In x (pre ++ p :: s).
Proof.
  intros H Hx. apply in_app_iff in Hx. apply in_app_iff.
  destruct Hx; auto.
Qed.

(** A pass that ends the run: no entry from [p] on decodes. *)
Lemma pass_end pre p s :
  snd (erasures p s) = [] ->
  let A := Imread p :: fst (erasures p s) in
  Forall (event_sound (pre ++ p :: s)) A
  /\ shown A = []
  /\ attempts A = failures A
  /\ (failures A <= length (pre ++ p :: s))%nat.
Proof.
  intros E A.
  pose proof (erasures_sound p s) as Hsound.
  pose proof (erasures_attempts imread p s) as Hatt.
  pose proof (erasures_count imread p s) as Hcount.
  pose proof (erasures_shown imread p s) as Hshown.
  rewrite E in Hatt, Hcount.
  assert (HfA : failures A = failures (fst (erasures p s))) by reflexivity.
  repeat split.
  - eapply Forall_impl; [exact Hsound|].
    intros e. apply event_sound_mono.
    + intros x Hx. apply in_app_iff. auto.
    + rewrite size_app. unfold size. lia.
  - exact Hshown.
  - rewrite HfA. unfold A. rewrite Hatt. lia.
  - rewrite HfA, length_app. simpl in *. lia.
Qed.

(** A pass that shows a frame: [q] is the first entry from [p] on that
    decodes. *)
Lemma pass_frame pre p s q rest image :
  snd (erasures p s) = q :: rest ->
  let A := Imread p :: fst (erasures p s)
           ++ [Frame (size pre) q (imread q) image] in
  Forall (event_sound (pre ++ p :: s)) A
  /\ shown A = [size pre]
  /\ attempts A = S (failures A)
  /\ (failures A + length (pre ++ q :: rest) = length (pre ++ p :: s))%nat
  /\ (forall e, event_sound (pre ++ q :: rest) e ->
                event_sound (pre ++ p :: s) e).
Proof.
  intros E A.
  pose proof (erasures_sound p s) as Hsound.
  pose proof (erasures_attempts imread p s) as Hatt.
  pose proof (erasures_count imread p s) as Hcount.
  pose proof (erasures_head imread p s q rest E) as Hhead.
  pose proof (erasures_incl p s) as Hincl.
  pose proof (erasures_shown imread p s) as Hshown.
  rewrite E in Hatt, Hcount, Hincl.
  assert (Hmono : forall e, event_sound (p :: s) e ->
                            event_sound (pre ++ p :: s) e).
  { intros e. apply event_sound_mono.
    - intros x Hx. apply in_app_iff. auto.
    - rewrite size_app. unfold size. lia. }
  assert (HfA : failures A = failures (fst (erasures p s))).
  { unfold A. change (failures (Imread p :: ?l)) with (failures l).
    rewrite failures_app. unfold failures at 2. simpl. lia. }
  assert (Hlen : (failures A + length (pre ++ q :: rest)
                  = length (pre ++ p :: s))%nat).
  { rewrite HfA, !length_app. simpl in *. lia. }
  repeat split.
  - unfold A. rewrite app_comm_cons. apply Forall_app. split.
    + eapply Forall_impl; [exact Hsound|]. exact Hmono.
    + constructor; [|constructor]. simpl. repeat split; auto.
      * apply in_app_iff. right. apply Hincl. left. reflexivity.
      * unfold size. lia.
      * rewrite size_app, size_cons. unfold size. lia.
  - unfold A. rewrite app_comm_cons, shown_app, shown_imread, Hshown.
    reflexivity.
  - rewrite HfA. unfold A. rewrite app_comm_cons, attempts_app, Hatt.
    unfold attempts at 1. simpl. lia.
  - exact Hlen.
  - intros e. apply event_sound_mono.
    + intros x. apply in_middle. exact Hincl.
    + unfold size. lia.
Qed.

(** What every run of the for loop satisfies, from any index inside the
    catalog or just behind it. *)
Lemma for_loop_invariant maxcols maxrows fuel keys :
  forall files i tr,
    indexable files -> 0 <= i <= size files -> (length files <= fuel)%nat ->
    exists tr' o,
      for_loop imread NDEBUG maxcols maxrows fuel keys files i tr
      = (tr ++ tr', o)
      /\ (o = Exit 0 \/ o = Blocked /\ length (shown tr') = S (length keys))
      /\ Forall (event_sound files) tr'
      /\ (length (shown tr') <= S (length keys))%nat
      /\ (attempts tr' <= length (shown tr') + failures tr')%nat
      /\ (failures tr' <= length files)%nat
      /\ match shown tr' with [] => True | j :: _ => j = i end
      /\ stepwise (shown tr').
Proof.
  induction keys as [|key keys IH]; intros files i tr Hidx Hi Hfuel.
  all: destruct (Z.eq_dec i (size files)) as [Hend|Hin];
    [ exists [], (Exit 0); rewrite for_loop_eq, app_nil_r;
      rewrite to_size_t_small by (unfold indexable in Hidx; lia);
      destruct (Z.ltb_spec i (size files)); [lia|];
      repeat split; simpl; auto; unfold failures; simpl; lia
    | ].
  all: assert (Hat : exists p, at_index files i = Some p)
         by (unfold at_index; destruct (Z.leb_spec 0 i); [|lia];
             apply lookup_lt_is_Some; unfold size in *; lia);
       destruct Hat as [p Hat];
       destruct (at_index_Some _ _ _ Hat) as (pre & s & -> & ->);
       assert (Hfuel' : (length s < fuel)%nat)
         by (rewrite length_app in Hfuel; cbn [length] in Hfuel; lia);
       rewrite for_loop_pass by auto; cbv zeta;
       destruct (snd (erasures p s)) as [|q rest] eqn:E;
       try (destruct (pass_end pre p s E) as (H1 & H2 & H3 & H4);
            exists (Imread p :: fst (erasures p s)), (Exit 0);
            rewrite H2, H3; repeat split; simpl; auto; lia).
  - destruct (pass_frame pre p s q rest
                (Scaler.image maxcols maxrows (imread q)) E)
      as (H1 & H2 & H3 & H4 & H5).
    set (A := Imread p :: fst (erasures p s)
              ++ [Frame (size pre) q (imread q)
                    (Scaler.image maxcols maxrows (imread q))]) in *.
    exists A, Blocked.
    split; [unfold A; rewrite <- app_assoc; reflexivity|].
    rewrite H2, H3. repeat split; simpl; auto; lia.
  - destruct (pass_frame pre p s q rest
                (Scaler.image maxcols maxrows (imread q)) E)
      as (H1 & H2 & H3 & H4 & H5).
    set (A := Imread p :: fst (erasures p s)
              ++ [Frame (size pre) q (imread q)
                    (Scaler.image maxcols maxrows (imread q))]) in *.
    destruct (next_index (dispatch (uchar key) (size pre))) as [j|] eqn:Hj.
    + apply next_index_bounds in Hj; [|unfold size; lia].
      destruct (IH (pre ++ q :: rest) j
                  ((tr ++ Imread p :: fst (erasures p s))
                   ++ [Frame (size pre) q (imread q)
                             (Scaler.image maxcols maxrows (imread q))]))
        as (tr' & o & Hrun & Ho & Hs & Hn & Ha & Hf & Hh & Hw).
      * eapply erasures_indexable; eauto.
      * rewrite size_app, size_cons. unfold size. unfold size in Hj. lia.
      * lia.
      * exists (A ++ tr'), o.
        rewrite Hrun. split.
        { f_equal. unfold A. rewrite <- !app_assoc. cbn [app].
          rewrite <- ?app_assoc. reflexivity. }
        rewrite shown_app, attempts_app, failures_app, H2, H3.
        cbn [app length].
        split; [destruct Ho as [Ho|[Ho Hl]];
                [left; exact Ho|right; split; [exact Ho|lia]]|].
        split; [apply Forall_app; split; [exact H1|];
                eapply Forall_impl; [exact Hs|exact H5]|].
        split; [lia|]. split; [lia|]. split; [lia|].
        split; [reflexivity|].
        destruct (shown tr') as [|b l]; [exact I|].
        split; [subst b; lia|exact Hw].
    + exists A, (Exit 0).
      split; [unfold A; rewrite <- app_assoc; reflexivity|].
      rewrite H2, H3. repeat split; simpl; auto; lia.
Qed.

(** The assertion of line 151 never decides a run. *)
Lemma for_loop_assert_free b1 b2 maxcols maxrows fuel keys :
  forall files i tr,
    indexable files -> 0 <= i <= size files -> (length files <= fuel)%nat ->
    for_loop imread b1 maxcols maxrows fuel keys files i tr
    = for_loop imread b2 maxcols maxrows fuel keys files i tr.
Proof.
  induction keys as [|key keys IH]; intros files i tr Hidx Hi Hfuel.
  all: destruct (Z.eq_dec i (size files)) as [Hend|Hin];
    [ rewrite !for_loop_eq;
      rewrite to_size_t_small by (unfold indexable in Hidx; lia);
      destruct (Z.ltb_spec i (size files)); [lia|reflexivity]
    | ].
  all: assert (Hat : exists p, at_index files i = Some p)
         by (unfold at_index; destruct (Z.leb_spec 0 i); [|lia];
             apply lookup_lt_is_Some; unfold size in *; lia);
       destruct Hat as [p Hat];
       destruct (at_index_Some _ _ _ Hat) as (pre & s & -> & ->);
       assert (Hfuel' : (length s < fuel)%nat)
         by (rewrite length_app in Hfuel; cbn [length] in Hfuel; lia);
       rewrite !for_loop_pass by auto; cbv zeta;
       destruct (snd (erasures p s)) as [|q rest] eqn:E;
       try reflexivity.
  destruct (next_index (dispatch (uchar key) (size pre))) as [j|] eqn:Hj;
    [|reflexivity].
  apply next_index_bounds in Hj; [|unfold size; lia].
  pose proof (erasures_count imread p s) as Hc. rewrite E in Hc.
  apply IH.
  - eapply erasures_indexable; eauto.
  - rewrite size_app, size_cons. unfold size. unfold size in Hj. lia.
  - rewrite length_app in *. simpl in *. lia.
Qed.

(** X10.  From any index inside the catalog or just behind it, and
    whatever the keys, the for loop ends by returning 0 or waits for a
    key: it never indexes outside the vector, the while loop needs no
    more passes than there are entries, and the assertion of line 151
    never fails, so that compiling the assertions out changes no run. *)
Theorem for_loop_safe maxcols maxrows fuel keys files i tr :
  indexable files -> 0 <= i <= size files -> (length files <= fuel)%nat ->
  (snd (for_loop imread NDEBUG maxcols maxrows fuel keys files i tr) = Exit 0
   \/ snd (for_loop imread NDEBUG maxcols maxrows fuel keys files i tr)
      = Blocked)
  /\ for_loop imread true maxcols maxrows fuel keys files i tr
     = for_loop imread false maxcols maxrows fuel keys files i tr.
Proof.
  intros Hidx Hi Hfuel. split.
  - destruct (for_loop_invariant maxcols maxrows fuel keys files i tr
                Hidx Hi Hfuel) as (tr' & o & -> & [->|[-> _]] & _); auto.
  - apply for_loop_assert_free; assumption.
Qed.

(** X11.  In a run of the for loop the decoder is given entries of the
    catalog only, an entry is erased only after it failed to decode, and
    every frame shows an entry of the catalog that decoded, under an
    index inside the catalog: no file that decodes is ever dropped and
    no empty image is ever displayed. *)
Theorem for_loop_events_sound maxcols maxrows fuel keys files i :
  indexable files -> 0 <= i <= size files -> (length files <= fuel)%nat ->
  Forall (event_sound files)
         (fst (for_loop imread NDEBUG maxcols maxrows fuel keys files i [])).
Proof.
  intros Hidx Hi Hfuel.
  destruct (for_loop_invariant maxcols maxrows fuel keys files i []
              Hidx Hi Hfuel) as (tr' & o & -> & _ & H & _).
  exact H.
Qed.

(** X12.  A run shows at most one frame more than it reads keys, exactly
    one more when it ends waiting for a key; it erases at most as many
    entries as the catalog has, and it calls the decoder at most once per
    frame and once per erased entry. *)
Theorem for_loop_counts maxcols maxrows fuel keys files i :
  indexable files -> 0 <= i <= size files -> (length files <= fuel)%nat ->
  let run := for_loop imread NDEBUG maxcols maxrows fuel keys files i [] in
  (length (shown (fst run)) <= S (length keys))%nat
  /\ (snd run = Blocked -> length (shown (fst run)) = S (length keys))
  /\ (failures (fst run) <= length files)%nat
  /\ (attempts (fst run) <= length (shown (fst run)) + failures (fst run))%nat
  /\ (attempts (fst run) <= S (length keys) + length files)%nat.
Proof.
  intros Hidx Hi Hfuel.
  destruct (for_loop_invariant maxcols maxrows fuel keys files i []
              Hidx Hi Hfuel) as (tr' & o & -> & Ho & _ & Hn & Ha & Hf & _).
  cbn [fst snd app]. repeat split; try lia.
  intros ->. destruct Ho as [|[_ H]]; [discriminate|exact H].
Qed.

(** X13.  The indexes displayed start at the index the loop is entered
    with, and each is the one before it, that one plus one or that one
    minus one: no key moves the cursor by more than one entry, and erasing
    entries does not move it at all. *)
Theorem for_loop_stepwise maxcols maxrows fuel keys files i :
  indexable files -> 0 <= i <= size files -> (length files <= fuel)%nat ->
  let l := shown (fst (for_loop imread NDEBUG maxcols maxrows fuel keys
                                files i [])) in
  match l with [] => True | j :: _ => j = i end /\ stepwise l.
Proof.
  intros Hidx Hi Hfuel.
  destruct (for_loop_invariant maxcols maxrows fuel keys files i []
              Hidx Hi Hfuel) as (tr' & o & -> & _ & _ & _ & _ & _ & Hh & Hw).
  cbn [fst app]. split; assumption.
Qed.

(** X14.  At any cursor, what [ensure_valid_at] erases is one block of
    consecutive entries that starts at the cursor, none of which decodes;
    the entries before the cursor and the entries after the block stay,
    in their order; and the matrix handed over, when there is one, is
    read from the entry now at the cursor and is not empty. *)
Theorem ensure_valid_at_erases_a_block fuel files i :
  0 <= i < size files -> indexable files ->
  (length files - Z.to_nat i <= fuel)%nat ->
  exists tr r n,
    ensure_valid_at imread fuel files i [] = (tr, r)
    /\ erased tr = take n (drop (Z.to_nat i) files)
    /\ Forall (Navigation.undecodable imread) (erased tr)
    /\ let files' := take (Z.to_nat i) files ++ drop (Z.to_nat i + n) files in
       (r = EndOfCatalog files' /\ files' = take (Z.to_nat i) files
        \/ exists q, at_index files' i = Some q
                     /\ empty (imread q) = false
                     /\ r = Fetched files' (imread q)).
Proof.
  intros Hi Hidx Hfuel.
  assert (Hat : exists p, at_index files i = Some p).
  { unfold at_index. destruct (Z.leb_spec 0 i); [|lia].
    apply lookup_lt_is_Some. unfold size in Hi. lia. }
  destruct Hat as [p Hat].
  destruct (at_index_Some _ _ _ Hat) as (pre & s & -> & ->).
  assert (Hn : Z.to_nat (size pre) = length pre) by apply Nat2Z.id.
  rewrite Hn in *. rewrite length_app in Hfuel. cbn [length] in Hfuel.
  pose proof (erasures_suffix imread p s) as Hsuf.
  pose proof (erasures_head imread p s) as Hhead.
  destruct (erasures_prefix imread p s) as [Hpre Hbad].
  exists (Imread p :: fst (erasures p s)),
         (Navigation.fetched_of imread pre (snd (erasures p s))),
         (failures (fst (erasures p s))).
  rewrite (ensure_valid_at_erasures imread pre p s fuel []) by (auto; lia).
  rewrite drop_app_length, take_app_length.
  change (erased (Imread p :: ?l)) with (erased l).
  split; [reflexivity|split; [exact Hpre|split; [exact Hbad|]]].
  cbv zeta. rewrite drop_app_add'. 2: reflexivity.
  rewrite <- Hsuf.
  destruct (snd (erasures p s)) as [|q rest]; cbn [Navigation.fetched_of].
  - left. rewrite app_nil_r. auto.
  - right. exists q. rewrite at_index_middle.
    split; [reflexivity|split; [eapply Hhead; reflexivity|reflexivity]].
Qed.

(** X15.  Pruning twice is pruning once: on the catalog that a call of
    [ensure_valid_at] leaves with a matrix, a second call at the same
    cursor reads the entry at the cursor, erases nothing, and hands over
    the same catalog and the same matrix, whatever the bound on the
    passes. *)
Theorem ensure_valid_at_idempotent fuel files i tr files' img :
  0 <= i < size files -> indexable files ->
  (length files - Z.to_nat i <= fuel)%nat ->
  ensure_valid_at imread fuel files i [] = (tr, Fetched files' img) ->
  exists path,
    at_index files' i = Some path
    /\ forall fuel' tr',
         ensure_valid_at imread fuel' files' i tr'
         = (tr' ++ [Imread path], Fetched files' img).
Proof.
  intros Hi Hidx Hfuel H.
  assert (Hat : exists p, at_index files i = Some p).
  { unfold at_index. destruct (Z.leb_spec 0 i); [|lia].
    apply lookup_lt_is_Some. unfold size in Hi. lia. }
  destruct Hat as [p Hat].
  destruct (at_index_Some _ _ _ Hat) as (pre & s & -> & ->).
  assert (Hn : Z.to_nat (size pre) = length pre) by apply Nat2Z.id.
  rewrite Hn, length_app in Hfuel. cbn [length] in Hfuel.
  rewrite (ensure_valid_at_erasures imread pre p s fuel []) in H by (auto; lia).
  pose proof (erasures_head imread p s) as Hhead.
  destruct (snd (erasures p s)) as [|q rest]; cbn [Navigation.fetched_of] in H;
    [discriminate|].
  injection H as _ <- <-.
  exists q. split; [apply at_index_middle|].
  intros fuel' tr'. unfold ensure_valid_at. rewrite at_index_middle.
  apply while_empty_nonempty. eapply Hhead. reflexivity.
Qed.

(** X16.  Forward and back is a round trip: where the entries at [k] and
    [k + 1] decode, 'n' (or space) and then 'p' display [k], [k + 1] and
    [k] again; where the entries at [k - 1] and [k] decode, 'p' and then
    'n' display [k], [k - 1] and [k] again.  Nothing is erased on the
    way. *)
Theorem next_previous_round_trip maxcols maxrows fuel files k p kn kp :
  indexable files ->
  at_index files k = Some p -> empty (imread p) = false ->
  uchar kn = 110 \/ uchar kn = 32 -> uchar kp = 112 ->
  (forall p', at_index files (k + 1) = Some p' -> empty (imread p') = false ->
     let run := for_loop imread NDEBUG maxcols maxrows fuel [kn; kp] files k [] in
     shown (fst run) = [k; k + 1; k] /\ erased (fst run) = []
     /\ snd run = Blocked)
  /\ (forall p', at_index files (k - 1) = Some p' -> empty (imread p') = false ->
     let run := for_loop imread NDEBUG maxcols maxrows fuel [kp; kn] files k [] in
     shown (fst run) = [k; k - 1; k] /\ erased (fst run) = []
     /\ snd run = Blocked).
Proof.
  intros Hidx Hat Hp Hkn Hkp.
  assert (Hn : forall j, next_index (dispatch (uchar kn) j) = Some (j + 1))
    by (intros j; destruct Hkn as [-> | ->]; reflexivity).
  assert (Hpp : forall j, 0 < j ->
                 next_index (dispatch (uchar kp) j) = Some (j - 1)).
  { intros j Hj. rewrite Hkp. unfold dispatch.
    change (112 =? 113) with false. change (112 =? 110) with false.
    change (112 =? 32) with false. change (112 =? 112) with true.
    cbn [orb]. destruct (Z.eqb_spec j 0); [lia|]. cbn [next_index].
    f_equal. lia. }
  assert (Hk : 0 <= k).
  { unfold at_index in Hat. destruct (Z.leb_spec 0 k); [assumption|discriminate]. }
  split; intros p' Hat' Hp' run; unfold run.
  - rewrite (for_loop_viewing imread NDEBUG _ _ _ _ _ _ _ _ Hidx Hat Hp).
    cbv zeta. rewrite Hn.
    rewrite (for_loop_viewing imread NDEBUG _ _ _ _ _ _ _ _ Hidx Hat' Hp').
    cbv zeta. rewrite Hpp by lia.
    replace (k + 1 - 1) with k by lia.
    rewrite (for_loop_viewing imread NDEBUG _ _ _ _ _ _ _ _ Hidx Hat Hp).
    repeat split.
  - assert (Hk1 : 0 < k).
    { unfold at_index in Hat'. destruct (Z.leb_spec 0 (k - 1)); [lia|discriminate]. }
    rewrite (for_loop_viewing imread NDEBUG _ _ _ _ _ _ _ _ Hidx Hat Hp).
    cbv zeta. rewrite Hpp by lia.
    rewrite (for_loop_viewing imread NDEBUG _ _ _ _ _ _ _ _ Hidx Hat' Hp').
    cbv zeta. rewrite Hn.
    replace (k - 1 + 1) with k by lia.
    rewrite (for_loop_viewing imread NDEBUG _ _ _ _ _ _ _ _ Hidx Hat Hp).
    repeat split.
Qed.

(** X17.  Going forward from the last entry ends the run: at the last
    index of the catalog, an entry that decodes is displayed, and any key
    but 'q' and 'p' then leaves the for loop, which returns 0 without
    reading the keys that follow. *)
Theorem forward_from_last_exits maxcols maxrows fuel files k p key keys tr :
  indexable files ->
  at_index files k = Some p -> empty (imread p) = false ->
  size files = k + 1 ->
  uchar key <> 113 -> uchar key <> 112 ->
  for_loop imread NDEBUG maxcols maxrows fuel (key :: keys) files k tr
  = (tr ++ [Imread p;
            Frame k p (imread p) (Scaler.image maxcols maxrows (imread p))],
     Exit 0).
Proof.
  intros Hidx Hat Hp Hlast Hq Hpp.
  rewrite (for_loop_viewing imread NDEBUG _ _ _ _ _ _ _ _ Hidx Hat Hp).
  cbv zeta.
  assert (Hn : next_index (dispatch (uchar key) k) = Some (k + 1)).
  { unfold dispatch. apply Z.eqb_neq in Hq, Hpp. rewrite Hq, Hpp.
    destruct ((uchar key =? 110) || (uchar key =? 32)); reflexivity. }
  rewrite Hn, for_loop_eq.
  assert (Hk : 0 <= k).
  { unfold at_index in Hat. destruct (Z.leb_spec 0 k); [assumption|discriminate]. }
  rewrite to_size_t_small by (unfold indexable in Hidx; lia).
  destruct (Z.ltb_spec (k + 1) (size files)); [lia|reflexivity].
Qed.

(** X18.  The key 'q' ends the run wherever it is pressed: the frame of
    the current pass is the last event, the for loop returns 0, and the
    keys that follow are not read. *)
Theorem quit_key_exits maxcols maxrows fuel files i key keys tr :
  indexable files -> 0 <= i <= size files -> (length files <= fuel)%nat ->
  uchar key = 113 ->
  for_loop imread NDEBUG maxcols maxrows fuel (key :: keys) files i tr
  = for_loop imread NDEBUG maxcols maxrows fuel [key] files i tr
  /\ snd (for_loop imread NDEBUG maxcols maxrows fuel [key] files i tr) = Exit 0
  /\ (length (shown (fst (for_loop imread NDEBUG maxcols maxrows fuel [key]
                                   files i [])))
      <= 1)%nat.
Proof.
  intros Hidx Hi Hfuel Hkey.
  assert (Hrun : forall keys tr,
             for_loop imread NDEBUG maxcols maxrows fuel (key :: keys) files i tr
             = for_loop imread NDEBUG maxcols maxrows fuel [key] files i tr
             /\ snd (for_loop imread NDEBUG maxcols maxrows fuel [key] files i tr)
                = Exit 0
             /\ (length (shown (fst (for_loop imread NDEBUG maxcols maxrows fuel
                                              [key] files i tr)))
                 <= S (length (shown tr)))%nat).
  { clear keys tr. intros keys tr.
    destruct (Z.eq_dec i (size files)) as [Hend|Hin].
    - rewrite !for_loop_eq.
      rewrite to_size_t_small by (unfold indexable in Hidx; lia).
      destruct (Z.ltb_spec i (size files)); [lia|]. cbn [fst snd].
      repeat split; lia.
    - assert (Hat : exists p, at_index files i = Some p)
        by (unfold at_index; destruct (Z.leb_spec 0 i); [|lia];
            apply lookup_lt_is_Some; unfold size in *; lia).
      destruct Hat as [p Hat].
      destruct (at_index_Some _ _ _ Hat) as (pre & s & -> & ->).
      assert (Hfuel' : (length s < fuel)%nat)
        by (rewrite length_app in Hfuel; cbn [length] in Hfuel; lia).
      rewrite !for_loop_pass by auto. cbv zeta.
      pose proof (erasures_shown imread p s) as Hs.
      destruct (snd (erasures p s)) as [|q rest]; cbn [fst snd].
      + rewrite shown_app, shown_imread, Hs, app_nil_r. repeat split; lia.
      + rewrite Hkey. change (dispatch 113 (size pre)) with Break.
        cbn [next_index fst snd].
        rewrite !shown_app, shown_imread, Hs, app_nil_r, length_app.
        cbn [shown flat_map app length]. repeat split; lia. }
  destruct (Hrun keys tr) as (H1 & H2 & _).
  destruct (Hrun [] []) as (_ & _ & H3).
  repeat split; assumption.
Qed.

(** X19.  Keys that come later do not change what came before: the trace
    of a run on [keys] is the beginning of the trace of the run on [keys]
    followed by more keys, and a run that returned is not changed at all by
    more keys. *)
Theorem more_keys_extend_the_run maxcols maxrows fuel more keys :
  forall files i tr,
    indexable files -> 0 <= i <= size files -> (length files <= fuel)%nat ->
    let run := for_loop imread NDEBUG maxcols maxrows fuel keys files i tr in
    let longer :=
      for_loop imread NDEBUG maxcols maxrows fuel (keys ++ more) files i tr in
    (snd run = Exit 0 -> longer = run)
    /\ exists tr', fst longer = fst run ++ tr'.
Proof.
  induction keys as [|key keys IH]; intros files i tr Hidx Hi Hfuel;
    cbn [app]; cbv zeta.
  - destruct (for_loop_invariant maxcols maxrows fuel more files i tr
                Hidx Hi Hfuel) as (t1 & o1 & E1 & _).
    destruct (Z.eq_dec i (size files)) as [Hend|Hin].
    + rewrite !for_loop_eq.
      rewrite to_size_t_small by (unfold indexable in Hidx; lia).
      destruct (Z.ltb_spec i (size files)); [lia|]. cbn [fst snd].
      split; [reflexivity|]. exists []. rewrite app_nil_r. reflexivity.
    + assert (Hat : exists p, at_index files i = Some p)
        by (unfold at_index; destruct (Z.leb_spec 0 i); [|lia];
            apply lookup_lt_is_Some; unfold size in *; lia).
      destruct Hat as [p Hat].
      destruct (at_index_Some _ _ _ Hat) as (pre & s & -> & ->).
      assert (Hfuel' : (length s < fuel)%nat)
        by (rewrite length_app in Hfuel; cbn [length] in Hfuel; lia).
      rewrite !for_loop_pass by auto. cbv zeta.
      pose proof (erasures_count imread p s) as Hc.
      destruct (snd (erasures p s)) as [|q rest] eqn:E; cbn [fst snd].
      * split; [reflexivity|]. exists []. rewrite app_nil_r. reflexivity.
      * split; [discriminate|].
        destruct more as [|key more]; cbn [fst].
        { exists []. rewrite app_nil_r. reflexivity. }
        destruct (next_index (dispatch (uchar key) (size pre))) as [j|] eqn:Hj;
          cbn [fst].
        2:{ exists []. rewrite app_nil_r. reflexivity. }
        apply next_index_bounds in Hj; [|unfold size; lia].
        match goal with
        | |- context [for_loop _ _ _ _ _ more ?f ?j ?t] =>
            destruct (for_loop_invariant maxcols maxrows fuel more f j t)
              as (t2 & o2 & -> & _)
        end.
        -- eapply erasures_indexable; eauto.
        -- rewrite size_app, size_cons. unfold size. unfold size in Hj. lia.
        -- rewrite length_app in *. simpl in *. lia.
        -- exists t2. reflexivity.
  - destruct (Z.eq_dec i (size files)) as [Hend|Hin].
    + rewrite !for_loop_eq.
      rewrite to_size_t_small by (unfold indexable in Hidx; lia).
      destruct (Z.ltb_spec i (size files)); [lia|]. cbn [fst snd].
      split; [reflexivity|]. exists []. rewrite app_nil_r. reflexivity.
    + assert (Hat : exists p, at_index files i = Some p)
        by (unfold at_index; destruct (Z.leb_spec 0 i); [|lia];
            apply lookup_lt_is_Some; unfold size in *; lia).
      destruct Hat as [p Hat].
      destruct (at_index_Some _ _ _ Hat) as (pre & s & -> & ->).
      assert (Hfuel' : (length s < fuel)%nat)
        by (rewrite length_app in Hfuel; cbn [length] in Hfuel; lia).
      rewrite !for_loop_pass by auto. cbv zeta.
      pose proof (erasures_count imread p s) as Hc.
      destruct (snd (erasures p s)) as [|q rest] eqn:E; cbn [fst snd].
      * split; [reflexivity|]. exists []. rewrite app_nil_r. reflexivity.
      * destruct (next_index (dispatch (uchar key) (size pre))) as [j|] eqn:Hj;
          cbn [fst snd].
        2:{ split; [reflexivity|]. exists []. rewrite app_nil_r. reflexivity. }
        apply next_index_bounds in Hj; [|unfold size; lia].
        apply IH.
        -- eapply erasures_indexable; eauto.
        -- rewrite size_app, size_cons. unfold size. unfold size in Hj. lia.
        -- rewrite length_app in *. simpl in *. lia.
Qed.

(** The for loop returns nothing but 0. *)
Lemma for_loop_exit_code maxcols maxrows fuel keys :
  forall files i tr code,
    snd (for_loop imread NDEBUG maxcols maxrows fuel keys files i tr)
    = Exit code -> code = 0.
Proof.
  induction keys as [|key keys IH]; intros files i tr code;
    rewrite for_loop_eq;
    destruct (to_size_t i <? size files); cbn [snd]; try congruence;
    destruct (ensure_valid_at imread fuel files i tr) as [tr1 [files1 img| | |]];
    cbn [snd]; try congruence;
    destruct (assert_fails NDEBUG (negb (empty img))); cbn [snd];
    try congruence;
    destruct (at_index files1 i); cbn [snd]; try congruence.
  destruct (dispatch (snd (display maxcols maxrows img key)) i);
    cbn [snd]; try congruence; apply IH.
Qed.

(** X20.  [main] returns 1 in three cases and no other: help was asked
    for, no directory was given, or the enumeration threw, which it does
    exactly when the root is no directory or some directory of the
    traversal cannot be opened.  Nothing has then been decoded or
    displayed.  (An exception of OpenCV, which the second handler turns
    into 1 as well, is outside the model.) *)
Theorem main_exit_code fuel args root keys :
  (snd (main imread NDEBUG fuel args root keys) = Exit 1
   <-> help args = true \/ dir args = ""%string
       \/ Enumerator.is_directory root && Enumerator.all_readable root = false)
  /\ (snd (main imread NDEBUG fuel args root keys) = Exit 1 ->
      fst (main imread NDEBUG fuel args root keys) = []).
Proof.
  unfold main.
  destruct (help args) eqn:Hh; cbn [orb].
  { split; [split; auto|reflexivity]. }
  destruct (String.eqb_spec (dir args) "") as [Hd|Hd].
  { split; [split; auto|reflexivity]. }
  destruct (Enumerator.file_list (dir args) root []) as [msg|files] eqn:E.
  - split; [split; [intros _|reflexivity]|reflexivity].
    right. right.
    destruct (Enumerator.is_directory root && Enumerator.all_readable root)
      eqn:R; [|reflexivity].
    apply andb_prop in R as [R1 R2].
    destruct (EnumeratorFacts.file_list_total root (dir args) [] R1 R2)
      as [l Hl].
    congruence.
  - apply EnumeratorFacts.file_list_returns_readable in E as [R1 R2].
    assert (Hno : forall o tr,
               (if assert_fails NDEBUG (negb (size files =? 0))
                then ([], Abort "files.size() != 0")
                else for_loop imread NDEBUG (to_int (opt_cols args))
                              (to_int (opt_rows args)) fuel keys files 0 [])
               = (tr, o) ->
               o <> Exit 1).
    { intros o tr. destruct (assert_fails NDEBUG (negb (size files =? 0))).
      - intros [= _ <-]. discriminate.
      - intros Hrun Ho. subst o.
        pose proof (for_loop_exit_code (to_int (opt_cols args))
                      (to_int (opt_rows args)) fuel keys files 0 [] 1) as Hc.
        rewrite Hrun in Hc. specialize (Hc eq_refl). discriminate. }
    destruct (if assert_fails NDEBUG (negb (size files =? 0))
              then ([], Abort "files.size() != 0")
              else for_loop imread NDEBUG (to_int (opt_cols args))
                            (to_int (opt_rows args)) fuel keys files 0 [])
      as [tr o] eqn:Hrun.
    specialize (Hno o tr eq_refl). cbn [fst snd].
    split; [split|]; try (intros ->; contradiction).
    intros [H|[H|H]]; try congruence.
    rewrite R1, R2 in H. discriminate.
Qed.

(** The conversion of lines 111-112 keeps an option below [2^31] and
    takes [2^32] off a larger one. *)
Lemma to_int_cases u :
  0 <= u < 2 ^ 32 ->
  (u < 2 ^ 31 -> to_int u = u) /\ (2 ^ 31 <= u -> to_int u = u - 2 ^ 32).
Proof.
  intros Hu. unfold to_int. rewrite (Z.mod_small u) by lia. cbv zeta.
  destruct (Z.ltb_spec u (2 ^ 31)); split; intros; try reflexivity; lia.
Qed.

(** X21.  [main] starts with the first file of the enumeration that
    decodes: having tried and erased, in order, the files in front of it,
    it displays that file under index 0 before any key is read.  The
    frame is computed for the two options as the [int] globals hold
    them, that is after the conversion of lines 111-112, which turns an
    option of [2^31] or more into a negative bound. *)
Theorem main_shows_first_decodable fuel args root keys bad good rest :
  help args = false -> dir args <> ""%string ->
  Enumerator.file_list (dir args) root [] = inr (bad ++ good :: rest) ->
  Forall (Navigation.undecodable imread) bad -> empty (imread good) = false ->
  indexable (bad ++ good :: rest) ->
  (length (bad ++ good :: rest) <= fuel)%nat ->
  exists tr o,
    main imread NDEBUG fuel args root keys
    = (failed bad
       ++ Imread good
          :: Frame 0 good (imread good)
               (Scaler.image (to_int (opt_cols args)) (to_int (opt_rows args))
                             (imread good))
          :: tr, o)
    /\ erased (failed bad) = bad.
Proof.
  intros Hhelp Hdir Hlist Hbad Hgood Hidx Hfuel.
  apply String.eqb_neq in Hdir. unfold main.
  rewrite Hhelp, Hdir, Hlist. cbn [orb].
  assert (Hsize : (size (bad ++ good :: rest) =? 0) = false).
  { apply Z.eqb_neq. rewrite size_app, size_cons. unfold size. lia. }
  rewrite Hsize. cbn [negb]. rewrite assert_holds.
  destruct (bad ++ good :: rest) as [|p s] eqn:E; [destruct bad; discriminate|].
  destruct (erasures_skip imread bad good rest Hbad Hgood p s (eq_sym E))
    as [Htr Hrest].
  change 0 with (size []) at 1. change (p :: s) with ([] ++ p :: s).
  rewrite for_loop_pass by (simpl in *; auto; lia).
  cbv zeta. rewrite Hrest, app_nil_l, Htr.
  change (size []) with 0. change ([] ++ good :: rest) with (good :: rest).
  set (F := Frame 0 good (imread good)
              (Scaler.image (to_int (opt_cols args)) (to_int (opt_rows args))
                            (imread good))).
  assert (Hshape : forall tr,
             ((failed bad ++ [Imread good]) ++ [F]) ++ tr
             = failed bad ++ Imread good :: F :: tr)
    by (intros tr; rewrite <- !app_assoc; reflexivity).
  destruct keys as [|key keys].
  - exists [], Blocked. rewrite <- Hshape, app_nil_r.
    split; [reflexivity|apply erased_failed].
  - destruct (next_index (dispatch (uchar key) 0)) as [j|] eqn:Hj.
    + apply next_index_bounds in Hj; [|lia].
      destruct (for_loop_invariant (to_int (opt_cols args))
                  (to_int (opt_rows args)) fuel keys
                  (good :: rest) j ((failed bad ++ [Imread good]) ++ [F]))
        as (tr' & o & -> & _).
      * apply (erasures_indexable imread [] p s good rest); assumption.
      * rewrite size_cons. unfold size. lia.
      * pose proof (erasures_count imread p s) as Hc. rewrite Hrest in Hc.
        simpl in *. lia.
      * exists tr', o. rewrite Hshape.
        split; [reflexivity|apply erased_failed].
    + exists [], (Exit 0). rewrite <- Hshape, app_nil_r.
      split; [reflexivity|apply erased_failed].
Qed.

(** A catalog without duplicates, the block erased at the cursor and what
    is left. *)
Lemma block_split (pre : list string) p s n :
  NoDup (pre ++ p :: s) ->
  NoDup (take n (p :: s)) /\ NoDup (pre ++ drop n (p :: s))
  /\ (forall x, x ∈ take n (p :: s) -> x ∉ pre ++ drop n (p :: s))
  /\ (forall x, x ∈ take n (p :: s) -> x ∈ pre ++ p :: s)
  /\ (forall x, x ∈ pre ++ drop n (p :: s) -> x ∈ pre ++ p :: s).
Proof.
  intros H.
  assert (E : p :: s = take n (p :: s) ++ drop n (p :: s))
    by (symmetry; apply take_drop).
  set (T := take n (p :: s)) in *. set (R := drop n (p :: s)) in *.
  rewrite E in H |- *. clear E.
  apply NoDup_app in H as (H1 & H2 & H3).
  apply NoDup_app in H3 as (H4 & H5 & H6).
  split; [exact H4|split; [|split; [|split]]].
  - apply NoDup_app. split; [exact H1|split; [|exact H6]].
    intros x Hx HR. apply (H2 x Hx). apply elem_of_app. auto.
  - intros x Hx Hin. apply elem_of_app in Hin as [Hin|Hin].
    + apply (H2 x Hin). apply elem_of_app. auto.
    + apply (H5 x Hx Hin).
  - intros x Hx. rewrite !elem_of_app. auto.
  - intros x Hx. rewrite !elem_of_app. apply elem_of_app in Hx. tauto.
Qed.

Lemma for_loop_failed_decodes maxcols maxrows fuel keys :
  forall files i tr,
    indexable files -> 0 <= i <= size files -> (length files <= fuel)%nat ->
    exists tr' o,
      for_loop imread NDEBUG maxcols maxrows fuel keys files i tr
      = (tr ++ tr', o)
      /\ List.filter (fun x => empty (imread x)) (decoded tr') = erased tr'
      /\ (forall x, x ∈ erased tr' -> x ∈ files)
      /\ (NoDup files -> NoDup (erased tr')).
Proof.
  induction keys as [|key keys IH]; intros files i tr Hidx Hi Hfuel.
  all: destruct (Z.eq_dec i (size files)) as [Hend|Hin];
    [ exists [], (Exit 0); rewrite for_loop_eq, app_nil_r;
      rewrite to_size_t_small by (unfold indexable in Hidx; lia);
      destruct (Z.ltb_spec i (size files)); [lia|];
      split; [reflexivity|split; [reflexivity|split;
        [intros x Hx; inversion Hx|intros _; constructor]]]
    | ].
  all: assert (Hat : exists p, at_index files i = Some p)
         by (unfold at_index; destruct (Z.leb_spec 0 i); [|lia];
             apply lookup_lt_is_Some; unfold size in *; lia);
       destruct Hat as [p Hat];
       destruct (at_index_Some _ _ _ Hat) as (pre & s & -> & ->);
       assert (Hfuel' : (length s < fuel)%nat)
         by (rewrite length_app in Hfuel; cbn [length] in Hfuel; lia);
       rewrite for_loop_pass by auto; cbv zeta;
       pose proof (erasures_filter imread p s) as Hfilter;
       pose proof (erasures_suffix imread p s) as Hsuf;
       pose proof (erasures_count imread p s) as Hcount;
       pose proof (erasures_head imread p s) as Hhead;
       destruct (erasures_prefix imread p s) as [Hpre _];
       set (n := failures (fst (erasures p s))) in *;
       set (A := Imread p :: fst (erasures p s)) in *;
       assert (HeA : erased A = take n (p :: s)) by exact Hpre;
       assert (Hsub : forall x, x ∈ erased A -> x ∈ pre ++ p :: s)
         by (intros x Hx; rewrite HeA in Hx;
             apply elem_of_app; right;
             apply (subseteq_take n (p :: s) x Hx));
       assert (Hnd : NoDup (pre ++ p :: s) -> NoDup (erased A))
         by (intros H; rewrite HeA; apply (block_split pre p s n H));
       destruct (snd (erasures p s)) as [|q rest] eqn:E;
       try (exists A, (Exit 0);
            split; [reflexivity|split; [exact Hfilter|split; assumption]]).
  - set (F := Frame (size pre) q (imread q)
                (Scaler.image maxcols maxrows (imread q))).
    exists (A ++ [F]), Blocked.
    split; [rewrite <- app_assoc; reflexivity|].
    rewrite decoded_app, erased_app, List.filter_app, Hfilter.
    cbn [decoded erased flat_map List.filter app]. rewrite !app_nil_r.
    split; [reflexivity|split; assumption].
  - set (F := Frame (size pre) q (imread q)
                (Scaler.image maxcols maxrows (imread q))).
    assert (Hlast : List.filter (fun x => empty (imread x)) (decoded (A ++ [F]))
                    = erased (A ++ [F]) /\ erased (A ++ [F]) = erased A).
    { rewrite decoded_app, erased_app, List.filter_app, Hfilter.
      cbn [decoded erased flat_map List.filter app]. rewrite !app_nil_r.
      split; reflexivity. }
    destruct Hlast as [Hf1 Hf2].
    destruct (next_index (dispatch (uchar key) (size pre))) as [j|] eqn:Hj.
    + apply next_index_bounds in Hj; [|unfold size; lia].
      destruct (IH (pre ++ q :: rest) j ((tr ++ A) ++ [F]))
        as (tr' & o & Hrun & Hfil & Hin' & Hnd').
      * eapply erasures_indexable; eauto.
      * rewrite size_app, size_cons. unfold size. unfold size in Hj. lia.
      * rewrite length_app in *. simpl in *. lia.
      * exists ((A ++ [F]) ++ tr'), o. rewrite Hrun.
        split; [f_equal; rewrite <- !app_assoc; reflexivity|].
        rewrite decoded_app, erased_app, List.filter_app, Hf1, Hfil, Hf2.
        split; [reflexivity|].
        assert (Hrest : forall x, x ∈ pre ++ q :: rest -> x ∈ pre ++ p :: s).
        { intros x Hx. rewrite Hsuf in Hx.
          rewrite elem_of_app in Hx. rewrite elem_of_app.
          destruct Hx as [Hx|Hx]; [auto|right].
          apply (elem_of_sublist _ _ x Hx (sublist_drop (p :: s) n)). }
        split.
        -- intros x Hx. apply elem_of_app in Hx as [Hx|Hx]; auto.
        -- intros H.
           destruct (block_split pre p s n H) as (B1 & B2 & B3 & _).
           rewrite <- Hsuf in B2, B3.
           apply NoDup_app. split; [rewrite HeA; exact B1|split; [|auto]].
           intros x Hx Hx'. rewrite HeA in Hx. apply (B3 x Hx). auto.
    + exists (A ++ [F]), (Exit 0).
      split; [rewrite <- app_assoc; reflexivity|].
      rewrite Hf1, Hf2. split; [reflexivity|split; assumption].
Qed.

(** X23.  The entries that fail to decode are exactly the entries erased,
    in the same order: every failed call of [cv::imread] is followed by
    the erasure of its entry and nothing else is erased.  In a catalog
    that names no file twice no entry is erased twice, so that a file
    that holds no image is read once in a whole run, however the user
    moves. *)
Theorem failed_decodes_erased_once maxcols maxrows fuel keys files i :
  indexable files -> 0 <= i <= size files -> (length files <= fuel)%nat ->
  let tr := fst (for_loop imread NDEBUG maxcols maxrows fuel keys files i []) in
  List.filter (fun x => empty (imread x)) (decoded tr) = erased tr
  /\ (NoDup files -> NoDup (erased tr)).
Proof.
  intros Hidx Hi Hfuel.
  destruct (for_loop_failed_decodes maxcols maxrows fuel keys files i []
              Hidx Hi Hfuel) as (tr' & o & -> & H1 & _ & H2).
  cbn [fst app]. split; assumption.
Qed.


End Runs.

(** *** Concrete runs *)

Local Open Scope string_scope.

Lemma ensure_valid_at_skips_undecodable_witness :
  exists tr,
    ensure_valid_at by_name 5 (["bad1"; "bad2"] ++ "a.png" :: ["bad3"; "b.png"])%list 0 []
    = (tr, Fetched ("a.png" :: ["bad3"; "b.png"]) (by_name "a.png"))
    /\ erased tr = ["bad1"; "bad2"]
    /\ failures tr = 2%nat
    /\ length ("a.png" :: ["bad3"; "b.png"])
       = (length (["bad1"; "bad2"] ++ "a.png" :: ["bad3"; "b.png"])%list - 2)%nat
    /\ at_index ("a.png" :: ["bad3"; "b.png"]) 0 = Some "a.png"
    /\ forall j : nat,
         ("a.png" :: ["bad3"; "b.png"]) !! j
         = (["bad1"; "bad2"] ++ "a.png" :: ["bad3"; "b.png"])%list !! (2 + j)%nat.
Proof.
  apply (ensure_valid_at_skips_undecodable by_name 5
           ["bad1"; "bad2"] "a.png" ["bad3"; "b.png"]).
  - repeat constructor.
  - reflexivity.
  - unfold indexable. vm_compute. discriminate.
  - simpl. lia.
Defined.

Lemma pruning_terminates_witness :
  exists tr r,
    (forall fuel, (3 - Z.to_nat 1 <= fuel)%nat ->
       ensure_valid_at by_name fuel ["a"; "bad"; "b"] 1 [] = (tr, r))
    /\ (failures tr <= 3 - Z.to_nat 1)%nat
    /\ List.filter (fun path => empty (by_name path)) (decoded tr) = erased tr
    /\ erased tr = take (failures tr) (drop (Z.to_nat 1) ["a"; "bad"; "b"])
    /\ exists files',
         length files' = (3 - failures tr)%nat
         /\ files' = (take (Z.to_nat 1) ["a"; "bad"; "b"]
                      ++ drop (Z.to_nat 1 + failures tr) ["a"; "bad"; "b"])%list
         /\ (r = EndOfCatalog files' /\ attempts tr = failures tr
             \/ exists img q,
                  r = Fetched files' img
                  /\ at_index files' 1 = Some q /\ img = by_name q
                  /\ empty img = false
                  /\ attempts tr = S (failures tr)).
Proof.
  apply (pruning_terminates by_name ["a"; "bad"; "b"] 1).
  - vm_compute. split; [discriminate|reflexivity].
  - unfold indexable. vm_compute. discriminate.
Defined.

Lemma all_undecodable_ends_witness :
  ensure_valid_at by_name 2 ["bad1"; "bad2"] 0 []
  = (failed ["bad1"; "bad2"], EndOfCatalog [])
  /\ for_loop by_name false 800 600 2 [110; 112] ["bad1"; "bad2"] 0 []
     = (failed ["bad1"; "bad2"], Exit 0)
  /\ erased (failed ["bad1"; "bad2"]) = ["bad1"; "bad2"]
  /\ attempts (failed ["bad1"; "bad2"]) = 2%nat
  /\ shown (failed ["bad1"; "bad2"]) = []
  /\ forall args root,
       help args = false -> dir args <> "" ->
       opt_cols args = 800 -> opt_rows args = 600 ->
       Enumerator.file_list (dir args) root [] = inr ["bad1"; "bad2"] ->
       main by_name false 2 args root [110; 112]
       = (failed ["bad1"; "bad2"], Exit 0).
Proof.
  apply (all_undecodable_ends by_name false 800 600 2 [110; 112]
           ["bad1"; "bad2"]).
  - discriminate.
  - repeat constructor.
  - unfold indexable. vm_compute. discriminate.
  - simpl. lia.
Defined.

Lemma other_key_advances_witness :
  dispatch (uchar 120) 0 = EndOfBody 0
  /\ next_index (dispatch (uchar 120) 0) = Some (0 + 1)
  /\ for_loop by_name false 800 600 2 (120 :: [113]) ["a"; "b"] 0 []
     = for_loop by_name false 800 600 2 (110 :: [113]) ["a"; "b"] 0 []
  /\ forall p p',
       indexable ["a"; "b"] ->
       at_index ["a"; "b"] 0 = Some p -> empty (by_name p) = false ->
       at_index ["a"; "b"] (0 + 1) = Some p' -> empty (by_name p') = false ->
       shown (fst (for_loop by_name false 800 600 2 [120] ["a"; "b"] 0 []))
       = [0; 0 + 1].
Proof.
  apply (other_key_advances by_name false 800 600 2 [113] ["a"; "b"] 0 120 []).
  - vm_compute. discriminate.
  - vm_compute. discriminate.
  - vm_compute. discriminate.
  - vm_compute. discriminate.
Defined.

(** C1, as the specification has it, fails: in a catalog of two images,
    the key 'x' at index 0 leads to index 1 being displayed next. *)
Lemma other_key_counterexample :
  ~ (forall (imread : string -> Mat) (NDEBUG : bool) maxcols maxrows fuel
            files k p key,
       indexable files ->
       at_index files k = Some p -> empty (imread p) = false ->
       (length files <= fuel)%nat ->
       uchar key <> 113 -> uchar key <> 110 -> uchar key <> 32 ->
       uchar key <> 112 ->
       shown (fst (for_loop imread NDEBUG maxcols maxrows fuel [key] files k []))
       = [k; k]).
Proof.
  intros H.
  assert (E : shown (fst (for_loop by_name false 800 600 2 [120]
                                   ["a"; "b"] 0 [])) = [0; 0]).
  { apply (H by_name false 800 600 2%nat ["a"; "b"] 0 "a" 120).
    - unfold indexable. vm_compute. discriminate.
    - reflexivity.
    - reflexivity.
    - simpl. lia.
    - vm_compute. discriminate.
    - vm_compute. discriminate.
    - vm_compute. discriminate.
    - vm_compute. discriminate. }
  vm_compute in E. discriminate.
Qed.

Lemma previous_key_witness :
  shown (fst (for_loop by_name false 800 600 4 [112] ["a"; "b"; "bad"; "c"] 2 []))
  = [2; if (2 =? 0)%Z then 0 else 2 - 1].
Proof.
  apply (previous_key by_name false 800 600 4 ["a"; "b"; "bad"; "c"] 2 112).
  - unfold indexable. vm_compute. discriminate.
  - vm_compute. split; [discriminate|reflexivity].
  - right. left. reflexivity.
  - simpl. lia.
  - reflexivity.
Defined.

(** A catalog of three files of which the second holds no image: after
    'n' twice the first file is displayed at index 0, the third at index 1,
    the second is erased, and the run ends at the end of the catalog. *)
Example three_files_one_undecodable :
  let run := for_loop by_name false 800 600 3 [110; 110] ["f0"; "bad1"; "f2"] 0 [] in
  shown (fst run) = [0; 1]
  /\ erased (fst run) = ["bad1"]
  /\ decoded (fst run) = ["f0"; "bad1"; "f2"]
  /\ snd run = Exit 0.
Proof. vm_compute. repeat split; reflexivity. Qed.

(** The key 'q' ends the run after the first frame. *)
Example quit_key :
  let run := for_loop by_name false 800 600 3 [113; 110] ["f0"; "f1"] 0 [] in
  shown (fst run) = [0] /\ snd run = Exit 0.
Proof. vm_compute. split; reflexivity. Qed.

Lemma key_modulo_256_witness :
  snd (display 800 600 (mkMat 480 640) 113) = 113 mod 256
  /\ 0 <= snd (display 800 600 (mkMat 480 640) 113) < 256
  /\ snd (display 800 600 (mkMat 480 640) 113)
     = snd (display 800 600 (mkMat 480 640) 1048689)
  /\ dispatch (snd (display 800 600 (mkMat 480 640) 113)) 0
     = dispatch (snd (display 800 600 (mkMat 480 640) 1048689)) 0
  /\ for_loop by_name false 800 600 2 (113 :: []) ["a"; "b"] 0 []
     = for_loop by_name false 800 600 2 (1048689 :: []) ["a"; "b"] 0 [].
Proof.
  apply (key_modulo_256 by_name false 800 600 2 [] ["a"; "b"] 0 []
           (mkMat 480 640) 113 1048689).
  reflexivity.
Defined.



(** *** Concrete runs for the invariants *)

Lemma for_loop_safe_witness :
  (snd (for_loop by_name false 800 600 3 [110; 112] ["a"; "bad"; "b"] 0 [])
   = Exit 0
   \/ snd (for_loop by_name false 800 600 3 [110; 112] ["a"; "bad"; "b"] 0 [])
      = Blocked)
  /\ for_loop by_name true 800 600 3 [110; 112] ["a"; "bad"; "b"] 0 []
     = for_loop by_name false 800 600 3 [110; 112] ["a"; "bad"; "b"] 0 [].
Proof.
  apply (for_loop_safe by_name false 800 600 3 [110; 112] ["a"; "bad"; "b"] 0 []).
  - unfold indexable. vm_compute. discriminate.
  - unfold size. simpl. lia.
  - simpl. lia.
Defined.

Lemma for_loop_events_sound_witness :
  Forall (event_sound by_name ["a"; "bad"; "b"])
         (fst (for_loop by_name false 800 600 3 [110; 112] ["a"; "bad"; "b"] 0 [])).
Proof.
  apply (for_loop_events_sound by_name false 800 600 3 [110; 112]
           ["a"; "bad"; "b"] 0).
  - unfold indexable. vm_compute. discriminate.
  - unfold size. simpl. lia.
  - simpl. lia.
Defined.

Lemma for_loop_counts_witness :
  let run := for_loop by_name false 800 600 3 [110; 112] ["a"; "bad"; "b"] 0 [] in
  (length (shown (fst run)) <= S (length [110%Z; 112%Z]))%nat
  /\ (snd run = Blocked -> length (shown (fst run)) = S (length [110; 112]))
  /\ (failures (fst run) <= length ["a"; "bad"; "b"])%nat
  /\ (attempts (fst run) <= length (shown (fst run)) + failures (fst run))%nat
  /\ (attempts (fst run)
      <= S (length [110%Z; 112%Z]) + length ["a"; "bad"; "b"])%nat.
Proof.
  apply (for_loop_counts by_name false 800 600 3 [110; 112] ["a"; "bad"; "b"] 0).
  - unfold indexable. vm_compute. discriminate.
  - unfold size. simpl. lia.
  - simpl. lia.
Defined.

Lemma for_loop_stepwise_witness :
  let l := shown (fst (for_loop by_name false 800 600 3 [110; 112; 112]
                                ["a"; "bad"; "b"] 0 [])) in
  match l with [] => True | j :: _ => j = 0 end /\ stepwise l.
Proof.
  apply (for_loop_stepwise by_name false 800 600 3 [110; 112; 112]
           ["a"; "bad"; "b"] 0).
  - unfold indexable. vm_compute. discriminate.
  - unfold size. simpl. lia.
  - simpl. lia.
Defined.

Lemma ensure_valid_at_erases_a_block_witness :
  exists tr r n,
    ensure_valid_at by_name 3 ["a"; "bad1"; "bad2"; "b"] 1 [] = (tr, r)
    /\ erased tr = take n (drop (Z.to_nat 1) ["a"; "bad1"; "bad2"; "b"])
    /\ Forall (undecodable by_name) (erased tr)
    /\ let files' := (take (Z.to_nat 1) ["a"; "bad1"; "bad2"; "b"]
                      ++ drop (Z.to_nat 1 + n) ["a"; "bad1"; "bad2"; "b"])%list in
       (r = EndOfCatalog files'
        /\ files' = take (Z.to_nat 1) ["a"; "bad1"; "bad2"; "b"]
        \/ exists q, at_index files' 1 = Some q
                     /\ empty (by_name q) = false
                     /\ r = Fetched files' (by_name q)).
Proof.
  apply (ensure_valid_at_erases_a_block by_name 3 ["a"; "bad1"; "bad2"; "b"] 1).
  - unfold size. simpl. lia.
  - unfold indexable. vm_compute. discriminate.
  - simpl. lia.
Defined.

Lemma ensure_valid_at_idempotent_witness :
  exists path,
    at_index ["a"; "b"] 1 = Some path
    /\ forall fuel' tr',
         ensure_valid_at by_name fuel' ["a"; "b"] 1 tr'
         = ((tr' ++ [Imread path])%list, Fetched ["a"; "b"] (by_name "b")).
Proof.
  apply (ensure_valid_at_idempotent by_name 2 ["a"; "bad"; "b"] 1
           [Imread "bad"; Erase "bad"; Imread "b"] ["a"; "b"] (by_name "b")).
  - unfold size. simpl. lia.
  - unfold indexable. vm_compute. discriminate.
  - simpl. lia.
  - reflexivity.
Defined.

Lemma next_previous_round_trip_witness :
  (forall p', at_index ["a"; "b"; "c"] (1 + 1) = Some p' ->
     empty (by_name p') = false ->
     let run := for_loop by_name false 800 600 3 [110; 112] ["a"; "b"; "c"] 1 [] in
     shown (fst run) = [1; 1 + 1; 1] /\ erased (fst run) = []
     /\ snd run = Blocked)
  /\ (forall p', at_index ["a"; "b"; "c"] (1 - 1) = Some p' ->
     empty (by_name p') = false ->
     let run := for_loop by_name false 800 600 3 [112; 110] ["a"; "b"; "c"] 1 [] in
     shown (fst run) = [1; 1 - 1; 1] /\ erased (fst run) = []
     /\ snd run = Blocked).
Proof.
  apply (next_previous_round_trip by_name false 800 600 3 ["a"; "b"; "c"] 1 "b"
           110 112).
  - unfold indexable. vm_compute. discriminate.
  - reflexivity.
  - reflexivity.
  - left. reflexivity.
  - reflexivity.
Defined.

Lemma forward_from_last_exits_witness :
  for_loop by_name false 800 600 2 (32 :: [112; 112]) ["a"; "b"] 1 []
  = (([] ++ [Imread "b";
             Frame 1 "b" (by_name "b") (Scaler.image 800 600 (by_name "b"))])%list,
     Exit 0).
Proof.
  apply (forward_from_last_exits by_name false 800 600 2 ["a"; "b"] 1 "b" 32
           [112; 112] []).
  - unfold indexable. vm_compute. discriminate.
  - reflexivity.
  - reflexivity.
  - reflexivity.
  - vm_compute. discriminate.
  - vm_compute. discriminate.
Defined.

Lemma quit_key_exits_witness :
  for_loop by_name false 800 600 2 (113 :: [110; 110]) ["a"; "b"] 0 []
  = for_loop by_name false 800 600 2 [113] ["a"; "b"] 0 []
  /\ snd (for_loop by_name false 800 600 2 [113] ["a"; "b"] 0 []) = Exit 0
  /\ le (length (shown (fst (for_loop by_name false 800 600 2 [113]
                                        ["a"; "b"] 0 []))))
        1%nat.
Proof.
  apply (quit_key_exits by_name false 800 600 2 ["a"; "b"] 0 113 [110; 110] []).
  - unfold indexable. vm_compute. discriminate.
  - unfold size. simpl. lia.
  - simpl. lia.
  - reflexivity.
Defined.

Lemma more_keys_extend_the_run_witness :
  let run := for_loop by_name false 800 600 3 [110] ["a"; "bad"; "b"] 0 [] in
  let longer :=
    for_loop by_name false 800 600 3 ([110] ++ [112; 113])%list
             ["a"; "bad"; "b"] 0 [] in
  (snd run = Exit 0 -> longer = run)
  /\ exists tr', fst longer = (fst run ++ tr')%list.
Proof.
  apply (more_keys_extend_the_run by_name false 800 600 3 [112; 113] [110]
           ["a"; "bad"; "b"] 0 []).
  - unfold indexable. vm_compute. discriminate.
  - unfold size. simpl. lia.
  - simpl. lia.
Defined.

Lemma main_shows_first_decodable_witness :
  exists tr o,
    main by_extension false 3
         {| help := false; dir := "d"; opt_rows := 600; opt_cols := 800 |}
         (Enumerator.Dir true [("notes.txt", Enumerator.File);
                               ("a.png", Enumerator.File);
                               ("b.png", Enumerator.File)])
         [110]
    = ((failed ["d/notes.txt"]
        ++ Imread "d/a.png"
           :: Frame 0 "d/a.png" (by_extension "d/a.png")
                (Scaler.image (to_int 800) (to_int 600)
                              (by_extension "d/a.png"))
           :: tr)%list, o)
    /\ erased (failed ["d/notes.txt"]) = ["d/notes.txt"].
Proof.
  apply (main_shows_first_decodable by_extension false 3
           {| help := false; dir := "d"; opt_rows := 600; opt_cols := 800 |}
           (Enumerator.Dir true [("notes.txt", Enumerator.File);
                                 ("a.png", Enumerator.File);
                                 ("b.png", Enumerator.File)])
           [110] ["d/notes.txt"] "d/a.png" ["d/b.png"]).
  - reflexivity.
  - discriminate.
  - reflexivity.
  - repeat constructor.
  - reflexivity.
  - unfold indexable. vm_compute. discriminate.
  - simpl. lia.
Defined.

Lemma failed_decodes_erased_once_witness :
  let tr := fst (for_loop by_name false 800 600 4 [110; 112; 110]
                          ["a"; "bad1"; "bad2"; "b"] 0 []) in
  List.filter (fun x => empty (by_name x)) (decoded tr) = erased tr
  /\ (NoDup ["a"; "bad1"; "bad2"; "b"] -> NoDup (erased tr)).
Proof.
  apply (failed_decodes_erased_once by_name false 800 600 4 [110; 112; 110]
           ["a"; "bad1"; "bad2"; "b"] 0).
  - unfold indexable. vm_compute. discriminate.
  - unfold size. simpl. lia.
  - simpl. lia.
Defined.

(** An option of 4294967295 columns is stored as -1: for a raster of 640
    columns by 480 rows the ratio is negative and [cv::Mat::zeros] is
    asked for 0 rows and -1 columns. *)
Example main_wrapped_bound :
  to_int 4294967295 = -1
  /\ main by_extension false 3
          {| help := false; dir := "d"; opt_rows := 600;
             opt_cols := 4294967295 |}
          (Enumerator.Dir true [("a.png", Enumerator.File)]) []
     = ([Imread "d/a.png";
         Frame 0 "d/a.png" (mkMat 480 640) (Some (mkMat 0 (-1)))],
        Blocked).
Proof. split; vm_compute; reflexivity. Qed.

(** A run of [main] on a directory that cannot be read ends with 1 before
    anything is decoded. *)
Example main_unreadable_directory :
  main by_name false 3
       {| help := false; dir := "album"; opt_rows := 600; opt_cols := 800 |}
       Enumerator.album [110]
  = ([], Exit 1).
Proof. reflexivity. Qed.

End NavigationFacts.
